(** * SpatialCL query engines: breadth-first and depth-first tree traversal

    A shallow embedding of the two OpenCL query kernels of SpatialCL,
    [query/query_engine_bfs.hpp] (register_breadth_first) and the depth-first
    engine (depth_first), together with the binary tree addressing layer they
    call.  Unsigned machine integers are integers of [Z] with the wrap-around
    written out ([wrap32] for [uint], [wrap64] for [ulong]). *)

From Stdlib Require Import ZArith List Bool Lia Sorted.
Import ListNotations.
Local Open Scope Z_scope.

(** ** Machine integers *)

Definition wrap32 (x : Z) : Z := x mod 2 ^ 32.
Definition wrap64 (x : Z) : Z := x mod 2 ^ 64.

(** [0, 1, ..., n-1], the values of a counting loop [for (i = 0; i < n; ++i)]. *)
Definition zrange (n : Z) : list Z := map Z.of_nat (seq 0 (Z.to_nat n)).

(** ** Fixed-size arrays

    A C array of fixed size is a list of that length.  Reading or writing past
    the end is undefined in OpenCL C: what a run does from such an access on is
    not determined by the source.  The breadth-first engine below logs every
    access it makes to its two candidate arrays, so that memory safety of a
    run is the statement that no logged access is out of range; up to its
    first access out of range a run of the model is the run of the source.
    To keep the functions total a store past the end leaves the array as it is
    and a load past the end yields 0; the contents of the arrays after such an
    access say nothing about the source, and every statement below about the
    contents of the working set is made for runs (or levels) without one. *)

Definition array_get (a : list Z) (i : Z) : Z := nth (Z.to_nat i) a 0.

Fixpoint list_update (a : list Z) (i : nat) (v : Z) : list Z :=
  match a, i with
  | [], _ => []
  | _ :: t, O => v :: t
  | x :: t, S j => x :: list_update t j v
  end.

Definition array_set (a : list Z) (i : Z) (v : Z) : list Z :=
  if i <? 0 then a else list_update a (Z.to_nat i) v.

(** ** Binary tree addressing (tree/binary_tree.hpp) *)

Module BinaryTree.

(** Modelled from the spec: the declaration of [binary_tree_key_t] is in
    tree/binary_tree.hpp, which is not among the sources; the engines use its
    two fields, [level] and [local_node_id]. *)
Record binary_tree_key_t : Type := mk_key { level : Z; local_node_id : Z }.

(** Modelled from the spec: binary_tree_key_init of tree/binary_tree.hpp;
    it fills the two fields. *)
Definition binary_tree_key_init (lvl id : Z) : binary_tree_key_t :=
  {| level := lvl; local_node_id := id |}.

(** Modelled from the spec: macro BT_LOCAL_NODE_ID_OF_LEFT_CHILD of
    tree/binary_tree.hpp; the left child has local id local_id*2. *)
Definition BT_LOCAL_NODE_ID_OF_LEFT_CHILD (local_id : Z) : Z := local_id * 2.

(** Modelled from the spec: macro BT_LEAVES_PER_NODE of tree/binary_tree.hpp,
    [2^(levels-1-level)], the number of particle slots below a node.  On [Z] a
    negative exponent gives 0; the exponent is negative only for a level
    outside the tree. *)
Definition BT_LEAVES_PER_NODE (lvl levels : Z) : Z := 2 ^ (levels - 1 - lvl).

(** Modelled from the spec: binary_tree_key_encode_global_id of
    tree/binary_tree.hpp; level L has slot offset 2^L - 1 and the global id is
    that offset plus the local id. *)
Definition binary_tree_key_encode_global_id
  (node : binary_tree_key_t) (levels : Z) : Z :=
  (2 ^ level node - 1) + local_node_id node.

(** Modelled from the spec: binary_tree_get_children_begin of
    tree/binary_tree.hpp; local_id*2 at level+1. *)
Definition binary_tree_get_children_begin (node : binary_tree_key_t)
  : binary_tree_key_t :=
  {| level := level node + 1; local_node_id := local_node_id node * 2 |}.

(** Modelled from the spec: binary_tree_get_children_last of
    tree/binary_tree.hpp; local_id*2+1 at level+1. *)
Definition binary_tree_get_children_last (node : binary_tree_key_t)
  : binary_tree_key_t :=
  {| level := level node + 1; local_node_id := local_node_id node * 2 + 1 |}.

(** Modelled from the spec: binary_tree_is_right_child of
    tree/binary_tree.hpp; the local id is odd. *)
Definition binary_tree_is_right_child (node : binary_tree_key_t) : bool :=
  Z.odd (local_node_id node).

(** Modelled from the spec: binary_tree_get_parent of tree/binary_tree.hpp;
    level-1 and local_id/2 under integer division. *)
Definition binary_tree_get_parent (node : binary_tree_key_t)
  : binary_tree_key_t :=
  {| level := level node - 1; local_node_id := local_node_id node / 2 |}.

(** The leftmost particle slot below a node. *)
Definition leftmost_leaf (node : binary_tree_key_t) (levels : Z) : Z :=
  local_node_id node * BT_LEAVES_PER_NODE (level node) levels.

(** Modelled from the spec: binary_tree_is_node_used of tree/binary_tree.hpp;
    true iff the leftmost descendant particle index,
    local_id * 2^(levels-1-level), is below the true particle count. *)
Definition binary_tree_is_node_used
  (node : binary_tree_key_t) (levels num_particles : Z) : bool :=
  leftmost_leaf node levels <? num_particles.

(** Modelled from the spec: the tree provider's padded counts,
    effective_num_levels = ceil(log2 N) + 1 and
    effective_num_particles = 2^(effective_num_levels-1). *)
Definition effective_num_levels (num_particles : Z) : Z :=
  Z.log2_up num_particles + 1.

Definition effective_num_particles (num_particles : Z) : Z :=
  2 ^ (effective_num_levels num_particles - 1).

(** [child a b]: [b] is one of the two children of [a]. *)
Definition child (a b : binary_tree_key_t) : Prop :=
  b = binary_tree_get_children_begin a \/ b = binary_tree_get_children_last a.

(** [descendant a b]: [b] is reached from [a] by one or more child steps. *)
Inductive descendant (a : binary_tree_key_t) : binary_tree_key_t -> Prop :=
| descendant_child b : child a b -> descendant a b
| descendant_step b c : descendant a b -> child b c -> descendant a c.

Definition key_eqb (a b : binary_tree_key_t) : bool :=
  (level a =? level b) && (local_node_id a =? local_node_id b).

End BinaryTree.
Export BinaryTree.

(** The counts a tree provider hands to the kernels: the true particle count,
    the padded particle count and the padded number of levels.  The padded
    count fits a [ulong]. *)
Definition tree_wf (num_particles effective_num_particles effective_num_levels : Z)
  : Prop :=
  1 <= effective_num_levels <= 64 /\
  effective_num_particles = 2 ^ (effective_num_levels - 1) /\
  1 <= num_particles <= effective_num_particles.

(** ** The handler

    The handler module is external: it supplies the per-query hooks and the
    selection macros.  It may keep private state of type [H] for the query;
    every macro takes the state and returns the new one.  The batched
    breadth-first selector is handed the level, the working set and the number
    of candidates [available_children]; it returns the selection map as its
    bfs_select and bfs_deselect calls leave it.  bfs_select(id) is the plain
    store [selection_map[id] = 1]: nothing in the engine keeps a handler from
    selecting an index at or beyond [available_children]. *)
Record handler (H : Type) : Type := mk_handler {
  at_query_init : H;
  at_query_exit : H -> H;
  dfs_node_selector : H -> binary_tree_key_t -> Z -> bool * H;
  dfs_unique_node_discard_event : H -> Z -> H;
  dfs_particle_processor : H -> Z -> bool * H;
  bfs_node_selector : H -> Z -> list Z -> Z -> (Z -> bool) * H;
  bfs_particle_processor : H -> list Z -> Z -> H
}.
Arguments at_query_init {H}.
Arguments at_query_exit {H}.
Arguments dfs_node_selector {H}.
Arguments dfs_unique_node_discard_event {H}.
Arguments dfs_particle_processor {H}.
Arguments bfs_node_selector {H}.
Arguments bfs_particle_processor {H}.

(** ** Depth-first engine (depth_first) *)

Module DepthFirst.

Inductive depth_first_iteration_strategy : Type :=
| HIERARCHICAL_ITERATION_STRICT
| HIERARCHICAL_ITERATION_RELAXED.

(** What one query does, in order: the hooks, every node handed to
    dfs_node_selector (after load_node has read its two aggregate values at
    [idx]) with the decision, every discard notification, and every particle
    handed to dfs_particle_processor with the decision. *)
Inductive event : Type :=
| QueryInit
| NodeVisit (node : binary_tree_key_t) (idx : Z) (selected : bool)
| NodeDiscard (idx : Z)
| ParticleVisit (idx : Z) (selected : bool)
| QueryExit.

Record state (H : Type) : Type := mk_state {
  current_node : binary_tree_key_t;
  num_covered_particles : Z;
  handler_state : H;
  events : list event
}.
Arguments mk_state {H}.
Arguments current_node {H}.
Arguments num_covered_particles {H}.
Arguments handler_state {H}.
Arguments events {H}.

(** load_node: the index into the two aggregate arrays. *)
Definition load_node (node : binary_tree_key_t)
  (effective_num_levels effective_num_particles : Z) : Z :=
  let idx := wrap64 (binary_tree_key_encode_global_id node effective_num_levels) in
  wrap64 (idx - effective_num_particles).

(** load_particle: at the lowest level the index is the local node id. *)
Definition load_particle (node : binary_tree_key_t) : Z := local_node_id node.

(** The loop of find_first_left_parent, [while (is_right_child(result))
    result = parent(result)].  Every turn halves the local id, so the loop
    turns at most as often as the id has bits; that count is the fuel. *)
Fixpoint find_first_left_parent_loop (fuel : nat) (result : binary_tree_key_t)
  : binary_tree_key_t :=
  match fuel with
  | O => result
  | S fuel' =>
      if binary_tree_is_right_child result
      then find_first_left_parent_loop fuel' (binary_tree_get_parent result)
      else result
  end.

Definition bit_length (x : Z) : nat := Z.to_nat (Z.log2 x + 1).

Definition find_first_left_parent (node : binary_tree_key_t) : binary_tree_key_t :=
  let result := binary_tree_get_parent node in
  find_first_left_parent_loop (bit_length (local_node_id result)) result.

(** NEXT_PARENT, chosen by the preprocessor from Iteration_strategy. *)
Definition NEXT_PARENT (strategy : depth_first_iteration_strategy)
  (node : binary_tree_key_t) : binary_tree_key_t :=
  match strategy with
  | HIERARCHICAL_ITERATION_STRICT => find_first_left_parent node
  | HIERARCHICAL_ITERATION_RELAXED => binary_tree_get_parent node
  end.

(** [node.local_node_id++] *)
Definition next_local_node_id (node : binary_tree_key_t) : binary_tree_key_t :=
  {| level := level node; local_node_id := wrap64 (local_node_id node + 1) |}.

Section Query.

Context {H : Type}.
Variable hd : handler H.
Variable Iteration_strategy : depth_first_iteration_strategy.
Variables num_particles effective_num_particles effective_num_levels : Z.

Definition QUERY_NODE_LEVEL (s : state H) : state H :=
  let node := current_node s in
  let node_idx := load_node node effective_num_levels effective_num_particles in
  let (node_selected, h1) := dfs_node_selector hd (handler_state s) node node_idx in
  if node_selected then
    {| current_node := binary_tree_get_children_begin node;
       num_covered_particles := num_covered_particles s;
       handler_state := h1;
       events := events s ++ [NodeVisit node node_idx true] |}
  else
    let h2 := dfs_unique_node_discard_event hd h1 node_idx in
    let covered :=
      wrap64 (num_covered_particles s
              + BT_LEAVES_PER_NODE (level node) effective_num_levels) in
    let node' :=
      if binary_tree_is_right_child node
      then next_local_node_id (NEXT_PARENT Iteration_strategy node)
      else next_local_node_id node in
    {| current_node := node';
       num_covered_particles := covered;
       handler_state := h2;
       events := events s ++ [NodeVisit node node_idx false; NodeDiscard node_idx] |}.

Definition QUERY_PARTICLE_LEVEL (s : state H) : state H :=
  let node := current_node s in
  let particle_idx := load_particle node in
  let (particle_selected, h1) :=
    dfs_particle_processor hd (handler_state s) particle_idx in
  let node' :=
    if particle_selected then next_local_node_id node
    else if binary_tree_is_right_child node
         then next_local_node_id (NEXT_PARENT Iteration_strategy node)
         else next_local_node_id node in
  {| current_node := node';
     num_covered_particles := wrap64 (num_covered_particles s + 1);
     handler_state := h1;
     events := events s ++ [ParticleVisit particle_idx particle_selected] |}.

(** The body of the while loop. *)
Definition query_step (s : state H) : state H :=
  let particle_level_reached :=
    level (current_node s) =? wrap64 (effective_num_levels - 1) in
  if particle_level_reached then QUERY_PARTICLE_LEVEL s else QUERY_NODE_LEVEL s.

(** [while (num_covered_particles < num_particles)]; [None] when the fuel
    runs out before the loop condition fails. *)
Fixpoint query_loop (fuel : nat) (s : state H) : option (state H) :=
  if num_covered_particles s <? num_particles then
    match fuel with
    | O => None
    | S fuel' => query_loop fuel' (query_step s)
    end
  else Some s.

Definition query_start : state H :=
  {| current_node := {| level := 0; local_node_id := 0 |};
     num_covered_particles := 0;
     handler_state := at_query_init hd;
     events := [QueryInit] |}.

(** One query of the kernel, from at_query_init to at_query_exit. *)
Definition query (fuel : nat) : option (state H) :=
  match query_loop fuel query_start with
  | None => None
  | Some s =>
      Some {| current_node := current_node s;
              num_covered_particles := num_covered_particles s;
              handler_state := at_query_exit hd (handler_state s);
              events := events s ++ [QueryExit] |}
  end.

End Query.

(** The particles and the nodes a query selected, read off its events. *)
Fixpoint selected_particles (es : list event) : list Z :=
  match es with
  | [] => []
  | ParticleVisit idx true :: t => idx :: selected_particles t
  | _ :: t => selected_particles t
  end.

Fixpoint selected_nodes (es : list event) : list binary_tree_key_t :=
  match es with
  | [] => []
  | NodeVisit node _ true :: t => node :: selected_nodes t
  | _ :: t => selected_nodes t
  end.

(** The nodes whose aggregate values were loaded and handed to the selector. *)
Fixpoint visited_nodes (es : list event) : list binary_tree_key_t :=
  match es with
  | [] => []
  | NodeVisit node _ _ :: t => node :: visited_nodes t
  | _ :: t => visited_nodes t
  end.

Fixpoint visited_particles (es : list event) : list Z :=
  match es with
  | [] => []
  | ParticleVisit idx _ :: t => idx :: visited_particles t
  | _ :: t => visited_particles t
  end.

End DepthFirst.

(** ** Breadth-first engine (register_breadth_first) *)

Module BreadthFirst.

(** The two candidate arrays of a query, both of size Max_selected_nodes. *)
Inductive array_name : Type :=
| available_nodes_local_id_array
| temp_new_node_ids_array.

Inductive access : Type :=
| ArrayLoad (a : array_name) (index : Z)
| ArrayStore (a : array_name) (index : Z).

Definition access_index (x : access) : Z :=
  match x with ArrayLoad _ i | ArrayStore _ i => i end.

(** An access is in bounds for arrays of [capacity] elements. *)
Definition in_bounds (capacity : Z) (x : access) : bool :=
  (0 <=? access_index x) && (access_index x <? capacity).

(** What one query does, in order: the hooks and the two batched handler
    entry points, each with the working set it was offered
    ([available_nodes_local_id] and [num_available_nodes]) and the number of
    candidates. *)
Inductive event : Type :=
| QueryInit
| NodeSelector (level : Z) (working_set : list Z) (num_available_nodes : Z)
    (available_children : Z)
| ParticleProcessor (working_set : list Z) (num_available_nodes : Z)
    (num_available_particles : Z)
| QueryExit.

Record state (H : Type) : Type := mk_state {
  num_available_nodes : Z;
  available_nodes_local_id : list Z;
  handler_state : H;
  events : list event;
  accesses : list access
}.
Arguments mk_state {H}.
Arguments num_available_nodes {H}.
Arguments available_nodes_local_id {H}.
Arguments handler_state {H}.
Arguments events {H}.
Arguments accesses {H}.

Definition get_left_lnid_from_parent_lnid (parent_lnid : Z) : Z :=
  wrap64 (BT_LOCAL_NODE_ID_OF_LEFT_CHILD parent_lnid).


(** Candidate index to local node id: the parent sits at [id >> 1], the
    right child directly follows the left one. *)
Definition get_lnid_from_available_children_index
  (parent_lnid_buffer : list Z) (id : Z) : Z :=
  let result :=
    wrap64 (BT_LOCAL_NODE_ID_OF_LEFT_CHILD
              (array_get parent_lnid_buffer (Z.shiftr id 1))) in
  wrap64 (result + Z.land id 1).

(** bfs_load_node(id): the node key of candidate [id] and its index in the
    aggregate arrays. *)
Definition bfs_load_node (level : Z) (available_nodes_local_id : list Z)
  (effective_num_levels effective_num_particles : Z) (id : Z)
  : binary_tree_key_t * Z :=
  let node_key :=
    {| BinaryTree.level := level;
       local_node_id :=
         get_lnid_from_available_children_index available_nodes_local_id id |} in
  let global_node_idx :=
    wrap64 (binary_tree_key_encode_global_id node_key effective_num_levels) in
  (node_key, wrap64 (global_node_idx - effective_num_particles)).

(** The nodes a batched node selection is offered: candidates
    [0 .. available_children-1]. *)
Definition candidate_nodes (level : Z) (working_set : list Z)
  (available_children : Z) : list binary_tree_key_t :=
  map (fun id =>
         {| BinaryTree.level := level;
            local_node_id :=
              get_lnid_from_available_children_index working_set id |})
      (zrange available_children).

Section Query.

Context {H : Type}.
Variable hd : handler H.
Variable Max_selected_nodes : Z.
Variables num_particles effective_num_particles effective_num_levels : Z.

Definition Max_children : Z := 2 * Max_selected_nodes.

(** The state of the compaction loop: the running [num_available_nodes],
    [temp_new_node_ids] and the accesses made. *)
Record compaction : Type := mk_compaction {
  c_num_available_nodes : Z;
  c_temp_new_node_ids : list Z;
  c_accesses : list access
}.

(** One turn of [for (i = 0; i < Max_children; ++i) if (selection_map[i]) ...].
    The store comes before the clamp of the count: with the count at
    Max_selected_nodes it goes to temp_new_node_ids[Max_selected_nodes], one
    past the end.  The log records it; from there on the source is
    undefined. *)
Definition compact_step (available_nodes_local_id : list Z)
  (selection_map : Z -> bool) (c : compaction) (i : Z) : compaction :=
  if selection_map i then
    let node_id :=
      get_lnid_from_available_children_index available_nodes_local_id i in
    {| c_num_available_nodes :=
         Z.min (wrap32 (c_num_available_nodes c + 1)) (wrap32 Max_selected_nodes);
       c_temp_new_node_ids :=
         array_set (c_temp_new_node_ids c) (c_num_available_nodes c) node_id;
       c_accesses :=
         c_accesses c
         ++ [ArrayLoad available_nodes_local_id_array (Z.shiftr i 1);
             ArrayStore temp_new_node_ids_array (c_num_available_nodes c)] |}
  else c.

Definition compact (available_nodes_local_id : list Z)
  (selection_map : Z -> bool) (log : list access) : compaction :=
  fold_left (compact_step available_nodes_local_id selection_map)
    (zrange Max_children)
    {| c_num_available_nodes := 0;
       c_temp_new_node_ids := repeat 0 (Z.to_nat Max_selected_nodes);
       c_accesses := log |}.

(** [for (i = 0; i < num_available_nodes; ++i)
       available_nodes_local_id[i] = temp_new_node_ids[i]] *)
Definition copy_back_step (temp_new_node_ids : list Z)
  (acc : list Z * list access) (i : Z) : list Z * list access :=
  (array_set (fst acc) i (array_get temp_new_node_ids i),
   snd acc ++ [ArrayLoad temp_new_node_ids_array i;
               ArrayStore available_nodes_local_id_array i]).

Definition copy_back (c : compaction) (available_nodes_local_id : list Z)
  : list Z * list access :=
  fold_left (copy_back_step (c_temp_new_node_ids c))
    (zrange (c_num_available_nodes c))
    (available_nodes_local_id, c_accesses c).

(** The number of children to investigate: twice the working set, less one
    when the rightmost child does not exist. *)
Definition count_available_children (level : Z) (s : state H) : Z :=
  let available_children := wrap32 (2 * num_available_nodes s) in
  let last_child :=
    binary_tree_key_init (wrap32 (level - 1))
      (array_get (available_nodes_local_id s)
                 (wrap32 (num_available_nodes s - 1))) in
  let last_child := binary_tree_get_children_last last_child in
  if negb (binary_tree_is_node_used last_child effective_num_levels num_particles)
  then wrap32 (available_children - 1)
  else available_children.

(** The body of the level loop after its break test.  The selection map is
    cleared, the handler fills it, and the compaction loop reads its entries
    0 .. Max_children-1, whether or not the candidate was offered. *)
Definition level_body (level : Z) (s : state H) : state H :=
  let available_children := count_available_children level s in
  let log :=
    accesses s
    ++ [ArrayLoad available_nodes_local_id_array (wrap32 (num_available_nodes s - 1))] in
  let (selection_map, h1) :=
    bfs_node_selector hd (handler_state s) level (available_nodes_local_id s)
      available_children in
  let c := compact (available_nodes_local_id s) selection_map log in
  let (ids, log') := copy_back c (available_nodes_local_id s) in
  {| num_available_nodes := c_num_available_nodes c;
     available_nodes_local_id := ids;
     handler_state := h1;
     events :=
       events s
       ++ [NodeSelector level (available_nodes_local_id s)
             (num_available_nodes s) available_children];
     accesses := log' |}.

(** [for (uint level = 1; level < 64; ++level)] over the levels still to
    come, with the break at the top of the body. *)
Fixpoint level_loop (levels_to_come : list Z) (s : state H) : state H :=
  match levels_to_come with
  | [] => s
  | level :: rest =>
      if (num_available_nodes s =? 0)
         || (level =? wrap64 (effective_num_levels - 1))
      then s
      else level_loop rest (level_body level s)
  end.

Definition node_levels : list Z := map Z.of_nat (seq 1 63).

(** The particle pass after the level loop. *)
Definition particle_pass (s : state H) : state H :=
  if 0 <? num_available_nodes s then
    let num_available_particles := wrap32 (2 * num_available_nodes s) in
    let last := wrap32 (num_available_particles - 1) in
    let num_available_particles :=
      if num_particles
         <=? get_lnid_from_available_children_index
               (available_nodes_local_id s) last
      then wrap32 (num_available_particles - 1)
      else num_available_particles in
    {| num_available_nodes := num_available_nodes s;
       available_nodes_local_id := available_nodes_local_id s;
       handler_state :=
         bfs_particle_processor hd (handler_state s)
           (available_nodes_local_id s) num_available_particles;
       events :=
         events s
         ++ [ParticleProcessor (available_nodes_local_id s)
               (num_available_nodes s) num_available_particles];
       accesses :=
         accesses s ++ [ArrayLoad available_nodes_local_id_array (Z.shiftr last 1)] |}
  else s.

Definition query_start : state H :=
  {| num_available_nodes := 1;
     available_nodes_local_id :=
       array_set (repeat 0 (Z.to_nat Max_selected_nodes)) 0 0;
     handler_state := at_query_init hd;
     events := [QueryInit];
     accesses := [ArrayStore available_nodes_local_id_array 0] |}.

(** The state when the level loop is left. *)
Definition after_levels : state H := level_loop node_levels query_start.

(** One query of the kernel, from at_query_init to at_query_exit. *)
Definition query : state H :=
  let s := particle_pass after_levels in
  {| num_available_nodes := num_available_nodes s;
     available_nodes_local_id := available_nodes_local_id s;
     handler_state := at_query_exit hd (handler_state s);
     events := events s ++ [QueryExit];
     accesses := accesses s |}.

End Query.

End BreadthFirst.

(** ** Handlers used to exercise the engines *)

(** A handler without private state whose decisions are functions of the
    candidate alone: of the node key for nodes, of the index for particles.
    In the breadth-first engine candidate [id] of a level is the node that
    bfs_load_node(id) yields; the batched node selector goes through the
    candidates 0 .. available_children-1 it is offered and selects those whose
    node the predicate accepts. *)
Definition stateless_handler
  (node_pred : binary_tree_key_t -> bool) (particle_pred : Z -> bool)
  : handler unit :=
  {| at_query_init := tt;
     at_query_exit := fun h => h;
     dfs_node_selector := fun h node _ => (node_pred node, h);
     dfs_unique_node_discard_event := fun h _ => h;
     dfs_particle_processor := fun h idx => (particle_pred idx, h);
     bfs_node_selector :=
       fun h lvl working_set available_children =>
         (fun id =>
            (0 <=? id) && (id <? available_children)
            && node_pred
                 {| level := lvl;
                    local_node_id :=
                      BreadthFirst.get_lnid_from_available_children_index
                        working_set id |},
          h);
     bfs_particle_processor := fun h _ _ => h |}.

(** The handler that selects every node and every particle. *)
Definition select_all : handler unit :=
  stateless_handler (fun _ => true) (fun _ => true).

(** The handler that selects nothing. *)
Definition select_none : handler unit :=
  stateless_handler (fun _ => false) (fun _ => false).

(** The batched node selector keeps to its offer at the levels up to
    [last_level]: there it selects no candidate index outside
    0 .. available_children-1. *)
Definition selects_offered_only {H : Type} (hd : handler H) (last_level : Z)
  : Prop :=
  forall (h : H) (level : Z) (working_set : list Z) (available_children id : Z),
    level <= last_level ->
    fst (bfs_node_selector hd h level working_set available_children) id = true ->
    0 <= id < available_children.

(** A breadth-first handler that does not keep to its offer: at every level
    it selects the candidate indices 0, 1 and 3, whatever the number of
    candidates it is handed. *)
Definition select_beyond_offer : handler unit :=
  {| at_query_init := tt;
     at_query_exit := fun h => h;
     dfs_node_selector := fun h _ _ => (true, h);
     dfs_unique_node_discard_event := fun h _ => h;
     dfs_particle_processor := fun h _ => (true, h);
     bfs_node_selector :=
       fun h _ _ _ => (fun id => (id =? 0) || (id =? 1) || (id =? 3), h);
     bfs_particle_processor := fun h _ _ => h |}.

(** No access of a breadth-first run to its two candidate arrays is out of
    range; the source then runs as the model does, without undefined
    behaviour. *)
Definition accesses_in_bounds {H : Type} (capacity : Z)
  (s : BreadthFirst.state H) : bool :=
  forallb (BreadthFirst.in_bounds capacity) (BreadthFirst.accesses s).

(** ** A handler that records its own calls

    [recording hd] decides as [hd] does and keeps, next to the state of
    [hd], the list of the calls the engine made to it, in order.  What the
    engine really calls, and how often, can be read off the handler state a
    query returns. *)
Inductive call : Type :=
| CallQueryInit
| CallQueryExit
| CallDfsNodeSelector (node : binary_tree_key_t) (idx : Z)
| CallDfsDiscard (idx : Z)
| CallDfsParticleProcessor (idx : Z)
| CallBfsNodeSelector (level : Z) (working_set : list Z)
    (available_children : Z)
| CallBfsParticleProcessor (working_set : list Z)
    (num_available_particles : Z).

Definition recording {H : Type} (hd : handler H) : handler (H * list call) :=
  {| at_query_init := (at_query_init hd, [CallQueryInit]);
     at_query_exit :=
       fun h => (at_query_exit hd (fst h), snd h ++ [CallQueryExit]);
     dfs_node_selector :=
       fun h node idx =>
         (fst (dfs_node_selector hd (fst h) node idx),
          (snd (dfs_node_selector hd (fst h) node idx),
           snd h ++ [CallDfsNodeSelector node idx]));
     dfs_unique_node_discard_event :=
       fun h idx =>
         (dfs_unique_node_discard_event hd (fst h) idx,
          snd h ++ [CallDfsDiscard idx]);
     dfs_particle_processor :=
       fun h idx =>
         (fst (dfs_particle_processor hd (fst h) idx),
          (snd (dfs_particle_processor hd (fst h) idx),
           snd h ++ [CallDfsParticleProcessor idx]));
     bfs_node_selector :=
       fun h level working_set available_children =>
         (fst (bfs_node_selector hd (fst h) level working_set available_children),
          (snd (bfs_node_selector hd (fst h) level working_set
                  available_children),
           snd h ++ [CallBfsNodeSelector level working_set available_children]));
     bfs_particle_processor :=
       fun h working_set num_available_particles =>
         (bfs_particle_processor hd (fst h) working_set num_available_particles,
          snd h
          ++ [CallBfsParticleProcessor working_set num_available_particles]) |}.

(** The call a breadth-first event stands for. *)
Definition call_of_event (e : BreadthFirst.event) : call :=
  match e with
  | BreadthFirst.QueryInit => CallQueryInit
  | BreadthFirst.NodeSelector level working_set _ available_children =>
      CallBfsNodeSelector level working_set available_children
  | BreadthFirst.ParticleProcessor working_set _ num_available_particles =>
      CallBfsParticleProcessor working_set num_available_particles
  | BreadthFirst.QueryExit => CallQueryExit
  end.

(** The particles a breadth-first run offers to the particle processor. *)
Fixpoint offered_particles (es : list BreadthFirst.event) : list Z :=
  match es with
  | [] => []
  | BreadthFirst.ParticleProcessor working_set _ count :: t =>
      map (BreadthFirst.get_lnid_from_available_children_index working_set)
          (zrange count)
      ++ offered_particles t
  | _ :: t => offered_particles t
  end.

(** * Properties *)

(** ** Sample runs

    With the handler that selects everything both engines visit the particles
    0..N-1, each once, also when N is not a power of two. *)

Example dfs_select_all_five :
  option_map (fun s => DepthFirst.visited_particles (DepthFirst.events s))
    (DepthFirst.query select_all DepthFirst.HIERARCHICAL_ITERATION_STRICT
       5 8 4 40)
  = Some [0; 1; 2; 3; 4].
Proof. reflexivity. Qed.

Example dfs_select_all_six_relaxed :
  option_map (fun s => DepthFirst.visited_particles (DepthFirst.events s))
    (DepthFirst.query select_all DepthFirst.HIERARCHICAL_ITERATION_RELAXED
       6 8 4 40)
  = Some [0; 1; 2; 3; 4; 5].
Proof. reflexivity. Qed.

Example bfs_select_all_five :
  offered_particles (BreadthFirst.events (BreadthFirst.query select_all 4 5 4))
  = [0; 1; 2; 3; 4].
Proof. reflexivity. Qed.

Example bfs_select_all_six :
  BreadthFirst.events (BreadthFirst.query select_all 4 6 4)
  = [BreadthFirst.QueryInit;
     BreadthFirst.NodeSelector 1 [0; 0; 0; 0] 1 2;
     BreadthFirst.NodeSelector 2 [0; 1; 0; 0] 2 3;
     BreadthFirst.ParticleProcessor [0; 1; 2; 0] 3 6;
     BreadthFirst.QueryExit].
Proof. reflexivity. Qed.

(** The strict strategy climbs to the first ancestor that is a left child;
    the relaxed one stops at the parent. *)
Example next_parent_of_particle_3 :
  DepthFirst.NEXT_PARENT DepthFirst.HIERARCHICAL_ITERATION_STRICT (mk_key 3 3)
  = mk_key 1 0 /\
  DepthFirst.NEXT_PARENT DepthFirst.HIERARCHICAL_ITERATION_RELAXED (mk_key 3 3)
  = mk_key 2 1.
Proof. split; reflexivity. Qed.

(** ** Arithmetic of the padded tree *)

Lemma wrap64_small (x : Z) : 0 <= x < 2 ^ 64 -> wrap64 x = x.
Proof. intros Hx. unfold wrap64. apply Z.mod_small. exact Hx. Qed.

Lemma wrap32_small (x : Z) : 0 <= x < 2 ^ 32 -> wrap32 x = x.
Proof. intros Hx. unfold wrap32. apply Z.mod_small. exact Hx. Qed.

Lemma leaves_per_node_pos (lvl levels : Z) :
  lvl <= levels - 1 -> 0 < BT_LEAVES_PER_NODE lvl levels.
Proof.
  intros Hl. unfold BT_LEAVES_PER_NODE. apply Z.pow_pos_nonneg; lia.
Qed.

Lemma leaves_per_node_nonneg (lvl levels : Z) :
  0 <= BT_LEAVES_PER_NODE lvl levels.
Proof. unfold BT_LEAVES_PER_NODE. apply Z.pow_nonneg. lia. Qed.

Lemma leaves_per_node_double (lvl levels : Z) :
  lvl < levels - 1 ->
  BT_LEAVES_PER_NODE lvl levels = 2 * BT_LEAVES_PER_NODE (lvl + 1) levels.
Proof.
  intros Hl. unfold BT_LEAVES_PER_NODE.
  replace (levels - 1 - lvl) with (Z.succ (levels - 1 - (lvl + 1))) by lia.
  apply Z.pow_succ_r. lia.
Qed.

Lemma leaves_per_node_parent (lvl levels : Z) :
  lvl <= levels - 1 ->
  BT_LEAVES_PER_NODE (lvl - 1) levels = 2 * BT_LEAVES_PER_NODE lvl levels.
Proof.
  intros Hl. rewrite (leaves_per_node_double (lvl - 1)) by lia.
  replace (lvl - 1 + 1) with lvl by lia. reflexivity.
Qed.

Lemma leaves_per_node_particle (levels : Z) :
  BT_LEAVES_PER_NODE (levels - 1) levels = 1.
Proof.
  unfold BT_LEAVES_PER_NODE. replace (levels - 1 - (levels - 1)) with 0 by lia.
  reflexivity.
Qed.

(** Level [lvl] has [2^lvl] node slots, each covering [leaves_per_node]
    particle slots: together the padded particle count. *)
Lemma level_width (lvl levels : Z) :
  0 <= lvl <= levels - 1 ->
  2 ^ lvl * BT_LEAVES_PER_NODE lvl levels = 2 ^ (levels - 1).
Proof.
  intros Hl. unfold BT_LEAVES_PER_NODE.
  rewrite <- Z.pow_add_r by lia. f_equal. lia.
Qed.

Lemma pow2_le_63 (levels lvl : Z) :
  1 <= levels <= 64 -> 0 <= lvl <= levels - 1 -> 2 ^ lvl <= 2 ^ 63.
Proof. intros HL Hl. apply Z.pow_le_mono_r; lia. Qed.

Lemma odd_half (i : Z) : Z.odd i = true -> i = 2 * (i / 2) + 1.
Proof.
  intros Ho. rewrite (Z.div_mod i 2) at 1 by lia.
  rewrite Zmod_odd, Ho. reflexivity.
Qed.

Lemma even_half (i : Z) : Z.odd i = false -> i = 2 * (i / 2).
Proof.
  intros Ho. rewrite (Z.div_mod i 2) at 1 by lia.
  rewrite Zmod_odd, Ho. lia.
Qed.

Lemma children_begin_leftmost (node : binary_tree_key_t) (levels : Z) :
  level node < levels - 1 ->
  leftmost_leaf (binary_tree_get_children_begin node) levels
  = leftmost_leaf node levels.
Proof.
  intros Hl. unfold leftmost_leaf, binary_tree_get_children_begin. simpl.
  rewrite (leaves_per_node_double (level node)) by lia. lia.
Qed.

Lemma children_last_leftmost (node : binary_tree_key_t) (levels : Z) :
  level node < levels - 1 ->
  leftmost_leaf (binary_tree_get_children_last node) levels
  = leftmost_leaf node levels + BT_LEAVES_PER_NODE (level node + 1) levels.
Proof.
  intros Hl. unfold leftmost_leaf, binary_tree_get_children_last. simpl.
  rewrite (leaves_per_node_double (level node)) by lia. lia.
Qed.

(** A child inside the tree starts at or after its parent's leftmost leaf. *)
Lemma child_leftmost_le (a b : binary_tree_key_t) (levels : Z) :
  child a b -> level b <= levels - 1 ->
  leftmost_leaf a levels <= leftmost_leaf b levels.
Proof.
  intros [-> | ->] Hb; simpl in Hb.
  - rewrite children_begin_leftmost by lia. lia.
  - rewrite children_last_leftmost by lia.
    pose proof (leaves_per_node_nonneg (level a + 1) levels). lia.
Qed.

Lemma child_level (a b : binary_tree_key_t) : child a b -> level b = level a + 1.
Proof. intros [-> | ->]; reflexivity. Qed.

Lemma descendant_level (a b : binary_tree_key_t) :
  descendant a b -> level a < level b.
Proof.
  induction 1 as [b Hc | b c Hd IH Hc]; apply child_level in Hc; lia.
Qed.

Lemma descendant_leftmost_le (a b : binary_tree_key_t) (levels : Z) :
  descendant a b -> level b <= levels - 1 ->
  leftmost_leaf a levels <= leftmost_leaf b levels.
Proof.
  induction 1 as [b Hc | b c Hd IH Hc]; intros Hl.
  - apply child_leftmost_le; assumption.
  - pose proof (child_level _ _ Hc) as Hlc.
    pose proof (child_leftmost_le _ _ levels Hc Hl).
    assert (level b <= levels - 1) by lia. specialize (IH H0). lia.
Qed.

(** ** Addressing *)

(** C8: going to either child and back to the parent returns the node one
    started from, at every level (so in particular at every level >= 1) and
    for every local id: parent(children_begin(node)) = node and
    parent(children_last(node)) = node. *)
Theorem parent_of_children_round_trip (node : binary_tree_key_t) :
  binary_tree_get_parent (binary_tree_get_children_begin node) = node /\
  binary_tree_get_parent (binary_tree_get_children_last node) = node.
Proof.
  destruct node as [l i].
  unfold binary_tree_get_parent, binary_tree_get_children_begin,
    binary_tree_get_children_last; simpl.
  split; f_equal; try lia.
  - apply Z.div_mul. lia.
  - symmetry. apply Z.div_unique with (r := 1); lia.
Qed.

(** C9: is_node_used is monotone.  When a node is unused, every node of the
    same level with a larger local id is unused, and so is every descendant
    of it in the tree (down to the particle level, levels-1). *)
Theorem is_node_used_monotone (levels num_particles : Z)
  (node : binary_tree_key_t) :
  binary_tree_is_node_used node levels num_particles = false ->
  (forall right : binary_tree_key_t,
      level right = level node ->
      local_node_id node < local_node_id right ->
      binary_tree_is_node_used right levels num_particles = false) /\
  (forall below : binary_tree_key_t,
      descendant node below ->
      level below <= levels - 1 ->
      binary_tree_is_node_used below levels num_particles = false).
Proof.
  unfold binary_tree_is_node_used. intros Hu. apply Z.ltb_ge in Hu. split.
  - intros right Hl Hi. apply Z.ltb_ge.
    unfold leftmost_leaf in *. rewrite Hl.
    pose proof (leaves_per_node_nonneg (level node) levels). nia.
  - intros below Hd Hl. apply Z.ltb_ge.
    pose proof (descendant_leftmost_le _ _ levels Hd Hl). lia.
Qed.

Lemma is_node_used_monotone_witness :
  binary_tree_is_node_used (mk_key 2 3) 4 6 = false /\
  binary_tree_is_node_used (mk_key 2 5) 4 6 = false /\
  binary_tree_is_node_used (mk_key 3 7) 4 6 = false.
Proof.
  destruct (is_node_used_monotone 4 6 (mk_key 2 3) eq_refl) as [Hright Hbelow].
  split; [reflexivity |]. split.
  - apply Hright; simpl; [reflexivity | lia].
  - apply Hbelow.
    + apply descendant_child. right. reflexivity.
    + simpl. lia.
Defined.

(** The padded counts the spec prescribes make a well-formed tree. *)
Lemma effective_counts_wf (num_particles : Z) :
  1 <= num_particles <= 2 ^ 63 ->
  tree_wf num_particles (effective_num_particles num_particles)
    (effective_num_levels num_particles).
Proof.
  intros HN. unfold tree_wf, effective_num_particles, effective_num_levels.
  pose proof (Z.log2_up_nonneg num_particles) as H0.
  assert (Z.log2_up num_particles <= 63) as H63.
  { replace 63 with (Z.log2_up (2 ^ 63)) by reflexivity.
    apply Z.log2_up_le_mono. lia. }
  split; [lia |]. split; [reflexivity |].
  replace (Z.log2_up num_particles + 1 - 1) with (Z.log2_up num_particles)
    by lia.
  split; [lia |].
  destruct (Z.eq_dec num_particles 1) as [-> | Hne]; [simpl; lia |].
  apply Z.log2_up_spec. lia.
Qed.

(** ** Depth-first engine: backtracking *)

Module DepthFirstFacts.
Import DepthFirst.

(** The cursor is a node slot of the tree, or the slot one past the right end
    of its level. *)
Definition cursor_ok (levels : Z) (node : binary_tree_key_t) : Prop :=
  0 <= level node <= levels - 1 /\
  0 <= local_node_id node <= 2 ^ level node.

(** A node slot of the tree proper. *)
Definition node_ok (levels : Z) (node : binary_tree_key_t) : Prop :=
  0 <= level node <= levels - 1 /\
  0 <= local_node_id node < 2 ^ level node.

Lemma next_local_node_id_ok (levels : Z) (node : binary_tree_key_t) :
  1 <= levels <= 64 -> node_ok levels node ->
  cursor_ok levels (next_local_node_id node) /\
  leftmost_leaf (next_local_node_id node) levels
  = leftmost_leaf node levels + BT_LEAVES_PER_NODE (level node) levels.
Proof.
  intros HL [Hl Hi].
  pose proof (pow2_le_63 levels (level node) HL Hl) as Hp.
  unfold next_local_node_id, cursor_ok, leftmost_leaf; simpl.
  rewrite wrap64_small by lia.
  split; [lia | ring].
Qed.

(** The loop of find_first_left_parent leaves through its condition when the
    fuel covers the bits of the local id; it stays inside the tree and keeps
    the right edge of the subtree. *)
Lemma find_first_left_parent_loop_spec (levels : Z) (fuel : nat) :
  forall result : binary_tree_key_t,
    node_ok levels result ->
    local_node_id result < 2 ^ Z.of_nat fuel ->
    let r := find_first_left_parent_loop fuel result in
    binary_tree_is_right_child r = false /\
    node_ok levels r /\ level r <= level result /\
    (local_node_id r + 1) * BT_LEAVES_PER_NODE (level r) levels
    = (local_node_id result + 1) * BT_LEAVES_PER_NODE (level result) levels.
Proof.
  induction fuel as [| fuel IH]; intros result Hok Hlt; simpl.
  - destruct Hok as [Hl Hi]. simpl in Hlt.
    assert (local_node_id result = 0) as Hz by lia.
    unfold binary_tree_is_right_child. rewrite Hz. simpl.
    split; [reflexivity |]. split; [split; lia |]. split; [lia | reflexivity].
  - destruct (binary_tree_is_right_child result) eqn:Hr.
    + unfold binary_tree_is_right_child in Hr.
      pose proof (odd_half _ Hr) as Hodd.
      destruct Hok as [Hl Hi].
      assert (1 <= level result) as Hl1.
      { destruct (Z.eq_dec (level result) 0) as [E | E]; [| lia].
        rewrite E in Hi. simpl in Hi. lia. }
      assert (2 ^ level result = 2 * 2 ^ (level result - 1)) as Hpow.
      { replace (level result) with (Z.succ (level result - 1)) at 1 by lia.
        apply Z.pow_succ_r. lia. }
      assert (node_ok levels (binary_tree_get_parent result)) as Hok'.
      { unfold node_ok, binary_tree_get_parent; simpl. split; lia. }
      assert (local_node_id (binary_tree_get_parent result) < 2 ^ Z.of_nat fuel)
        as Hlt'.
      { unfold binary_tree_get_parent; simpl.
        rewrite Nat2Z.inj_succ, Z.pow_succ_r in Hlt by lia. lia. }
      destruct (IH _ Hok' Hlt') as (Ha & Hb & Hc & Hd).
      split; [exact Ha |]. split; [exact Hb |]. split.
      * simpl in Hc. lia.
      * rewrite Hd. unfold binary_tree_get_parent; simpl.
        rewrite (leaves_per_node_parent (level result)) by lia.
        rewrite Hodd at 2. ring.
    + split; [exact Hr |]. split; [exact Hok |]. split; [lia | reflexivity].
Qed.

Lemma bit_length_covers (x : Z) : 0 <= x -> x < 2 ^ Z.of_nat (bit_length x).
Proof.
  intros Hx. unfold bit_length.
  rewrite Z2Nat.id by (pose proof (Z.log2_nonneg x); lia).
  destruct (Z.eq_dec x 0) as [-> | Hne]; [reflexivity |].
  replace (Z.log2 x + 1) with (Z.succ (Z.log2 x)) by lia.
  apply Z.log2_spec. lia.
Qed.

(** Backtracking from a right child: under either strategy the cursor lands
    in the tree on the slot whose leftmost leaf directly follows the subtree
    just left. *)
Lemma next_parent_ok (levels : Z) (strategy : depth_first_iteration_strategy)
  (node : binary_tree_key_t) :
  1 <= levels <= 64 -> node_ok levels node ->
  binary_tree_is_right_child node = true ->
  let node' := next_local_node_id (NEXT_PARENT strategy node) in
  cursor_ok levels node' /\ level node' < level node /\
  leftmost_leaf node' levels
  = leftmost_leaf node levels + BT_LEAVES_PER_NODE (level node) levels.
Proof.
  intros HL [Hl Hi] Hr.
  unfold binary_tree_is_right_child in Hr.
  pose proof (odd_half _ Hr) as Hodd.
  assert (1 <= level node) as Hl1.
  { destruct (Z.eq_dec (level node) 0) as [E | E]; [| lia].
    rewrite E in Hi. simpl in Hi. lia. }
  assert (2 ^ level node = 2 * 2 ^ (level node - 1)) as Hpow.
  { replace (level node) with (Z.succ (level node - 1)) at 1 by lia.
    apply Z.pow_succ_r. lia. }
  assert (node_ok levels (binary_tree_get_parent node)) as Hpok.
  { unfold node_ok, binary_tree_get_parent; simpl. split; lia. }
  assert ((local_node_id (binary_tree_get_parent node) + 1)
          * BT_LEAVES_PER_NODE (level (binary_tree_get_parent node)) levels
          = leftmost_leaf node levels + BT_LEAVES_PER_NODE (level node) levels)
    as Hedge.
  { unfold binary_tree_get_parent, leftmost_leaf; simpl.
    rewrite (leaves_per_node_parent (level node)) by lia.
    rewrite Hodd at 2. ring. }
  destruct strategy; simpl.
  - unfold find_first_left_parent.
    destruct (find_first_left_parent_loop_spec levels
                (bit_length (local_node_id (binary_tree_get_parent node)))
                (binary_tree_get_parent node) Hpok)
      as (Ha & Hb & Hc & Hd).
    { apply bit_length_covers. apply Hpok. }
    destruct (next_local_node_id_ok levels _ HL Hb) as [Hn1 Hn2].
    split; [exact Hn1 |]. split.
    + simpl. simpl in Hc. lia.
    + rewrite Hn2. rewrite <- Hedge, <- Hd. unfold leftmost_leaf. ring.
  - destruct (next_local_node_id_ok levels _ HL Hpok) as [Hn1 Hn2].
    split; [exact Hn1 |]. split.
    + simpl. lia.
    + rewrite Hn2. rewrite <- Hedge. unfold leftmost_leaf. ring.
Qed.

(** The step taken after a rejection (and at the particle level after an
    acceptance as well): the right sibling for a left child, the backtracking
    target for a right child. *)
Lemma advance_ok (levels : Z) (strategy : depth_first_iteration_strategy)
  (node : binary_tree_key_t) :
  1 <= levels <= 64 -> node_ok levels node ->
  let node' :=
    if binary_tree_is_right_child node
    then next_local_node_id (NEXT_PARENT strategy node)
    else next_local_node_id node in
  cursor_ok levels node' /\ level node' <= level node /\
  leftmost_leaf node' levels
  = leftmost_leaf node levels + BT_LEAVES_PER_NODE (level node) levels.
Proof.
  intros HL Hok. destruct (binary_tree_is_right_child node) eqn:Hr.
  - destruct (next_parent_ok levels strategy node HL Hok Hr) as (A & B & C).
    split; [exact A |]. split; [lia | exact C].
  - destruct (next_local_node_id_ok levels node HL Hok) as [A B].
    split; [exact A |]. split; [simpl; lia | exact B].
Qed.

(** After a rejection at a right child the two strategies resume at slots
    with the same leftmost leaf: the relaxed target is the leftmost descendant,
    one level above the rejected node, of the strict target. *)
Lemma backtracking_targets_agree (levels : Z) (node : binary_tree_key_t) :
  1 <= levels <= 64 -> node_ok levels node ->
  binary_tree_is_right_child node = true ->
  leftmost_leaf
    (next_local_node_id (NEXT_PARENT HIERARCHICAL_ITERATION_STRICT node)) levels
  = leftmost_leaf
      (next_local_node_id (NEXT_PARENT HIERARCHICAL_ITERATION_RELAXED node))
      levels.
Proof.
  intros HL Hok Hr.
  destruct (next_parent_ok levels HIERARCHICAL_ITERATION_STRICT node HL Hok Hr)
    as (_ & _ & Es).
  destruct (next_parent_ok levels HIERARCHICAL_ITERATION_RELAXED node HL Hok Hr)
    as (_ & _ & Er).
  rewrite Es, Er. reflexivity.
Qed.

End DepthFirstFacts.

(** ** Depth-first engine: the query loop *)

Module DepthFirstLoop.
Import DepthFirst DepthFirstFacts.

Lemma cursor_leftmost_bound (levels : Z) (node : binary_tree_key_t) :
  cursor_ok levels node ->
  0 <= leftmost_leaf node levels <= 2 ^ (levels - 1).
Proof.
  intros [Hl Hi]. rewrite <- (level_width (level node) levels) by lia.
  unfold leftmost_leaf.
  pose proof (leaves_per_node_pos (level node) levels ltac:(lia)). nia.
Qed.

Lemma cursor_before_end (levels : Z) (node : binary_tree_key_t) :
  cursor_ok levels node -> leftmost_leaf node levels < 2 ^ (levels - 1) ->
  node_ok levels node.
Proof.
  intros [Hl Hi] Hlt. rewrite <- (level_width (level node) levels) in Hlt by lia.
  unfold leftmost_leaf in Hlt.
  pose proof (leaves_per_node_pos (level node) levels ltac:(lia)).
  split; [lia | nia].
Qed.

Section Loop.

Context {H : Type}.
Variable hd : handler H.
Variable strategy : depth_first_iteration_strategy.
Variables num_particles effective_num_particles effective_num_levels : Z.
Hypothesis Hwf : tree_wf num_particles effective_num_particles effective_num_levels.

Abbreviation step :=
  (query_step hd strategy effective_num_particles effective_num_levels).
Abbreviation loop :=
  (query_loop hd strategy num_particles effective_num_particles
     effective_num_levels).
Abbreviation node_idx_of node :=
  (load_node node effective_num_levels effective_num_particles).

(** The loop invariant: the cursor is a slot of the tree and the counter is
    the index of the leftmost leaf below the cursor. *)
Definition cursor_inv (s : state H) : Prop :=
  cursor_ok effective_num_levels (current_node s) /\
  num_covered_particles s = leftmost_leaf (current_node s) effective_num_levels.

(** The three kinds of loop iteration and what each does to the counter,
    the cursor and the event list. *)
Inductive iteration (s s' : state H) : Prop :=
| particle_iteration :
    level (current_node s) = effective_num_levels - 1 ->
    num_covered_particles s' = num_covered_particles s + 1 ->
    level (current_node s') <= level (current_node s) ->
    events s'
    = events s
      ++ [ParticleVisit (local_node_id (current_node s))
            (fst (dfs_particle_processor hd (handler_state s)
                    (local_node_id (current_node s))))] ->
    iteration s s'
| descent_iteration :
    level (current_node s) < effective_num_levels - 1 ->
    fst (dfs_node_selector hd (handler_state s) (current_node s)
           (node_idx_of (current_node s))) = true ->
    num_covered_particles s' = num_covered_particles s ->
    current_node s' = binary_tree_get_children_begin (current_node s) ->
    events s'
    = events s
      ++ [NodeVisit (current_node s) (node_idx_of (current_node s)) true] ->
    iteration s s'
| pruned_iteration :
    level (current_node s) < effective_num_levels - 1 ->
    fst (dfs_node_selector hd (handler_state s) (current_node s)
           (node_idx_of (current_node s))) = false ->
    num_covered_particles s'
    = num_covered_particles s
      + BT_LEAVES_PER_NODE (level (current_node s)) effective_num_levels ->
    level (current_node s') <= level (current_node s) ->
    events s'
    = events s
      ++ [NodeVisit (current_node s) (node_idx_of (current_node s)) false;
          NodeDiscard (node_idx_of (current_node s))] ->
    iteration s s'.

Lemma levels_minus_one : wrap64 (effective_num_levels - 1) = effective_num_levels - 1.
Proof.
  destruct Hwf as (HL & _). apply wrap64_small. lia.
Qed.

Lemma padded_count_fits : effective_num_particles <= 2 ^ 63.
Proof.
  destruct Hwf as (HL & -> & _). apply Z.pow_le_mono_r; lia.
Qed.

(** One turn of the loop keeps the invariant and is one of the three kinds. *)
Lemma query_step_spec (s : state H) :
  cursor_inv s -> num_covered_particles s < num_particles ->
  cursor_inv (step s) /\ iteration s (step s).
Proof.
  intros [Hc Hcov] Hguard.
  pose proof padded_count_fits as Hfit.
  destruct Hwf as (HL & Heff & HN).
  assert (node_ok effective_num_levels (current_node s)) as Hok.
  { apply cursor_before_end; [exact Hc |]. rewrite <- Hcov, <- Heff. lia. }
  pose proof (advance_ok effective_num_levels strategy (current_node s) HL Hok)
    as (Ha & Hb & Hd).
  pose proof (next_local_node_id_ok effective_num_levels (current_node s) HL Hok)
    as (Hn1 & Hn2).
  pose proof (cursor_leftmost_bound _ _ Ha) as Hbound.
  rewrite <- Heff in Hbound.
  unfold query_step. rewrite levels_minus_one.
  destruct (level (current_node s) =? effective_num_levels - 1) eqn:Hlvl.
  - apply Z.eqb_eq in Hlvl.
    rewrite Hlvl, leaves_per_node_particle in Hd, Hn2.
    unfold QUERY_PARTICLE_LEVEL, load_particle.
    destruct (dfs_particle_processor hd (handler_state s)
                (local_node_id (current_node s))) as [sel h1] eqn:Hsel.
    assert (wrap64 (num_covered_particles s + 1) = num_covered_particles s + 1)
      as Hw.
    { apply wrap64_small. lia. }
    destruct sel; simpl; rewrite Hw.
    + split; [split; [exact Hn1 | simpl; lia] |].
      apply particle_iteration; simpl; try lia. rewrite Hsel. reflexivity.
    + split; [split; [exact Ha | simpl; lia] |].
      apply particle_iteration; simpl; try lia. rewrite Hsel. reflexivity.
  - apply Z.eqb_neq in Hlvl.
    assert (level (current_node s) < effective_num_levels - 1) as Hlt
      by (destruct Hok; lia).
    unfold QUERY_NODE_LEVEL.
    destruct (dfs_node_selector hd (handler_state s) (current_node s)
                (node_idx_of (current_node s))) as [sel h1] eqn:Hsel.
    destruct sel; simpl.
    + split.
      * split; simpl.
        -- destruct Hok as [Hl Hi]. unfold cursor_ok; simpl.
           assert (2 ^ (level (current_node s) + 1)
                   = 2 * 2 ^ level (current_node s)) as Hp.
           { replace (level (current_node s) + 1)
               with (Z.succ (level (current_node s))) by lia.
             apply Z.pow_succ_r. lia. }
           lia.
        -- rewrite children_begin_leftmost by lia. exact Hcov.
      * apply descent_iteration; simpl; try rewrite Hsel; try reflexivity;
          try lia.
    + assert (wrap64 (num_covered_particles s
                      + BT_LEAVES_PER_NODE (level (current_node s))
                          effective_num_levels)
              = num_covered_particles s
                + BT_LEAVES_PER_NODE (level (current_node s))
                    effective_num_levels) as Hw.
      { apply wrap64_small.
        pose proof (leaves_per_node_nonneg (level (current_node s))
                      effective_num_levels). lia. }
      rewrite Hw. split.
      * split; simpl; [exact Ha | lia].
      * apply pruned_iteration; simpl; try rewrite Hsel; try reflexivity;
          try lia.
Qed.

(** Every kind of iteration moves forward: the counter grows, or it stays
    and the cursor goes one level down. *)
Definition remaining (s : state H) : Z :=
  (effective_num_particles - num_covered_particles s) * effective_num_levels
  + (effective_num_levels - 1 - level (current_node s)).

Lemma iteration_decreases (s s' : state H) :
  cursor_inv s -> cursor_inv s' -> iteration s s' ->
  0 <= remaining s' < remaining s.
Proof.
  intros [Hc Hcov] [Hc' Hcov'] Hit.
  destruct Hwf as (HL & Heff & HN).
  pose proof (cursor_leftmost_bound _ _ Hc') as Hb'.
  rewrite <- Hcov', <- Heff in Hb'.
  destruct Hc as [Hl Hi]. destruct Hc' as [Hl' Hi'].
  unfold remaining.
  destruct Hit as [E1 E2 E3 _ | E1 _ E2 E3 _ | E1 _ E2 E3 _].
  - rewrite E2 in *. nia.
  - rewrite E2, E3 in *. simpl. simpl in Hl'. nia.
  - pose proof (leaves_per_node_pos (level (current_node s))
                  effective_num_levels ltac:(lia)).
    rewrite E2 in *. nia.
Qed.

(** A property kept by every turn of the loop holds when the loop is left. *)
Lemma query_loop_invariant (P : state H -> Prop) :
  (forall s, cursor_inv s -> P s -> num_covered_particles s < num_particles ->
             P (step s)) ->
  forall (fuel : nat) (s s' : state H),
    cursor_inv s -> P s -> loop fuel s = Some s' ->
    cursor_inv s' /\ P s' /\ num_particles <= num_covered_particles s'.
Proof.
  intros Hstep. induction fuel as [| fuel IH]; intros s s' Hinv HP Hrun;
    simpl in Hrun;
    destruct (num_covered_particles s <? num_particles) eqn:Hg;
    try discriminate.
  - injection Hrun as <-. apply Z.ltb_ge in Hg. auto.
  - apply Z.ltb_lt in Hg. apply (IH (step s) s'); try assumption.
    + apply query_step_spec; assumption.
    + apply Hstep; assumption.
  - injection Hrun as <-. apply Z.ltb_ge in Hg. auto.
Qed.

(** The loop is left after at most [remaining] turns. *)
Lemma query_loop_terminates (fuel : nat) :
  forall s : state H,
    cursor_inv s -> remaining s < Z.of_nat fuel ->
    exists s', loop fuel s = Some s'.
Proof.
  induction fuel as [| fuel IH]; intros s Hinv Hrem; simpl;
    destruct (num_covered_particles s <? num_particles) eqn:Hg;
    try (eexists; reflexivity).
  - apply Z.ltb_lt in Hg.
    destruct (query_step_spec s Hinv Hg) as [Hinv' Hit].
    pose proof (iteration_decreases s _ Hinv Hinv' Hit). lia.
  - apply Z.ltb_lt in Hg.
    destruct (query_step_spec s Hinv Hg) as [Hinv' Hit].
    pose proof (iteration_decreases s _ Hinv Hinv' Hit).
    apply IH; [exact Hinv' | lia].
Qed.

(** More fuel does not change the outcome. *)
Lemma query_loop_more_fuel (fuel : nat) :
  forall (s s' : state H) (fuel' : nat),
    loop fuel s = Some s' -> (fuel <= fuel')%nat -> loop fuel' s = Some s'.
Proof.
  induction fuel as [| fuel IH]; intros s s' fuel' Hrun Hle; simpl in Hrun;
    destruct (num_covered_particles s <? num_particles) eqn:Hg;
    try discriminate.
  - destruct fuel'; simpl; rewrite Hg; exact Hrun.
  - destruct fuel' as [| fuel']; [lia |]. simpl. rewrite Hg.
    apply (IH _ _ _ Hrun). lia.
  - destruct fuel'; simpl; rewrite Hg; exact Hrun.
Qed.

Lemma query_start_inv : cursor_inv (query_start hd).
Proof.
  destruct Hwf as (HL & _).
  unfold cursor_inv, cursor_ok, query_start, leftmost_leaf; simpl.
  split; [split; lia | reflexivity].
Qed.

(** Fuel that always suffices for a query: one more than [remaining] at the
    start. *)
Definition enough_fuel : nat :=
  Z.to_nat ((effective_num_particles + 1) * effective_num_levels).

Lemma query_loop_returns :
  exists s', loop enough_fuel (query_start hd) = Some s'.
Proof.
  apply query_loop_terminates; [exact query_start_inv |].
  pose proof padded_count_fits.
  destruct Hwf as (HL & Heff & HN).
  unfold enough_fuel, remaining, query_start; simpl.
  rewrite Z2Nat.id by nia. nia.
Qed.

End Loop.

End DepthFirstLoop.

(** ** Depth-first engine: coverage, visited nodes, selected particles *)

Module DepthFirstRuns.
Import DepthFirst DepthFirstFacts DepthFirstLoop.

(** The states a query passes through at the head of its while loop. *)
Inductive reachable {H : Type} (hd : handler H)
  (strategy : depth_first_iteration_strategy)
  (num_particles effective_num_particles effective_num_levels : Z)
  : state H -> Prop :=
| reachable_start :
    reachable hd strategy num_particles effective_num_particles
      effective_num_levels (query_start hd)
| reachable_step s :
    reachable hd strategy num_particles effective_num_particles
      effective_num_levels s ->
    num_covered_particles s < num_particles ->
    reachable hd strategy num_particles effective_num_particles
      effective_num_levels
      (query_step hd strategy effective_num_particles effective_num_levels s).

(** The loop of a query is left with the counter exactly at the particle
    count. *)
Definition covered_reaches_exactly {H : Type} (hd : handler H)
  (strategy : depth_first_iteration_strategy)
  (num_particles effective_num_particles effective_num_levels : Z) : Prop :=
  exists (fuel : nat) (s : state H),
    query_loop hd strategy num_particles effective_num_particles
      effective_num_levels fuel (query_start hd) = Some s /\
    num_covered_particles s = num_particles.

(** Every event of a list concerns a used node or a real particle. *)
Definition event_in_range (levels num_particles : Z) (e : event) : Prop :=
  match e with
  | NodeVisit node _ _ =>
      0 <= level node < levels - 1 /\
      binary_tree_is_node_used node levels num_particles = true
  | ParticleVisit idx _ => 0 <= idx < num_particles
  | _ => True
  end.

(** A rejected node has no accepted particle below it. *)
Definition hereditary (node_pred : binary_tree_key_t -> bool)
  (particle_pred : Z -> bool) (levels : Z) : Prop :=
  forall (node : binary_tree_key_t) (p : Z),
    node_pred node = false ->
    leftmost_leaf node levels <= p
      < leftmost_leaf node levels + BT_LEAVES_PER_NODE (level node) levels ->
    particle_pred p = false.

Definition same_elements {A : Type} (l1 l2 : list A) : Prop :=
  forall x, In x l1 <-> In x l2.

(** Both strategies return, with the same set of selected particles and the
    same set of selected nodes. *)
Definition strategies_agree {H : Type} (hd : handler H)
  (num_particles effective_num_particles effective_num_levels : Z) : Prop :=
  exists (f1 f2 : nat) (s1 s2 : state H),
    query hd HIERARCHICAL_ITERATION_STRICT num_particles
      effective_num_particles effective_num_levels f1 = Some s1 /\
    query hd HIERARCHICAL_ITERATION_RELAXED num_particles
      effective_num_particles effective_num_levels f2 = Some s2 /\
    same_elements (selected_particles (events s1))
                  (selected_particles (events s2)) /\
    same_elements (selected_nodes (events s1)) (selected_nodes (events s2)).

(** Selects every node but (1,1) and every particle but 3. *)
Definition skip_right_half : handler unit :=
  stateless_handler (fun node => negb (key_eqb node (mk_key 1 1)))
                    (fun p => negb (p =? 3)).

(** Selects every node and every particle but 3. *)
Definition skip_particle_3 : handler unit :=
  stateless_handler (fun _ => true) (fun p => negb (p =? 3)).

Lemma selected_particles_app (a b : list event) :
  selected_particles (a ++ b) = selected_particles a ++ selected_particles b.
Proof.
  induction a as [| e a IH]; [reflexivity |].
  destruct e as [| node idx sel | idx | idx [|] |]; simpl; rewrite IH;
    reflexivity.
Qed.

Lemma visited_nodes_app (a b : list event) :
  visited_nodes (a ++ b) = visited_nodes a ++ visited_nodes b.
Proof.
  induction a as [| e a IH]; [reflexivity |].
  destruct e; simpl; rewrite IH; reflexivity.
Qed.

Lemma zrange_succ (n : Z) : 0 <= n -> zrange (n + 1) = zrange n ++ [n].
Proof.
  intros Hn. unfold zrange.
  replace (Z.to_nat (n + 1)) with (S (Z.to_nat n)) by lia.
  rewrite seq_S, map_app. simpl. rewrite Z2Nat.id by lia. reflexivity.
Qed.

Lemma zrange_nonpos (n : Z) : n <= 0 -> zrange n = [].
Proof.
  intros Hn. unfold zrange. replace (Z.to_nat n) with O by lia. reflexivity.
Qed.

Lemma in_zrange (n x : Z) : In x (zrange n) <-> 0 <= x < n.
Proof.
  unfold zrange. rewrite in_map_iff. split.
  - intros (k & <- & Hk). apply in_seq in Hk. lia.
  - intros Hx. exists (Z.to_nat x). split; [lia |]. apply in_seq. lia.
Qed.

(** Extending a range by indices the predicate rejects adds nothing. *)
Lemma filter_zrange_extend (f : Z -> bool) (a : Z) (k : nat) :
  0 <= a ->
  (forall p, a <= p < a + Z.of_nat k -> f p = false) ->
  filter f (zrange (a + Z.of_nat k)) = filter f (zrange a).
Proof.
  intros Ha. induction k as [| k IH]; intros Hf.
  - f_equal. f_equal. lia.
  - replace (a + Z.of_nat (S k)) with (a + Z.of_nat k + 1) by lia.
    rewrite zrange_succ by lia. rewrite filter_app. simpl.
    rewrite (Hf (a + Z.of_nat k)) by lia. rewrite app_nil_r.
    apply IH. intros p Hp. apply Hf. lia.
Qed.

Section Runs.

Context {H : Type}.
Variable hd : handler H.
Variable strategy : depth_first_iteration_strategy.
Variables num_particles effective_num_particles effective_num_levels : Z.
Hypothesis Hwf : tree_wf num_particles effective_num_particles effective_num_levels.

Abbreviation step :=
  (query_step hd strategy effective_num_particles effective_num_levels).
Abbreviation loop :=
  (query_loop hd strategy num_particles effective_num_particles
     effective_num_levels).
Abbreviation reach :=
  (reachable hd strategy num_particles effective_num_particles
     effective_num_levels).

Lemma reachable_inv (s : state H) :
  reach s -> cursor_inv effective_num_levels s.
Proof.
  induction 1 as [| s Hr IH Hg].
  - apply query_start_inv with (1 := Hwf).
  - apply (query_step_spec hd strategy _ _ _ Hwf s IH Hg).
Qed.

Lemma loop_result_reachable (fuel : nat) (s s' : state H) :
  reach s -> loop fuel s = Some s' ->
  reach s' /\ num_particles <= num_covered_particles s' <= effective_num_particles.
Proof.
  intros Hr Hrun.
  destruct (query_loop_invariant hd strategy _ _ _ Hwf reach) with
    (fuel := fuel) (s := s) (s' := s') as (Hinv & Hr' & Hge).
  - intros s0 _ Hr0 Hg. apply reachable_step; assumption.
  - apply reachable_inv; assumption.
  - assumption.
  - assumption.
  - split; [exact Hr' |]. split; [exact Hge |].
    destruct Hinv as [Hc Hcov]. destruct Hwf as (_ & -> & _).
    rewrite Hcov. apply cursor_leftmost_bound. exact Hc.
Qed.

(** Every node handed to the selector is a used node above the particle
    level, every particle handed to the processor a real one. *)
Lemma loop_events_in_range (fuel : nat) (s s' : state H) :
  cursor_inv effective_num_levels s ->
  Forall (event_in_range effective_num_levels num_particles) (events s) ->
  loop fuel s = Some s' ->
  Forall (event_in_range effective_num_levels num_particles) (events s').
Proof.
  intros Hinv HP Hrun.
  apply (query_loop_invariant hd strategy _ _ _ Hwf
           (fun s => Forall (event_in_range effective_num_levels num_particles)
                       (events s)))
    with (fuel := fuel) (s := s); try assumption.
  clear s s' Hinv HP Hrun. intros s [Hc Hcov] HP Hg.
  assert (cursor_inv effective_num_levels s) as Hinv by (split; assumption).
  destruct (query_step_spec hd strategy _ _ _ Hwf s Hinv Hg) as [_ Hit].
  assert (binary_tree_is_node_used (current_node s) effective_num_levels
            num_particles = true) as Hused.
  { unfold binary_tree_is_node_used. apply Z.ltb_lt. lia. }
  destruct Hc as [Hl Hi].
  destruct Hit as [E1 _ _ E | E1 _ _ _ E | E1 _ _ _ E]; rewrite E;
    apply Forall_app; split; try assumption;
    repeat constructor; simpl; try lia; try assumption.
  - unfold leftmost_leaf in Hcov.
    rewrite E1, leaves_per_node_particle in Hcov. lia.
Qed.

End Runs.

End DepthFirstRuns.

(** ** Depth-first engine: the two strategies *)

Module DepthFirstStrategies.
Import DepthFirst DepthFirstFacts DepthFirstLoop DepthFirstRuns.

Section Deterministic.

Context {H : Type}.
Variable hd : handler H.
Variable strategy : depth_first_iteration_strategy.
Variables num_particles effective_num_particles effective_num_levels : Z.

(** The outcome of a query does not depend on how much fuel it was given. *)
Lemma query_fuel_irrelevant (f1 f2 : nat) (s1 s2 : state H) :
  query hd strategy num_particles effective_num_particles
    effective_num_levels f1 = Some s1 ->
  query hd strategy num_particles effective_num_particles
    effective_num_levels f2 = Some s2 ->
  s1 = s2.
Proof.
  unfold query. intros H1 H2.
  destruct (query_loop hd strategy num_particles effective_num_particles
              effective_num_levels f1 (query_start hd)) as [a |] eqn:E1;
    [| discriminate].
  destruct (query_loop hd strategy num_particles effective_num_particles
              effective_num_levels f2 (query_start hd)) as [b |] eqn:E2;
    [| discriminate].
  apply (query_loop_more_fuel hd strategy _ _ _ f1 _ _ (Nat.max f1 f2)) in E1;
    [| lia].
  apply (query_loop_more_fuel hd strategy _ _ _ f2 _ _ (Nat.max f1 f2)) in E2;
    [| lia].
  rewrite E1 in E2. injection E2 as <-.
  injection H1 as <-. injection H2 as <-. reflexivity.
Qed.

End Deterministic.

Section Hereditary.

Variable node_pred : binary_tree_key_t -> bool.
Variable particle_pred : Z -> bool.
Variable strategy : depth_first_iteration_strategy.
Variables num_particles effective_num_particles effective_num_levels : Z.
Hypothesis Hwf : tree_wf num_particles effective_num_particles effective_num_levels.
Hypothesis Hher : hereditary node_pred particle_pred effective_num_levels.

Abbreviation the_handler := (stateless_handler node_pred particle_pred).

(** The particles selected so far are the accepted ones among those the
    counter has passed. *)
Definition selected_so_far (s : state unit) : Prop :=
  selected_particles (events s)
  = filter particle_pred
      (zrange (Z.min (num_covered_particles s) num_particles)).

Lemma selected_so_far_step (s : state unit) :
  cursor_inv effective_num_levels s -> selected_so_far s ->
  num_covered_particles s < num_particles ->
  selected_so_far
    (query_step the_handler strategy effective_num_particles effective_num_levels s).
Proof.
  intros Hinv HP Hg.
  destruct (query_step_spec the_handler strategy _ _ _ Hwf s Hinv Hg) as [Hinv' Hit].
  destruct Hinv as [[Hl Hi] Hcov].
  assert (0 <= num_covered_particles s) as Hc0.
  { rewrite Hcov. unfold leftmost_leaf.
    pose proof (leaves_per_node_nonneg (level (current_node s))
                  effective_num_levels). nia. }
  unfold selected_so_far in *.
  rewrite Z.min_l in HP by lia.
  destruct Hit as [E1 E2 _ E | E1 _ E2 _ E | E1 Hrej E2 _ E];
    rewrite E, selected_particles_app, HP, E2.
  - unfold leftmost_leaf in Hcov.
    rewrite E1, leaves_per_node_particle, Z.mul_1_r in Hcov.
    rewrite Z.min_l by lia. rewrite zrange_succ by lia.
    rewrite filter_app. simpl. rewrite <- Hcov.
    destruct (particle_pred (num_covered_particles s)); reflexivity.
  - simpl. rewrite app_nil_r. rewrite Z.min_l by lia. reflexivity.
  - simpl. rewrite app_nil_r. simpl in Hrej.
    pose proof (leaves_per_node_pos (level (current_node s))
                  effective_num_levels ltac:(lia)) as Hpos.
    set (c := num_covered_particles s) in *.
    set (w := BT_LEAVES_PER_NODE (level (current_node s)) effective_num_levels)
      in *.
    replace (Z.min (c + w) num_particles)
      with (c + Z.of_nat (Z.to_nat (Z.min (c + w) num_particles - c))) by lia.
    symmetry. apply filter_zrange_extend; [lia |].
    intros p Hp. apply (Hher (current_node s) p Hrej).
    fold w. rewrite <- Hcov. lia.
Qed.

(** Under a hereditary stateless handler a query returns, having selected
    exactly the accepted real particles, in ascending order. *)
Lemma query_selects_accepted :
  exists s : state unit,
    query the_handler strategy num_particles effective_num_particles
      effective_num_levels
      (enough_fuel effective_num_particles effective_num_levels) = Some s /\
    selected_particles (events s) = filter particle_pred (zrange num_particles).
Proof.
  destruct (query_loop_returns the_handler strategy _ _ _ Hwf) as [s Hrun].
  unfold query. rewrite Hrun. eexists. split; [reflexivity |].
  simpl. rewrite selected_particles_app. simpl. rewrite app_nil_r.
  destruct (query_loop_invariant the_handler strategy _ _ _ Hwf selected_so_far)
    with (fuel := enough_fuel effective_num_particles effective_num_levels)
         (s := query_start the_handler) (s' := s) as (_ & HP & Hge).
  - intros s0 Hi0 HP0 Hg0. apply selected_so_far_step; assumption.
  - apply query_start_inv with (1 := Hwf).
  - unfold selected_so_far. simpl. destruct Hwf as (_ & _ & HN).
    rewrite Z.min_l by lia. reflexivity.
  - exact Hrun.
  - unfold selected_so_far in HP. rewrite Z.min_r in HP by lia. exact HP.
Qed.

End Hereditary.

End DepthFirstStrategies.

(** ** Depth-first engine: when the two strategies select the same particles *)

Module DepthFirstAgreement.
Import DepthFirst DepthFirstFacts DepthFirstLoop DepthFirstRuns
  DepthFirstStrategies.

(** Slot [b] lies strictly below node [node]: on a deeper level, with its
    leftmost leaf among the leaves of [node]. *)
Definition below (levels : Z) (node b : binary_tree_key_t) : Prop :=
  level node < level b /\
  leftmost_leaf node levels <= leftmost_leaf b levels
    < leftmost_leaf node levels + BT_LEAVES_PER_NODE (level node) levels.

(** Every used node the handler rejects either has only rejected nodes below
    it (the rejection is inherited), or has no accepted particle below it
    (the rejection is sound).  Nothing is asked of the nodes on the left edge
    of the tree (local id 0) and of the nodes of the deepest node level: the
    two strategies reach and leave them in the same way. *)
Definition pruning_consistent (node_pred : binary_tree_key_t -> bool)
  (particle_pred : Z -> bool) (levels num_particles : Z) : Prop :=
  forall node : binary_tree_key_t,
    0 <= level node < levels - 2 -> 1 <= local_node_id node ->
    leftmost_leaf node levels < num_particles ->
    node_pred node = false ->
    (forall b : binary_tree_key_t,
        level b < levels - 1 -> 0 <= local_node_id b ->
        below levels node b ->
        leftmost_leaf b levels < num_particles ->
        node_pred b = false)
    \/
    (forall p : Z,
        leftmost_leaf node levels <= p
          < leftmost_leaf node levels + BT_LEAVES_PER_NODE (level node) levels ->
        p < num_particles ->
        particle_pred p = false).

(** The cursor after a rejection. *)
Definition advance (strategy : depth_first_iteration_strategy)
  (node : binary_tree_key_t) : binary_tree_key_t :=
  if binary_tree_is_right_child node
  then next_local_node_id (NEXT_PARENT strategy node)
  else next_local_node_id node.

Lemma same_slot (levels : Z) (a b : binary_tree_key_t) :
  level a = level b -> level a <= levels - 1 ->
  leftmost_leaf a levels = leftmost_leaf b levels -> a = b.
Proof.
  destruct a as [la ia], b as [lb ib]. unfold leftmost_leaf. simpl.
  intros -> Hl He.
  pose proof (leaves_per_node_pos lb levels Hl) as Hpos.
  f_equal. nia.
Qed.

(** Sound pruning is consistent: a handler whose rejected nodes have no
    accepted particle below them. *)
Lemma hereditary_consistent (node_pred : binary_tree_key_t -> bool)
  (particle_pred : Z -> bool) (levels num_particles : Z) :
  hereditary node_pred particle_pred levels ->
  pruning_consistent node_pred particle_pred levels num_particles.
Proof.
  intros Hher node _ _ _ Hrej. right. intros p Hp _.
  apply (Hher node p Hrej Hp).
Qed.

(** Inherited rejection is consistent: a handler that rejects every node
    below a node it rejects, whatever it does with the particles. *)
Lemma inherited_consistent (node_pred : binary_tree_key_t -> bool)
  (particle_pred : Z -> bool) (levels num_particles : Z) :
  (forall a b : binary_tree_key_t,
      node_pred a = false -> below levels a b -> node_pred b = false) ->
  pruning_consistent node_pred particle_pred levels num_particles.
Proof.
  intros Hinh node _ _ _ Hrej. left. intros b _ _ Hb _.
  apply (Hinh node b Hrej Hb).
Qed.

Section Agreement.

Variable node_pred : binary_tree_key_t -> bool.
Variable particle_pred : Z -> bool.
Variables num_particles effective_num_particles effective_num_levels : Z.
Hypothesis Hwf : tree_wf num_particles effective_num_particles effective_num_levels.

Abbreviation the_handler := (stateless_handler node_pred particle_pred).
Abbreviation step strategy :=
  (query_step the_handler strategy effective_num_particles effective_num_levels).
Abbreviation loop strategy :=
  (query_loop the_handler strategy num_particles effective_num_particles
     effective_num_levels).
Abbreviation inv := (cursor_inv effective_num_levels (H := unit)).
Abbreviation picked s := (selected_particles (events (H := unit) s)).
Abbreviation width lvl := (BT_LEAVES_PER_NODE lvl effective_num_levels).
Abbreviation leftmost node := (leftmost_leaf node effective_num_levels).

(** One turn of the loop under a stateless handler, spelled out. *)
Lemma step_facts (strategy : depth_first_iteration_strategy) (s : state unit) :
  inv s -> num_covered_particles s < num_particles ->
  let node := current_node s in
  inv (step strategy s) /\
  node_ok effective_num_levels node /\
  if level node =? effective_num_levels - 1 then
    num_covered_particles (step strategy s) = num_covered_particles s + 1 /\
    picked (step strategy s)
    = picked s
      ++ (if particle_pred (local_node_id node) then [local_node_id node]
          else []) /\
    current_node (step strategy s)
    = (if particle_pred (local_node_id node) then next_local_node_id node
       else advance strategy node)
  else if node_pred node then
    num_covered_particles (step strategy s) = num_covered_particles s /\
    picked (step strategy s) = picked s /\
    current_node (step strategy s) = binary_tree_get_children_begin node
  else
    num_covered_particles (step strategy s)
    = num_covered_particles s + width (level node) /\
    picked (step strategy s) = picked s /\
    current_node (step strategy s) = advance strategy node.
Proof.
  intros Hinv Hg. cbv zeta.
  destruct (query_step_spec the_handler strategy _ _ _ Hwf s Hinv Hg)
    as [Hinv' Hit].
  split; [exact Hinv' |].
  assert (node_ok effective_num_levels (current_node s)) as Hok.
  { destruct Hinv as [Hc Hcov]. destruct Hwf as (HL & Heff & HN).
    apply cursor_before_end; [exact Hc |]. rewrite <- Hcov, <- Heff. lia. }
  split; [exact Hok |].
  assert (wrap64 (effective_num_levels - 1) = effective_num_levels - 1) as Hw
      by (apply (levels_minus_one _ _ _ Hwf)).
  destruct (level (current_node s) =? effective_num_levels - 1) eqn:Hlvl.
  - apply Z.eqb_eq in Hlvl.
    destruct Hit as [E1 E2 _ E | E1 _ _ _ _ | E1 _ _ _ _]; try lia.
    split; [exact E2 |]. split.
    + rewrite E, selected_particles_app.
      cbn [stateless_handler dfs_particle_processor fst].
      destruct (particle_pred _); reflexivity.
    + unfold query_step. rewrite Hw.
      replace (level (current_node s) =? effective_num_levels - 1) with true
        by (symmetry; apply Z.eqb_eq; exact Hlvl).
      unfold QUERY_PARTICLE_LEVEL, load_particle, advance.
      cbn [stateless_handler dfs_particle_processor].
      destruct (particle_pred _); reflexivity.
  - apply Z.eqb_neq in Hlvl.
    destruct (node_pred (current_node s)) eqn:Hsel.
    + destruct Hit as [E1 _ _ _ | E1 _ E2 E3 E | E1 Hrej _ _ _]; try lia.
      * split; [exact E2 |]. split; [| exact E3].
        rewrite E, selected_particles_app. simpl. apply app_nil_r.
      * cbn [stateless_handler dfs_node_selector fst] in Hrej. congruence.
    + destruct Hit as [E1 _ _ _ | E1 Hacc _ _ _ | E1 _ E2 _ E]; try lia.
      * cbn [stateless_handler dfs_node_selector fst] in Hacc. congruence.
      * split; [exact E2 |]. split.
        -- rewrite E, selected_particles_app. simpl. apply app_nil_r.
        -- unfold query_step. rewrite Hw.
           replace (level (current_node s) =? effective_num_levels - 1)
             with false by (symmetry; apply Z.eqb_neq; exact Hlvl).
           unfold QUERY_NODE_LEVEL, advance.
           cbn [stateless_handler dfs_node_selector].
           rewrite Hsel. reflexivity.
Qed.


(** ** Geometry of the subtree below a node *)

Lemma width_ratio (la lb : Z) :
  0 <= la <= lb -> lb <= effective_num_levels - 1 ->
  width la = 2 ^ (lb - la) * width lb.
Proof.
  intros Hl Hb. unfold BT_LEAVES_PER_NODE.
  rewrite <- Z.pow_add_r by lia. f_equal. lia.
Qed.

(** A slot below a node ends inside the node's subtree. *)
Lemma inside_end (la lb ia ib : Z) :
  0 <= la < lb -> lb <= effective_num_levels - 1 ->
  ib * width lb < (ia + 1) * width la ->
  (ib + 1) * width lb <= (ia + 1) * width la.
Proof.
  intros Hl Hb Hin. rewrite (width_ratio la lb) in * by lia.
  pose proof (leaves_per_node_pos lb effective_num_levels Hb) as Hw.
  assert (0 < 2 ^ (lb - la)) as Hq by (apply Z.pow_pos_nonneg; lia).
  set (w := width lb) in *. set (q := 2 ^ (lb - la)) in *.
  assert (ib < (ia + 1) * q) as Hlt by nia.
  nia.
Qed.

(** A right child on the level directly below a node ends where the node
    ends. *)
Lemma inside_right_child (la ia ib : Z) :
  0 <= la -> la + 1 <= effective_num_levels - 1 ->
  ia * width la <= ib * width (la + 1) < (ia + 1) * width la ->
  Z.odd ib = true ->
  (ib + 1) * width (la + 1) = (ia + 1) * width la.
Proof.
  intros Hl Hb Hin Hodd.
  rewrite (leaves_per_node_double la) in * by lia.
  pose proof (leaves_per_node_pos (la + 1) effective_num_levels Hb) as Hw.
  set (w := width (la + 1)) in *.
  pose proof (odd_half _ Hodd) as Hh.
  assert (2 * ia <= ib < 2 * ia + 2) as Hr by nia.
  assert (ib = 2 * ia + 1) as -> by lia. ring.
Qed.

(** A left child below a node does not end where the node ends. *)
Lemma inside_left_child (la lb ia ib : Z) :
  0 <= la < lb -> lb <= effective_num_levels - 1 ->
  Z.odd ib = false ->
  (ib + 1) * width lb <> (ia + 1) * width la.
Proof.
  intros Hl Hb Heven He. rewrite (width_ratio la lb) in He by lia.
  pose proof (leaves_per_node_pos lb effective_num_levels Hb) as Hw.
  assert (2 ^ (lb - la) = 2 * 2 ^ (lb - la - 1)) as Hq.
  { replace (lb - la) with (Z.succ (lb - la - 1)) at 1 by lia.
    apply Z.pow_succ_r. lia. }
  rewrite Hq in He.
  pose proof (even_half _ Heven) as Hh.
  set (w := width lb) in *. set (q := 2 ^ (lb - la - 1)) in *.
  assert (ib + 1 = (ia + 1) * (2 * q)) as E by nia.
  set (t := (ia + 1) * q) in *.
  assert ((ia + 1) * (2 * q) = 2 * t) as E2 by (subst t; ring).
  lia.
Qed.

Lemma advance_relaxed_level (node : binary_tree_key_t) :
  level (advance HIERARCHICAL_ITERATION_RELAXED node)
  = if binary_tree_is_right_child node then level node - 1 else level node.
Proof.
  unfold advance. destruct (binary_tree_is_right_child node); reflexivity.
Qed.

Lemma advance_facts (strategy : depth_first_iteration_strategy)
  (node : binary_tree_key_t) :
  node_ok effective_num_levels node ->
  cursor_ok effective_num_levels (advance strategy node) /\
  level (advance strategy node) <= level node /\
  leftmost (advance strategy node) = leftmost node + width (level node).
Proof.
  intros Hok. destruct Hwf as (HL & _).
  apply (advance_ok effective_num_levels strategy node HL Hok).
Qed.

(** The slot after a rejection is not on the left edge of the tree. *)
Lemma advance_off_left_edge (strategy : depth_first_iteration_strategy)
  (node : binary_tree_key_t) :
  node_ok effective_num_levels node ->
  1 <= local_node_id (advance strategy node).
Proof.
  intros Hok. destruct (advance_facts strategy node Hok) as ([Hl Hi] & _ & He).
  destruct Hok as [Hnl Hni].
  pose proof (leaves_per_node_pos (level node) effective_num_levels
                ltac:(lia)) as Hw.
  pose proof (leaves_per_node_pos (level (advance strategy node))
                effective_num_levels ltac:(lia)) as Hw'.
  unfold leftmost_leaf in He. nia.
Qed.

Lemma advance_strict_level (node : binary_tree_key_t) :
  node_ok effective_num_levels node ->
  level (advance HIERARCHICAL_ITERATION_STRICT node)
  <= level (advance HIERARCHICAL_ITERATION_RELAXED node).
Proof.
  intros Hok. rewrite advance_relaxed_level. unfold advance.
  destruct (binary_tree_is_right_child node) eqn:Hr; [| simpl; lia].
  destruct Hwf as (HL & _).
  destruct (next_parent_ok effective_num_levels HIERARCHICAL_ITERATION_STRICT
              node HL Hok Hr) as (_ & Hlt & _).
  cbv zeta in Hlt. lia.
Qed.

(** ** The relaxed strategy inside a subtree the strict one has skipped *)

Section Sweep.

(** The node the strict strategy has rejected, its leaves being
    [first .. last - 1]. *)
Variable top : binary_tree_key_t.
Hypothesis Htop : node_ok effective_num_levels top.
Hypothesis Htop_level : level top < effective_num_levels - 1.

Abbreviation first := (leftmost top).
Abbreviation last := (leftmost top + width (level top)).

(** What keeps the relaxed strategy from selecting a particle below [top]:
    every node below is rejected and the cursor is on a node level, or every
    particle below is rejected. *)
Definition quiet (r : state unit) : Prop :=
  ((forall b : binary_tree_key_t,
       level b < effective_num_levels - 1 -> 0 <= local_node_id b ->
       below effective_num_levels top b ->
       leftmost b < num_particles ->
       node_pred b = false) /\
   level (current_node r) < effective_num_levels - 1)
  \/
  (forall p : Z,
      first <= p < last -> p < num_particles -> particle_pred p = false).

Lemma relaxed_step_below (r : state unit) :
  inv r -> level top < level (current_node r) ->
  first <= num_covered_particles r < last ->
  num_covered_particles r < num_particles ->
  quiet r ->
  let r' := step HIERARCHICAL_ITERATION_RELAXED r in
  inv r' /\ picked r' = picked r /\
  ((level top < level (current_node r') /\
    first <= num_covered_particles r' < last /\ quiet r')
   \/
   (num_covered_particles r' = last /\
    level top <= level (current_node r') < effective_num_levels - 1)).
Proof.
  intros Hinv Hlvl Hin Hg Hq. cbv zeta.
  destruct (step_facts HIERARCHICAL_ITERATION_RELAXED r Hinv Hg)
    as (Hinv' & Hok & Hcase).
  cbv zeta in Hcase. unfold quiet in Hq.
  split; [exact Hinv' |].
  destruct Hinv as [_ Hcov]. destruct Htop as [Htl Hti].
  pose proof Hok as [Hbl Hbi].
  set (node := current_node r) in *.
  pose proof (advance_facts HIERARCHICAL_ITERATION_RELAXED node Hok)
    as (_ & _ & Hadv).
  pose proof (advance_relaxed_level node) as Hal.
  unfold leftmost_leaf in Hcov, Hin, Hadv |- *.
  assert ((local_node_id node + 1) * width (level node)
          <= (local_node_id top + 1) * width (level top)) as Hend.
  { apply inside_end; lia. }
  pose proof (leaves_per_node_pos (level node) effective_num_levels
                ltac:(lia)) as Hwn.
  destruct (level node =? effective_num_levels - 1) eqn:Hpl.
  - (* a particle: it is rejected *)
    apply Z.eqb_eq in Hpl.
    destruct Hcase as (Hc' & Hp' & Hn').
    assert (particle_pred (local_node_id node) = false) as Hrej.
    { destruct Hq as [[_ Hnl] | Hsound]; [lia |].
      rewrite Hpl, leaves_per_node_particle in Hcov.
      apply Hsound; unfold leftmost_leaf; lia. }
    rewrite Hrej in Hp', Hn'. rewrite app_nil_r in Hp'.
    split; [exact Hp' |].
    rewrite Hn', Hc', Hal.
    rewrite Hpl, leaves_per_node_particle in Hcov, Hend, Hwn.
    unfold binary_tree_is_right_child in *.
    destruct (Z.odd (local_node_id node)) eqn:Hodd.
    + destruct (Z.eq_dec (num_covered_particles r + 1)
                  ((local_node_id top + 1) * width (level top))) as [E | E].
      * right. split; [lia | lia].
      * left. split; [| split; [lia |]].
        -- destruct (Z.eq_dec (level top + 1) (level node)) as [Ec | Ec];
             [| lia].
           exfalso. apply E.
           pose proof (inside_right_child (level top) (local_node_id top)
                         (local_node_id node) ltac:(lia) ltac:(lia)) as Hrc.
           rewrite Ec, Hpl, leaves_per_node_particle in Hrc.
           specialize (Hrc ltac:(lia) Hodd). lia.
        -- destruct Hq as [[_ Hnl] | Hsound]; [lia |]. right. exact Hsound.
    + pose proof (inside_left_child (level top) (level node)
                    (local_node_id top) (local_node_id node)
                    ltac:(lia) ltac:(lia) Hodd) as Hne.
      rewrite Hpl, leaves_per_node_particle in Hne.
      left. split; [lia |]. split; [lia |].
      destruct Hq as [[_ Hnl] | Hsound]; [lia |]. right. exact Hsound.
  - apply Z.eqb_neq in Hpl.
    assert (level node < effective_num_levels - 1) as Hnl by lia.
    destruct (node_pred node) eqn:Hsel.
    + (* an accepted node: only when every particle below is rejected *)
      destruct Hcase as (Hc' & Hp' & Hn').
      split; [exact Hp' |]. left. rewrite Hn', Hc'.
      cbn [level binary_tree_get_children_begin].
      split; [lia |]. split; [lia |].
      destruct Hq as [[Hinh _] | Hsound]; [| right; exact Hsound].
      rewrite Hinh in Hsel; [discriminate Hsel | lia | lia | | ].
      * split; [lia |]. unfold leftmost_leaf. lia.
      * unfold leftmost_leaf. lia.
    + (* a rejected node *)
      destruct Hcase as (Hc' & Hp' & Hn').
      split; [exact Hp' |]. rewrite Hn', Hc', Hal.
      assert (quiet
                (step HIERARCHICAL_ITERATION_RELAXED r)) as Hq'.
      { destruct Hq as [[Hinh _] | Hsound]; [left | right; exact Hsound].
        split; [exact Hinh |]. rewrite Hn', Hal.
        destruct (binary_tree_is_right_child node); lia. }
      unfold binary_tree_is_right_child in *.
      destruct (Z.eq_dec (num_covered_particles r + width (level node))
                  ((local_node_id top + 1) * width (level top))) as [E | E].
      * right. split; [lia |].
        destruct (Z.odd (local_node_id node)); lia.
      * left. split; [| split; [lia | exact Hq']].
        destruct (Z.odd (local_node_id node)) eqn:Hodd; [| lia].
        destruct (Z.eq_dec (level top + 1) (level node)) as [Ec | Ec];
          [| lia].
        exfalso. apply E.
        pose proof (inside_right_child (level top) (local_node_id top)
                      (local_node_id node) ltac:(lia) ltac:(lia)) as Hrc.
        rewrite Ec in Hrc. specialize (Hrc ltac:(lia) Hodd). lia.
Qed.

(** The relaxed strategy crosses the subtree below [top] without selecting
    a particle, unless the loop ends on the way. *)
Lemma sweep (fuel : nat) :
  forall r final : state unit,
    inv r -> level top < level (current_node r) ->
    first <= num_covered_particles r < last ->
    quiet r ->
    loop HIERARCHICAL_ITERATION_RELAXED fuel r = Some final ->
    exists (fuel' : nat) (r' : state unit),
      (fuel' <= fuel)%nat /\
      loop HIERARCHICAL_ITERATION_RELAXED fuel' r' = Some final /\
      inv r' /\ picked r' = picked r /\
      ((num_covered_particles r' = last /\
        level top <= level (current_node r') < effective_num_levels - 1)
       \/ num_particles <= num_covered_particles r' < last).
Proof.
  induction fuel as [| fuel IH]; intros r final Hinv Hlvl Hin Hq Hrun.
  - exists O, r. split; [lia |]. split; [exact Hrun |].
    split; [exact Hinv |]. split; [reflexivity |]. right.
    simpl in Hrun.
    destruct (num_covered_particles r <? num_particles) eqn:Hg;
      [discriminate Hrun |].
    apply Z.ltb_ge in Hg. lia.
  - destruct (num_covered_particles r <? num_particles) eqn:Hg.
    + apply Z.ltb_lt in Hg.
      assert (loop HIERARCHICAL_ITERATION_RELAXED fuel
                (step HIERARCHICAL_ITERATION_RELAXED r) = Some final) as Hrun'.
      { simpl in Hrun. apply Z.ltb_lt in Hg. rewrite Hg in Hrun. exact Hrun. }
      destruct (relaxed_step_below r Hinv Hlvl Hin Hg Hq)
        as (Hinv' & Hp' & [(Hl' & Hin' & Hq') | (Hc' & Hl')]).
      * destruct (IH _ _ Hinv' Hl' Hin' Hq' Hrun')
          as (fuel' & r' & Hle & Hr' & Hi' & Hpk & Hend).
        exists fuel', r'. split; [lia |]. split; [exact Hr' |].
        split; [exact Hi' |]. split; [congruence | exact Hend].
      * exists fuel, (step HIERARCHICAL_ITERATION_RELAXED r).
        split; [lia |]. split; [exact Hrun' |]. split; [exact Hinv' |].
        split; [exact Hp' |]. left. split; assumption.
    + exists (S fuel), r. split; [lia |]. split; [exact Hrun |].
      split; [exact Hinv |]. split; [reflexivity |]. right.
      apply Z.ltb_ge in Hg. lia.
Qed.

End Sweep.

(** ** The two strategies side by side *)

Lemma advance_levels (node : binary_tree_key_t) :
  node_ok effective_num_levels node ->
  level (advance HIERARCHICAL_ITERATION_STRICT node)
  <= level (advance HIERARCHICAL_ITERATION_RELAXED node) /\
  (level (advance HIERARCHICAL_ITERATION_STRICT node)
   < level (advance HIERARCHICAL_ITERATION_RELAXED node) ->
   level (advance HIERARCHICAL_ITERATION_RELAXED node) < level node).
Proof.
  intros Hok. split; [apply advance_strict_level; exact Hok |].
  rewrite advance_relaxed_level. unfold advance.
  destruct (binary_tree_is_right_child node); simpl; lia.
Qed.

Lemma loop_done (strategy : depth_first_iteration_strategy) (fuel : nat)
  (s : state unit) :
  num_particles <= num_covered_particles s -> loop strategy fuel s = Some s.
Proof.
  intros Hg. apply Z.ltb_ge in Hg. destruct fuel; simpl; rewrite Hg; reflexivity.
Qed.

Lemma loop_turn (strategy : depth_first_iteration_strategy) (fuel : nat)
  (s final : state unit) :
  num_covered_particles s < num_particles ->
  loop strategy fuel s = Some final ->
  exists fuel' : nat,
    fuel = S fuel' /\ loop strategy fuel' (step strategy s) = Some final.
Proof.
  intros Hg Hrun. apply Z.ltb_lt in Hg.
  destruct fuel as [| fuel']; simpl in Hrun; rewrite Hg in Hrun;
    [discriminate Hrun |].
  exists fuel'. split; [reflexivity | exact Hrun].
Qed.

(** The strict run [s] and the relaxed run [r] have covered the same
    particles and selected the same ones; the strict cursor is the relaxed
    one or a node above it with the same leftmost leaf, off the left edge of
    the tree, the relaxed cursor then being on a node level. *)
Definition related (s r : state unit) : Prop :=
  inv s /\ inv r /\
  num_covered_particles s = num_covered_particles r /\
  picked s = picked r /\
  level (current_node s) <= level (current_node r) /\
  (level (current_node s) < level (current_node r) ->
   level (current_node r) < effective_num_levels - 1 /\
   1 <= local_node_id (current_node s)).

Hypothesis Hcons :
  pruning_consistent node_pred particle_pred effective_num_levels num_particles.

Lemma related_runs_agree (n : nat) :
  forall (fuel_s fuel_r : nat) (s r final_s final_r : state unit),
    (fuel_s + fuel_r <= n)%nat -> related s r ->
    loop HIERARCHICAL_ITERATION_STRICT fuel_s s = Some final_s ->
    loop HIERARCHICAL_ITERATION_RELAXED fuel_r r = Some final_r ->
    picked final_s = picked final_r.
Proof.
  induction n as [| n IH];
    intros fuel_s fuel_r s r final_s final_r Hfuel
      (His & Hir & Hcov & Hpick & Hle & Hnode) Hrs Hrr.
  - (* no fuel: both loops are already over *)
    assert (fuel_s = O /\ fuel_r = O) as [-> ->] by lia.
    simpl in Hrs, Hrr.
    destruct (num_covered_particles s <? num_particles); [discriminate Hrs |].
    destruct (num_covered_particles r <? num_particles); [discriminate Hrr |].
    injection Hrs as <-. injection Hrr as <-. exact Hpick.
  - destruct (Z_lt_le_dec (num_covered_particles s) num_particles)
      as [Hg | Hdone].
    2:{ rewrite loop_done in Hrs by lia. rewrite loop_done in Hrr by lia.
        injection Hrs as <-. injection Hrr as <-. exact Hpick. }
    assert (num_covered_particles r < num_particles) as Hg' by lia.
    destruct (loop_turn _ _ _ _ Hg Hrs) as (fs & -> & Hrs').
    destruct (step_facts HIERARCHICAL_ITERATION_STRICT s His Hg)
      as (His' & Hoks & Hcs).
    cbv zeta in Hcs.
    destruct (Z.eq_dec (level (current_node s)) (level (current_node r)))
      as [Hsame | Hdiff].
    + (* the same cursor: both strategies take the same kind of turn *)
      destruct (loop_turn _ _ _ _ Hg' Hrr) as (fr & -> & Hrr').
      destruct (step_facts HIERARCHICAL_ITERATION_RELAXED r Hir Hg')
        as (Hir' & _ & Hcr).
      cbv zeta in Hcr.
      assert (current_node r = current_node s) as Hcur.
      { symmetry. apply (same_slot effective_num_levels); [exact Hsame | |].
        - destruct Hoks; lia.
        - destruct His as [_ <-]. destruct Hir as [_ <-]. exact Hcov. }
      rewrite Hcur in Hcr.
      destruct (advance_levels (current_node s) Hoks) as [Hal Han].
      pose proof (advance_off_left_edge HIERARCHICAL_ITERATION_STRICT
                    (current_node s) Hoks) as Hedge.
      apply (IH fs fr (step HIERARCHICAL_ITERATION_STRICT s)
               (step HIERARCHICAL_ITERATION_RELAXED r)); try assumption;
        [lia |].
      split; [exact His' |]. split; [exact Hir' |].
      destruct (level (current_node s) =? effective_num_levels - 1) eqn:Hpl.
      * destruct Hcs as (Hc1 & Hp1 & Hn1). destruct Hcr as (Hc2 & Hp2 & Hn2).
        rewrite Hc1, Hc2, Hp1, Hp2, Hn1, Hn2, Hpick, Hcov.
        split; [reflexivity |]. split; [reflexivity |].
        apply Z.eqb_eq in Hpl.
        destruct (particle_pred _); [split; lia |]. split; [exact Hal | lia].
      * apply Z.eqb_neq in Hpl.
        destruct (node_pred (current_node s)).
        -- destruct Hcs as (Hc1 & Hp1 & Hn1). destruct Hcr as (Hc2 & Hp2 & Hn2).
           rewrite Hc1, Hc2, Hp1, Hp2, Hn1, Hn2, Hpick, Hcov.
           split; [reflexivity |]. split; [reflexivity |]. split; lia.
        -- destruct Hcs as (Hc1 & Hp1 & Hn1). destruct Hcr as (Hc2 & Hp2 & Hn2).
           rewrite Hc1, Hc2, Hp1, Hp2, Hn1, Hn2, Hpick, Hcov.
           split; [reflexivity |]. split; [reflexivity |].
           destruct Hoks. split; [exact Hal | lia].
    + (* the strict cursor is a node above the relaxed one *)
      assert (level (current_node s) < level (current_node r)) as Hlt by lia.
      assert (level (current_node r) <= effective_num_levels - 1) as Hrl.
      { destruct Hir as [[? _] _]. lia. }
      destruct (Hnode Hlt) as [Hrnode Hedge].
      replace (level (current_node s) =? effective_num_levels - 1) with false
        in Hcs by (symmetry; apply Z.eqb_neq; lia).
      destruct (node_pred (current_node s)) eqn:Hsel.
      * (* accepted: the strict cursor goes down towards the relaxed one *)
        destruct Hcs as (Hc1 & Hp1 & Hn1).
        apply (IH fs fuel_r (step HIERARCHICAL_ITERATION_STRICT s) r);
          try assumption; [lia |].
        split; [exact His' |]. split; [exact Hir |].
        rewrite Hc1, Hp1, Hn1.
        cbn [level local_node_id binary_tree_get_children_begin].
        split; [exact Hcov |]. split; [exact Hpick |]. split; lia.
      * (* rejected: the relaxed strategy crosses the subtree *)
        destruct Hcs as (Hc1 & Hp1 & Hn1).
        pose proof His as [_ Hleft].
        pose proof (leaves_per_node_pos (level (current_node s))
                      effective_num_levels ltac:(lia)) as Hw.
        assert (quiet (current_node s) r) as Hq.
        { destruct (Hcons (current_node s)) as [Hinh | Hsound].
          - destruct Hoks; lia.
          - exact Hedge.
          - rewrite <- Hleft. exact Hg.
          - exact Hsel.
          - left. split; [exact Hinh | exact Hrnode].
          - right. exact Hsound. }
        destruct (sweep (current_node s) Hoks ltac:(lia) fuel_r r final_r
                    Hir Hlt ltac:(rewrite <- Hleft; lia) Hq Hrr)
          as (fr & r' & Hfr & Hrr' & Hir' & Hpr & [[Hc' Hl'] | Hover]).
        -- apply (IH fs fr (step HIERARCHICAL_ITERATION_STRICT s) r');
             try assumption; [lia |].
           split; [exact His' |]. split; [exact Hir' |].
           destruct (advance_facts HIERARCHICAL_ITERATION_STRICT
                       (current_node s) Hoks) as (_ & Hadv & _).
           pose proof (advance_off_left_edge HIERARCHICAL_ITERATION_STRICT
                         (current_node s) Hoks) as Hedge'.
           rewrite Hc1, Hp1, Hn1, Hc', Hpr, Hleft.
           split; [reflexivity |]. split; [exact Hpick |]. split; lia.
        -- rewrite loop_done in Hrr' by lia. injection Hrr' as <-.
           rewrite loop_done in Hrs' by (rewrite Hc1, Hleft; lia).
           injection Hrs' as <-. congruence.
Qed.

(** Under a stateless handler with consistent pruning the strict and the
    relaxed query return and select the same particles, in the same order. *)
Lemma queries_agree :
  exists s_strict s_relaxed : state unit,
    query the_handler HIERARCHICAL_ITERATION_STRICT num_particles
      effective_num_particles effective_num_levels
      (enough_fuel effective_num_particles effective_num_levels)
    = Some s_strict /\
    query the_handler HIERARCHICAL_ITERATION_RELAXED num_particles
      effective_num_particles effective_num_levels
      (enough_fuel effective_num_particles effective_num_levels)
    = Some s_relaxed /\
    picked s_relaxed = picked s_strict.
Proof.
  destruct (query_loop_returns the_handler HIERARCHICAL_ITERATION_STRICT
              _ _ _ Hwf) as [s1 R1].
  destruct (query_loop_returns the_handler HIERARCHICAL_ITERATION_RELAXED
              _ _ _ Hwf) as [s2 R2].
  unfold query. rewrite R1, R2. eexists. eexists.
  split; [reflexivity |]. split; [reflexivity |].
  cbn [events]. rewrite !selected_particles_app. f_equal. symmetry.
  apply (related_runs_agree
           (enough_fuel effective_num_particles effective_num_levels
            + enough_fuel effective_num_particles effective_num_levels)
           (enough_fuel effective_num_particles effective_num_levels)
           (enough_fuel effective_num_particles effective_num_levels)
           (query_start the_handler) (query_start the_handler) s1 s2
           (Nat.le_refl _)); [| exact R1 | exact R2].
  pose proof (query_start_inv the_handler _ _ _ Hwf) as Hstart.
  split; [exact Hstart |]. split; [exact Hstart |].
  split; [reflexivity |]. split; [reflexivity |]. split; lia.
Qed.

End Agreement.

End DepthFirstAgreement.

(** * Main results on the depth-first engine *)

Import DepthFirst DepthFirstFacts DepthFirstLoop DepthFirstRuns
  DepthFirstStrategies DepthFirstAgreement.

(** C2, as the code has it.  For a tree with N >= 1 particles, under either
    strategy and whatever the handler decides, every loop iteration is a
    particle step (the counter grows by 1), a pruned-node step (it grows by
    leaves_per_node(level) >= 1) or an accepted-node step (the counter stays
    and the cursor goes one level down); the while loop is left after finitely
    many iterations, with N <= counter <= effective_num_particles. *)
Theorem dfs_counter_progress {H : Type} (hd : handler H)
  (strategy : depth_first_iteration_strategy)
  (num_particles effective_num_particles effective_num_levels : Z) :
  tree_wf num_particles effective_num_particles effective_num_levels ->
  (forall s : state H,
      reachable hd strategy num_particles effective_num_particles
        effective_num_levels s ->
      num_covered_particles s < num_particles ->
      iteration hd effective_num_particles effective_num_levels s
        (query_step hd strategy effective_num_particles effective_num_levels s)
      /\ 1 <= BT_LEAVES_PER_NODE (level (current_node s)) effective_num_levels)
  /\
  (exists final : state H,
      (forall fuel : nat,
          (enough_fuel effective_num_particles effective_num_levels <= fuel)%nat ->
          query_loop hd strategy num_particles effective_num_particles
            effective_num_levels fuel (query_start hd) = Some final) /\
      reachable hd strategy num_particles effective_num_particles
        effective_num_levels final /\
      num_particles <= num_covered_particles final <= effective_num_particles).
Proof.
  intros Hwf. split.
  - intros s Hr Hg.
    pose proof (reachable_inv hd strategy _ _ _ Hwf s Hr) as Hinv.
    split.
    + apply (query_step_spec hd strategy _ _ _ Hwf s Hinv Hg).
    + destruct Hinv as [[Hl _] _].
      pose proof (leaves_per_node_pos (level (current_node s))
                    effective_num_levels ltac:(lia)). lia.
  - destruct (query_loop_returns hd strategy _ _ _ Hwf) as [final Hrun].
    exists final.
    destruct (loop_result_reachable hd strategy _ _ _ Hwf _ _ _
                (reachable_start hd strategy _ _ _) Hrun) as [Hr Hb].
    split; [| split; assumption].
    intros fuel Hle.
    apply (query_loop_more_fuel hd strategy _ _ _ _ _ _ fuel Hrun Hle).
Qed.

Lemma dfs_counter_progress_witness :
  tree_wf 6 8 4 /\
  exists final : state unit,
    query_loop select_all HIERARCHICAL_ITERATION_STRICT 6 8 4 (enough_fuel 8 4)
      (query_start select_all) = Some final /\
    6 <= num_covered_particles final <= 8.
Proof.
  assert (tree_wf 6 8 4) as Hwf.
  { unfold tree_wf. split; [lia |]. split; [reflexivity | lia]. }
  split; [exact Hwf |].
  destruct (proj2 (dfs_counter_progress select_all
                     HIERARCHICAL_ITERATION_STRICT 6 8 4 Hwf))
    as (final & Hrun & _ & Hb).
  exists final. split; [| exact Hb]. apply Hrun. lia.
Defined.

(** C2 as stated fails: the counter need not end exactly at N, and it does
    not grow in every iteration.  With three particles (padded to four) a
    handler that rejects the root leaves the loop with the counter at 4; a
    handler that accepts the root leaves the counter at 0 in the first
    iteration. *)
Lemma dfs_counter_not_exact :
  tree_wf 3 4 3 /\
  ~ covered_reaches_exactly select_none HIERARCHICAL_ITERATION_STRICT 3 4 3 /\
  num_covered_particles
    (query_step select_all HIERARCHICAL_ITERATION_STRICT 4 3
       (query_start select_all))
  = num_covered_particles (query_start select_all).
Proof.
  split; [unfold tree_wf; split; [lia | split; [reflexivity | lia]] |].
  split; [| reflexivity].
  intros (fuel & s & Hrun & Hc).
  destruct fuel as [| fuel]; [discriminate Hrun |].
  destruct fuel as [| fuel]; simpl in Hrun; injection Hrun as <-;
    vm_compute in Hc; discriminate Hc.
Qed.

(** Accepts every particle but 3, and every node outside the right half of
    the tree: it rejects node (1,1) and the nodes (2,2) and (2,3) below it. *)
Definition prune_right_half : handler unit :=
  stateless_handler
    (fun node =>
       negb ((level node =? 1) && (local_node_id node =? 1)
             || (level node =? 2) && (2 <=? local_node_id node)))
    (fun p => negb (p =? 3)).

(** Under this handler the two strategies take different paths after the
    rejection of particle 3, the strict one through node (1,1), the relaxed
    one through the nodes (2,2) and (2,3). *)
Example prune_right_half_runs :
  option_map (fun s => (visited_nodes (events s), selected_particles (events s)))
    (query prune_right_half HIERARCHICAL_ITERATION_STRICT 8 8 4 20)
  = Some ([mk_key 0 0; mk_key 1 0; mk_key 2 0; mk_key 1 1], [0; 1; 2]) /\
  option_map (fun s => (visited_nodes (events s), selected_particles (events s)))
    (query prune_right_half HIERARCHICAL_ITERATION_RELAXED 8 8 4 20)
  = Some ([mk_key 0 0; mk_key 1 0; mk_key 2 0; mk_key 2 2; mk_key 2 3],
          [0; 1; 2]).
Proof. split; reflexivity. Qed.

(** C3, as the code has it.  For a stateless handler whose pruning is
    consistent (every used node it rejects, the nodes on the left edge of the
    tree and those of the deepest node level apart, either has only rejected
    nodes below it or has no accepted particle below it) the strict and the
    relaxed strategy both return and select the same particles, in the same
    order. *)
Theorem strict_relaxed_same_particles
  (node_pred : binary_tree_key_t -> bool) (particle_pred : Z -> bool)
  (num_particles effective_num_particles effective_num_levels : Z) :
  tree_wf num_particles effective_num_particles effective_num_levels ->
  pruning_consistent node_pred particle_pred effective_num_levels
    num_particles ->
  exists s_strict s_relaxed : state unit,
    query (stateless_handler node_pred particle_pred)
      HIERARCHICAL_ITERATION_STRICT num_particles effective_num_particles
      effective_num_levels
      (enough_fuel effective_num_particles effective_num_levels)
    = Some s_strict /\
    query (stateless_handler node_pred particle_pred)
      HIERARCHICAL_ITERATION_RELAXED num_particles effective_num_particles
      effective_num_levels
      (enough_fuel effective_num_particles effective_num_levels)
    = Some s_relaxed /\
    selected_particles (events s_relaxed)
    = selected_particles (events s_strict).
Proof.
  intros Hwf Hcons.
  apply (queries_agree node_pred particle_pred _ _ _ Hwf Hcons).
Qed.

Lemma strict_relaxed_same_particles_witness :
  exists s_strict s_relaxed : state unit,
    query prune_right_half HIERARCHICAL_ITERATION_STRICT 8 8 4 (enough_fuel 8 4)
    = Some s_strict /\
    query prune_right_half HIERARCHICAL_ITERATION_RELAXED 8 8 4 (enough_fuel 8 4)
    = Some s_relaxed /\
    selected_particles (events s_relaxed)
    = selected_particles (events s_strict).
Proof.
  apply (strict_relaxed_same_particles
           (fun node =>
              negb ((level node =? 1) && (local_node_id node =? 1)
                    || (level node =? 2) && (2 <=? local_node_id node)))
           (fun p => negb (p =? 3)) 8 8 4).
  - unfold tree_wf. split; [lia |]. split; [reflexivity | lia].
  - intros [l i] Hl Hi _ Hrej. left. intros [lb ib] Hlb Hib [Hlt Hin] _.
    unfold leftmost_leaf, BT_LEAVES_PER_NODE in Hin.
    cbn [level local_node_id] in *.
    apply negb_false_iff in Hrej. apply negb_false_iff.
    assert (l = 1) as ->.
    { destruct (Z.eq_dec l 1) as [E | E]; [exact E |].
      assert (l = 0) as -> by lia. discriminate Hrej. }
    assert (lb = 2) as -> by lia.
    change (2 ^ (4 - 1 - 1)) with 4 in Hin. change (2 ^ (4 - 1 - 2)) with 2 in Hin.
    change (1 =? 1) with true in Hrej. change (1 =? 2) with false in Hrej.
    cbn [andb orb] in Hrej. rewrite orb_false_r in Hrej.
    apply Z.eqb_eq in Hrej. subst i.
    change (2 =? 1) with false. change (2 =? 2) with true. cbn [andb orb].
    apply Z.leb_le. lia.
Defined.

(** C3 as stated fails.  With eight particles, the handler that rejects node
    (1,1) and particle 3 selects particles 0,1,2 under the strict strategy and
    0,1,2,4,5,6,7 under the relaxed one; the handler that rejects particle 3
    only selects node (1,1) under the strict strategy and never visits it
    under the relaxed one. *)
Lemma strict_relaxed_differ :
  ~ strategies_agree skip_right_half 8 8 4 /\
  ~ strategies_agree skip_particle_3 8 8 4.
Proof.
  split; intros (f1 & f2 & s1 & s2 & R1 & R2 & Hp & Hn).
  - assert (query skip_right_half HIERARCHICAL_ITERATION_STRICT 8 8 4 20 = Some s1)
      as E1.
    { destruct (query skip_right_half HIERARCHICAL_ITERATION_STRICT 8 8 4 20)
        as [x |] eqn:E; [| vm_compute in E; discriminate E].
      f_equal. symmetry.
      exact (query_fuel_irrelevant _ _ _ _ _ _ _ _ _ R1 E). }
    assert (query skip_right_half HIERARCHICAL_ITERATION_RELAXED 8 8 4 20 = Some s2)
      as E2.
    { destruct (query skip_right_half HIERARCHICAL_ITERATION_RELAXED 8 8 4 20)
        as [x |] eqn:E; [| vm_compute in E; discriminate E].
      f_equal. symmetry.
      exact (query_fuel_irrelevant _ _ _ _ _ _ _ _ _ R2 E). }
    vm_compute in E1. injection E1 as <-.
    vm_compute in E2. injection E2 as <-.
    destruct (proj2 (Hp 4)) as [C | [C | [C | []]]];
      [simpl; tauto | discriminate C ..].
  - assert (query skip_particle_3 HIERARCHICAL_ITERATION_STRICT 8 8 4 20 = Some s1)
      as E1.
    { destruct (query skip_particle_3 HIERARCHICAL_ITERATION_STRICT 8 8 4 20)
        as [x |] eqn:E; [| vm_compute in E; discriminate E].
      f_equal. symmetry.
      exact (query_fuel_irrelevant _ _ _ _ _ _ _ _ _ R1 E). }
    assert (query skip_particle_3 HIERARCHICAL_ITERATION_RELAXED 8 8 4 20 = Some s2)
      as E2.
    { destruct (query skip_particle_3 HIERARCHICAL_ITERATION_RELAXED 8 8 4 20)
        as [x |] eqn:E; [| vm_compute in E; discriminate E].
      f_equal. symmetry.
      exact (query_fuel_irrelevant _ _ _ _ _ _ _ _ _ R2 E). }
    vm_compute in E1. injection E1 as <-.
    vm_compute in E2. injection E2 as <-.
    destruct (proj1 (Hn (mk_key 1 1))) as [C | [C | [C | [C | []]]]];
      [simpl; tauto | discriminate C ..].
Qed.

(** * Breadth-first engine *)

(** ** Arrays and ranges *)

Lemma list_update_length (a : list Z) (i : nat) (v : Z) :
  length (list_update a i v) = length a.
Proof.
  revert i. induction a as [| x a IH]; intros [| i]; simpl; try reflexivity.
  rewrite IH. reflexivity.
Qed.

Lemma array_set_length (a : list Z) (i v : Z) :
  length (array_set a i v) = length a.
Proof.
  unfold array_set. destruct (i <? 0); [reflexivity |].
  apply list_update_length.
Qed.

(** A store past the end leaves the array as it is. *)
Lemma list_update_past_end (a : list Z) (i : nat) (v : Z) :
  (length a <= i)%nat -> list_update a i v = a.
Proof.
  revert i. induction a as [| x a IH]; intros [| i] Hi; simpl in *;
    try reflexivity; try lia.
  rewrite IH by lia. reflexivity.
Qed.

Lemma firstn_list_update_below (a : list Z) (i k : nat) (v : Z) :
  (k <= i)%nat -> firstn k (list_update a i v) = firstn k a.
Proof.
  revert i k. induction a as [| x a IH]; intros [| i] [| k] Hk; simpl;
    try reflexivity; try lia.
  rewrite IH by lia. reflexivity.
Qed.

Lemma firstn_succ_list_update (a : list Z) (i : nat) (v : Z) :
  (i < length a)%nat ->
  firstn (S i) (list_update a i v) = firstn i a ++ [v].
Proof.
  revert i. induction a as [| x a IH]; intros [| i] Hi; simpl in *; try lia.
  - reflexivity.
  - f_equal. apply IH. lia.
Qed.

Lemma skipn_list_update_above (a : list Z) (i k : nat) (v : Z) :
  (i < k)%nat -> skipn k (list_update a i v) = skipn k a.
Proof.
  revert i k. induction a as [| x a IH]; intros [| i] [| k] Hk; simpl;
    try reflexivity; try lia.
  apply IH. lia.
Qed.

Lemma firstn_succ_nth (a : list Z) (i : nat) :
  (i < length a)%nat -> firstn (S i) a = firstn i a ++ [nth i a 0].
Proof.
  revert i. induction a as [| x a IH]; intros [| i] Hi; simpl in *; try lia.
  - reflexivity.
  - f_equal. apply IH. lia.
Qed.

Lemma array_get_firstn (a : list Z) (n : nat) (i : Z) :
  0 <= i < Z.of_nat n -> array_get (firstn n a) i = array_get a i.
Proof.
  intros Hi. unfold array_get. rewrite nth_firstn.
  destruct (Z.to_nat i <? n)%nat eqn:E; [reflexivity |].
  apply Nat.ltb_ge in E. lia.
Qed.

Lemma shiftr_one (x : Z) : Z.shiftr x 1 = x / 2.
Proof. rewrite Z.shiftr_div_pow2 by lia. reflexivity. Qed.

Lemma land_one (x : Z) : Z.land x 1 = x mod 2.
Proof. change 1 with (Z.ones 1) at 1. rewrite Z.land_ones by lia. reflexivity. Qed.

Lemma zrange_sorted (n : Z) : StronglySorted Z.lt (zrange n).
Proof.
  unfold zrange. generalize (Z.to_nat n) as k. intros k.
  generalize 0%nat as start. induction k as [| k IH]; intros start; simpl.
  - constructor.
  - constructor; [apply IH |].
    apply Forall_forall. intros x Hx. apply in_map_iff in Hx.
    destruct Hx as (y & <- & Hy). apply in_seq in Hy. lia.
Qed.

Lemma filter_sorted (f : Z -> bool) (l : list Z) :
  StronglySorted Z.lt l -> StronglySorted Z.lt (filter f l).
Proof.
  induction 1 as [| x l Hs IH Hall]; simpl; [constructor |].
  destruct (f x); [| exact IH].
  constructor; [exact IH |].
  apply Forall_forall. intros y Hy. apply filter_In in Hy.
  rewrite Forall_forall in Hall. apply Hall. apply Hy.
Qed.

Lemma firstn_sorted (k : nat) (l : list Z) :
  StronglySorted Z.lt l -> StronglySorted Z.lt (firstn k l).
Proof.
  intros Hs. revert k. induction Hs as [| x l Hs IH Hall]; intros [| k]; simpl;
    try constructor.
  - apply IH.
  - apply Forall_forall. intros y Hy. rewrite Forall_forall in Hall.
    apply Hall. rewrite <- (firstn_skipn k l). apply in_or_app. left. exact Hy.
Qed.

(** A map that is increasing on the elements of a sorted list keeps it sorted. *)
Lemma map_sorted (f : Z -> Z) (l : list Z) :
  StronglySorted Z.lt l ->
  (forall x y, In x l -> In y l -> x < y -> f x < f y) ->
  StronglySorted Z.lt (map f l).
Proof.
  induction 1 as [| x l Hs IH Hall]; intros Hf; simpl; [constructor |].
  constructor.
  - apply IH. intros a b Ha Hb. apply Hf; right; assumption.
  - apply Forall_forall. intros y Hy. apply in_map_iff in Hy.
    destruct Hy as (z & <- & Hz). rewrite Forall_forall in Hall.
    apply Hf; [left; reflexivity | right; exact Hz | apply Hall; exact Hz].
Qed.

Lemma sorted_nth_lt (l : list Z) (i j : nat) :
  StronglySorted Z.lt l -> (i < j < length l)%nat -> nth i l 0 < nth j l 0.
Proof.
  intros Hs. revert i j. induction Hs as [| x l Hs IH Hall]; intros i j Hij;
    simpl in *; [lia |].
  destruct j as [| j]; [lia |]. destruct i as [| i].
  - rewrite Forall_forall in Hall. apply Hall. apply nth_In. lia.
  - apply IH. lia.
Qed.

(** ** Compaction of the working set *)

Module BreadthFirstFacts.
Import BreadthFirst.

Section Compaction.

Variable Max_selected_nodes : Z.
Hypothesis Hcap : 1 <= Max_selected_nodes < 2 ^ 31.

Variable available_nodes_local_id : list Z.
Variable selection_map : Z -> bool.

Abbreviation lnid :=
  (get_lnid_from_available_children_index available_nodes_local_id).
Abbreviation one_step :=
  (compact_step Max_selected_nodes available_nodes_local_id selection_map).

(** The state of the compaction loop after the selected candidates [done]:
    the count is capped at the capacity and, as long as no more candidates
    were selected than fit, the temporary array holds their local ids.
    Nothing is said about the array once a store has gone past its end. *)
Definition compacted (c : compaction) (done : list Z) : Prop :=
  c_num_available_nodes c = Z.min (Z.of_nat (length done)) Max_selected_nodes /\
  length (c_temp_new_node_ids c) = Z.to_nat Max_selected_nodes /\
  (Z.of_nat (length done) <= Max_selected_nodes ->
   firstn (length done) (c_temp_new_node_ids c) = done).

Lemma capacity_wrap32 : wrap32 Max_selected_nodes = Max_selected_nodes.
Proof.
  apply wrap32_small. lia.
Qed.

Lemma compact_step_selected (c : compaction) (done : list Z) (i : Z) :
  compacted c done -> selection_map i = true ->
  compacted (one_step c i) (done ++ [lnid i]).
Proof.
  intros (Hn & Hlen & Hpre) Hsel.
  unfold compact_step. rewrite Hsel. unfold compacted.
  cbn [c_num_available_nodes c_temp_new_node_ids].
  rewrite capacity_wrap32, length_app. cbn [length].
  assert (wrap32 (c_num_available_nodes c + 1) = c_num_available_nodes c + 1)
    as Hw.
  { apply wrap32_small. lia. }
  rewrite Hw. split; [lia |]. split.
  - rewrite array_set_length. exact Hlen.
  - (* room left: the id is stored at the next free slot *)
    intros Hfit.
    rewrite Z.min_l in Hn by lia. specialize (Hpre ltac:(lia)).
    unfold array_set.
    destruct (c_num_available_nodes c <? 0) eqn:E;
      [apply Z.ltb_lt in E; lia |].
    rewrite Hn, Nat2Z.id.
    replace (length done + 1)%nat with (S (length done)) by lia.
    rewrite firstn_succ_list_update by lia.
    rewrite Hpre. reflexivity.
Qed.

Lemma compact_fold_spec (l : list Z) :
  forall (c : compaction) (done : list Z),
    compacted c done ->
    compacted (fold_left one_step l c) (done ++ map lnid (filter selection_map l)).
Proof.
  induction l as [| i l IH]; intros c done Hc; simpl.
  - rewrite app_nil_r. exact Hc.
  - destruct (selection_map i) eqn:Hsel.
    + simpl. replace (done ++ lnid i :: map lnid (filter selection_map l))
        with ((done ++ [lnid i]) ++ map lnid (filter selection_map l))
        by (rewrite <- app_assoc; reflexivity).
      apply IH. apply compact_step_selected; assumption.
    + apply IH. unfold compact_step. rewrite Hsel. exact Hc.
Qed.

(** The compaction loop counts the selected candidates up to the capacity
    and, when they fit, keeps their local ids in candidate order. *)
Lemma compact_spec (log : list access) :
  compacted (compact Max_selected_nodes available_nodes_local_id selection_map log)
    (map lnid (filter selection_map (zrange (Max_children Max_selected_nodes)))).
Proof.
  unfold compact.
  apply (compact_fold_spec _ _ []).
  unfold compacted; simpl. rewrite repeat_length.
  split; [lia |]. split; reflexivity.
Qed.

(** The copy loop moves the first [n] entries of the temporary array into
    the working set. *)
Lemma copy_back_fold (temp : list Z) (n : nat) :
  forall acc : list Z * list access,
    (n <= length temp)%nat -> (n <= length (fst acc))%nat ->
    fst (fold_left (copy_back_step temp) (map Z.of_nat (seq 0 n)) acc)
    = firstn n temp ++ skipn n (fst acc).
Proof.
  induction n as [| n IH]; intros acc Ht Ha.
  - reflexivity.
  - rewrite seq_S, map_app, fold_left_app.
    rewrite (firstn_succ_nth temp n) by lia.
    cbn [map fold_left Nat.add]. unfold copy_back_step at 1. cbn [fst].
    rewrite IH by lia. unfold array_set, array_get.
    destruct (Z.of_nat n <? 0) eqn:E; [apply Z.ltb_lt in E; lia |].
    rewrite Nat2Z.id. rewrite <- app_assoc.
    assert (length (firstn n temp) = n) as Hl by (rewrite length_firstn; lia).
    clear IH E. revert Hl. generalize (firstn n temp) as pre.
    intros pre Hl. generalize (nth n temp 0) as v. intros v.
    subst n. clear Ht. revert Ha. generalize (fst acc) as a. clear acc.
    induction pre as [| p pre IHp]; intros a Ha; simpl in *.
    + destruct a as [| x a]; simpl in *; [lia |]. reflexivity.
    + destruct a as [| x a]; simpl in *; [lia |]. f_equal.
      apply IHp. lia.
Qed.

Lemma copy_back_spec (c : compaction) (done : list Z) :
  compacted c done ->
  length available_nodes_local_id = Z.to_nat Max_selected_nodes ->
  let ids := fst (copy_back c available_nodes_local_id) in
  length ids = Z.to_nat Max_selected_nodes /\
  (Z.of_nat (length done) <= Max_selected_nodes ->
   firstn (length done) ids = done).
Proof.
  intros (Hn & Hlen & Hpre) Hws. simpl. unfold copy_back, zrange.
  rewrite copy_back_fold by (simpl; lia). simpl.
  assert (length (firstn (Z.to_nat (c_num_available_nodes c))
                    (c_temp_new_node_ids c))
          = Z.to_nat (c_num_available_nodes c)) as Hl
      by (rewrite length_firstn; lia).
  split.
  - rewrite length_app, Hl, length_skipn. lia.
  - intros Hfit. specialize (Hpre Hfit).
    rewrite Z.min_l in Hn by exact Hfit. rewrite Hn, Nat2Z.id in *.
    rewrite firstn_app, Hl, Nat.sub_diag. simpl. rewrite app_nil_r.
    rewrite firstn_firstn, Nat.min_id. exact Hpre.
Qed.

End Compaction.

End BreadthFirstFacts.

(** ** One level of the breadth-first traversal *)

Module BreadthFirstLevel.
Import BreadthFirst BreadthFirstFacts.

Definition live {H : Type} (s : state H) : list Z :=
  firstn (Z.to_nat (num_available_nodes s)) (available_nodes_local_id s).

(** The working set fits its array. *)
Definition count_ok {H : Type} (Max_selected_nodes : Z) (s : state H) : Prop :=
  0 <= num_available_nodes s <= Max_selected_nodes /\
  length (available_nodes_local_id s) = Z.to_nat Max_selected_nodes.

(** The live entries of the working set are nodes of level [lvl] given from
    left to right, each of them used. *)
Definition working_set_ok (levels num_particles lvl : Z) (entries : list Z)
  : Prop :=
  StronglySorted Z.lt entries /\
  Forall (fun e => 0 <= e /\ leftmost_leaf (mk_key lvl e) levels < num_particles)
         entries.

Lemma in_firstn (k : nat) (l : list Z) (x : Z) : In x (firstn k l) -> In x l.
Proof.
  intros Hx. rewrite <- (firstn_skipn k l). apply in_or_app. left. exact Hx.
Qed.

Section Level.

Context {H : Type}.
Variable hd : handler H.
Variable Max_selected_nodes : Z.
Variables num_particles effective_num_levels : Z.
Hypothesis Hcap : 1 <= Max_selected_nodes < 2 ^ 31.

Abbreviation body :=
  (level_body hd Max_selected_nodes num_particles effective_num_levels).
Abbreviation children_count :=
  (count_available_children num_particles effective_num_levels).

(** The selection map the compaction loop reads at a level. *)
Definition selection_map_of (level : Z) (s : state H) : Z -> bool :=
  fst (bfs_node_selector hd (handler_state s) level
         (available_nodes_local_id s) (children_count level s)).

(** The candidates selected at a level, in candidate order. *)
Definition selected_candidates (level : Z) (s : state H) : list Z :=
  filter (selection_map_of level s) (zrange (Max_children Max_selected_nodes)).

Lemma level_body_events (level : Z) (s : state H) :
  events (body level s)
  = events s
    ++ [NodeSelector level (available_nodes_local_id s)
          (num_available_nodes s) (children_count level s)].
Proof.
  unfold level_body.
  destruct (bfs_node_selector hd (handler_state s) level
              (available_nodes_local_id s) (children_count level s))
    as [decide h1].
  destruct (copy_back _ _) as [ids log']. reflexivity.
Qed.

(** After the body of a level the count is the number of selected
    candidates, capped at the capacity; when they fit the working set holds
    their local ids, in candidate order. *)
Lemma level_body_spec (level : Z) (s : state H) :
  count_ok Max_selected_nodes s ->
  let ids :=
    map (get_lnid_from_available_children_index (available_nodes_local_id s))
        (selected_candidates level s) in
  count_ok Max_selected_nodes (body level s) /\
  num_available_nodes (body level s)
  = Z.min (Z.of_nat (length ids)) Max_selected_nodes /\
  (Z.of_nat (length ids) <= Max_selected_nodes -> live (body level s) = ids).
Proof.
  intros [Hn Hlen]. simpl.
  unfold live, selected_candidates, selection_map_of, level_body.
  destruct (bfs_node_selector hd (handler_state s) level
              (available_nodes_local_id s) (children_count level s))
    as [sel h1].
  cbn [fst].
  set (log := accesses s ++ _).
  pose proof (compact_spec Max_selected_nodes Hcap (available_nodes_local_id s)
                sel log) as Hc.
  pose proof (copy_back_spec Max_selected_nodes Hcap
                (available_nodes_local_id s) _ _ Hc Hlen) as [Hl Hf].
  destruct (copy_back _ _) as [ids log'] eqn:Hcb. cbn [fst] in Hl, Hf.
  unfold count_ok. cbn [num_available_nodes available_nodes_local_id].
  destruct Hc as (Hnum & _ & _).
  split; [split; [lia | exact Hl] |]. split; [exact Hnum |].
  intros Hfit. rewrite Hnum, Z.min_l, Nat2Z.id by exact Hfit.
  apply Hf. exact Hfit.
Qed.

Lemma selected_candidates_sorted (level : Z) (s : state H) :
  StronglySorted Z.lt (selected_candidates level s).
Proof. apply filter_sorted. apply zrange_sorted. Qed.

(** A handler that keeps to its offer selects offered candidates only. *)
Lemma selected_candidates_offered (last_level level : Z) (s : state H) (j : Z) :
  selects_offered_only hd last_level -> level <= last_level ->
  In j (selected_candidates level s) -> 0 <= j < children_count level s.
Proof.
  intros Hkeeps Hl Hj. apply filter_In in Hj. destruct Hj as [_ Hsel].
  unfold selection_map_of in Hsel.
  apply (Hkeeps _ _ _ _ _ Hl Hsel).
Qed.

(** Inside the loop body the working set is not empty, and the count of
    children is computed without wrap-around. *)
Lemma children_count_spec (level : Z) (s : state H) :
  count_ok Max_selected_nodes s -> num_available_nodes s <> 0 ->
  1 <= level < 64 ->
  children_count level s
  = 2 * num_available_nodes s
    - (if binary_tree_is_node_used
            (binary_tree_get_children_last
               (binary_tree_key_init (level - 1)
                  (array_get (available_nodes_local_id s)
                             (num_available_nodes s - 1))))
            effective_num_levels num_particles
       then 0 else 1).
Proof.
  intros [Hn Hlen] Hne Hlvl. unfold count_available_children.
  rewrite (wrap32_small (2 * num_available_nodes s))
    by lia.
  rewrite (wrap32_small (level - 1)) by lia.
  rewrite (wrap32_small (num_available_nodes s - 1))
    by lia.
  destruct (binary_tree_is_node_used _ _ _); cbn [negb]; [lia |].
  rewrite wrap32_small by lia. lia.
Qed.

End Level.

End BreadthFirstLevel.

(** ** The level loop *)

Module BreadthFirstLoop.
Import BreadthFirst BreadthFirstFacts BreadthFirstLevel.

Definition is_node_selector (e : event) : Prop :=
  match e with NodeSelector _ _ _ _ => True | _ => False end.

(** The levels of the node-level iterations of a run, in order. *)
Fixpoint selector_levels (es : list event) : list Z :=
  match es with
  | [] => []
  | NodeSelector level _ _ _ :: t => level :: selector_levels t
  | _ :: t => selector_levels t
  end.

Lemma selector_levels_app (a b : list event) :
  selector_levels (a ++ b) = selector_levels a ++ selector_levels b.
Proof.
  induction a as [| e a IH]; [reflexivity |].
  destruct e; simpl; rewrite IH; reflexivity.
Qed.

Section Loop.

Context {H : Type}.
Variable hd : handler H.
Variable Max_selected_nodes : Z.
Variables num_particles effective_num_levels : Z.

Abbreviation body :=
  (level_body hd Max_selected_nodes num_particles effective_num_levels).
Abbreviation loop :=
  (level_loop hd Max_selected_nodes num_particles effective_num_levels).
Abbreviation children_count :=
  (count_available_children num_particles effective_num_levels).

(** The level loop only adds node-selector events, one per iteration, for a
    prefix of the levels it was given. *)
Lemma level_loop_events (levels_to_come : list Z) :
  forall s : state H,
    exists (nodes : list event) (k : nat),
      events (loop levels_to_come s) = events s ++ nodes /\
      Forall is_node_selector nodes /\
      selector_levels nodes = firstn k levels_to_come.
Proof.
  induction levels_to_come as [| level rest IH]; intros s.
  - exists [], O. simpl. rewrite app_nil_r. auto.
  - simpl.
    destruct ((num_available_nodes s =? 0)
              || (level =? wrap64 (effective_num_levels - 1))).
    + exists [], O. simpl. rewrite app_nil_r. auto.
    + destruct (IH (body level s)) as (nodes & k & He & Hf & Hl).
      rewrite level_body_events in He.
      exists (NodeSelector level (available_nodes_local_id s)
                (num_available_nodes s) (children_count level s) :: nodes),
             (S k).
      split; [rewrite He, <- app_assoc; reflexivity |].
      split; [constructor; [exact I | exact Hf] |].
      simpl. rewrite Hl. reflexivity.
Qed.

(** A level-indexed invariant kept by the body holds when the loop is left,
    and so does a property of every node-selector event. *)
Lemma level_loop_invariant (Inv : Z -> state H -> Prop) (P : event -> Prop) :
  (forall (level : Z) (s : state H),
      1 <= level < 64 -> Inv level s ->
      num_available_nodes s <> 0 ->
      level <> wrap64 (effective_num_levels - 1) ->
      Inv (level + 1) (body level s) /\
      P (NodeSelector level (available_nodes_local_id s)
           (num_available_nodes s) (children_count level s))) ->
  forall (k a : nat) (s : state H),
    (1 <= a)%nat -> (a + k <= 64)%nat ->
    Inv (Z.of_nat a) s -> Forall P (events s) ->
    Forall P (events (loop (map Z.of_nat (seq a k)) s)) /\
    exists level' : Z,
      Z.of_nat a <= level' <= Z.of_nat (a + k) /\
      Inv level' (loop (map Z.of_nat (seq a k)) s) /\
      (num_available_nodes (loop (map Z.of_nat (seq a k)) s) = 0 \/
       level' = wrap64 (effective_num_levels - 1) \/
       level' = Z.of_nat (a + k)).
Proof.
  intros Hbody. induction k as [| k IH]; intros a s Ha Hak HI HP.
  - simpl. split; [exact HP |]. exists (Z.of_nat a).
    split; [lia |]. split; [exact HI |]. right. right. f_equal. lia.
  - simpl.
    destruct (num_available_nodes s =? 0) eqn:En.
    + simpl. split; [exact HP |]. exists (Z.of_nat a).
      split; [lia |]. split; [exact HI |]. left. apply Z.eqb_eq. exact En.
    + destruct (Z.of_nat a =? wrap64 (effective_num_levels - 1)) eqn:El.
      * simpl. split; [exact HP |]. exists (Z.of_nat a).
        split; [lia |]. split; [exact HI |]. right. left.
        apply Z.eqb_eq. exact El.
      * simpl. apply Z.eqb_neq in En. apply Z.eqb_neq in El.
        destruct (Hbody (Z.of_nat a) s ltac:(lia) HI En El) as [HI' HP'].
        destruct (IH (S a) (body (Z.of_nat a) s)) as (HF & l' & Hl' & HI'' & Hex).
        -- lia.
        -- lia.
        -- replace (Z.of_nat (S a)) with (Z.of_nat a + 1) by lia. exact HI'.
        -- rewrite level_body_events. apply Forall_app. split; [exact HP |].
           constructor; [exact HP' | constructor].
        -- split; [exact HF |]. exists l'.
           split; [lia |]. split; [exact HI'' |].
           replace (a + S k)%nat with (S a + k)%nat by lia. exact Hex.
Qed.

End Loop.

End BreadthFirstLoop.

(** ** Breadth-first engine: the shape of a run *)

Module BreadthFirstRun.
Import BreadthFirst BreadthFirstFacts BreadthFirstLevel BreadthFirstLoop.

Lemma firstn_seq (k start len : nat) :
  firstn k (seq start len) = seq start (Nat.min k len).
Proof.
  revert start len. induction k as [| k IH]; intros start [| len]; simpl;
    try reflexivity.
  rewrite IH. reflexivity.
Qed.


Section Run.

Context {H : Type}.
Variable hd : handler H.
Variable Max_selected_nodes : Z.
Variables num_particles effective_num_levels : Z.

Abbreviation the_query :=
  (query hd Max_selected_nodes num_particles effective_num_levels).
Abbreviation left_loop :=
  (after_levels hd Max_selected_nodes num_particles effective_num_levels).
Abbreviation pass :=
  (particle_pass hd num_particles).

Lemma after_levels_events :
  exists (nodes : list event) (k : nat),
    events left_loop = QueryInit :: nodes /\
    Forall is_node_selector nodes /\
    selector_levels nodes = map Z.of_nat (seq 1 (Nat.min k 63)).
Proof.
  unfold after_levels.
  destruct (level_loop_events hd Max_selected_nodes num_particles
              effective_num_levels node_levels (query_start hd Max_selected_nodes))
    as (nodes & k & He & Hf & Hl).
  exists nodes, k. split; [exact He |]. split; [exact Hf |].
  rewrite Hl. unfold node_levels. rewrite firstn_map, firstn_seq. reflexivity.
Qed.

Lemma particle_pass_events (s : state H) :
  events (pass s)
  = events s
    ++ (if 0 <? num_available_nodes s
        then [ParticleProcessor (available_nodes_local_id s)
                (num_available_nodes s)
                (let n := wrap32 (2 * num_available_nodes s) in
                 if num_particles
                    <=? get_lnid_from_available_children_index
                          (available_nodes_local_id s) (wrap32 (n - 1))
                 then wrap32 (n - 1) else n)]
        else []).
Proof.
  unfold particle_pass. destruct (0 <? num_available_nodes s).
  - reflexivity.
  - rewrite app_nil_r. reflexivity.
Qed.

Lemma query_events : events the_query = events (pass left_loop) ++ [QueryExit].
Proof. reflexivity. Qed.

(** The count of the working set is never negative. *)
Lemma compact_fold_nonneg (ws : list Z) (sel : Z -> bool) (l : list Z) :
  forall c : compaction,
    0 <= c_num_available_nodes c ->
    0 <= c_num_available_nodes
           (fold_left (compact_step Max_selected_nodes ws sel) l c).
Proof.
  induction l as [| i l IH]; intros c Hc; simpl; [exact Hc |].
  apply IH. unfold compact_step. destruct (sel i); [| exact Hc].
  simpl. unfold wrap32.
  pose proof (Z.mod_pos_bound (c_num_available_nodes c + 1) (2 ^ 32)
                ltac:(reflexivity)).
  pose proof (Z.mod_pos_bound Max_selected_nodes (2 ^ 32) ltac:(reflexivity)).
  lia.
Qed.

Lemma level_loop_count_nonneg (levels_to_come : list Z) :
  forall s : state H,
    0 <= num_available_nodes s ->
    0 <= num_available_nodes
           (level_loop hd Max_selected_nodes num_particles
              effective_num_levels levels_to_come s).
Proof.
  induction levels_to_come as [| level rest IH]; intros s Hs; simpl;
    [exact Hs |].
  destruct ((num_available_nodes s =? 0)
            || (level =? wrap64 (effective_num_levels - 1))); [exact Hs |].
  apply IH. unfold level_body.
  destruct (bfs_node_selector hd (handler_state s) level
              (available_nodes_local_id s) _) as [decide h1].
  destruct (copy_back _ _) as [ids log']. cbn [num_available_nodes].
  unfold compact. apply compact_fold_nonneg. simpl. lia.
Qed.

Lemma after_levels_count_nonneg : 0 <= num_available_nodes left_loop.
Proof.
  unfold after_levels. apply level_loop_count_nonneg. simpl. lia.
Qed.

Hypothesis Hcap : 1 <= Max_selected_nodes < 2 ^ 31.

Lemma query_start_count_ok :
  count_ok Max_selected_nodes (query_start hd Max_selected_nodes).
Proof.
  unfold count_ok, query_start; simpl. split; [lia |].
  unfold array_set. simpl. rewrite list_update_length, repeat_length.
  reflexivity.
Qed.




End Run.

End BreadthFirstRun.

(** * Main results on the shape of a breadth-first run *)

Import BreadthFirstFacts BreadthFirstLevel BreadthFirstLoop BreadthFirstRun.



(** ** The calls a breadth-first query makes to its handler *)

Module BreadthFirstRecording.
Import BreadthFirst.

(** A run under [recording hd] goes as the run under [hd], and the list the
    handler keeps holds one call per event, in order. *)
Definition recorded {H : Type} (s : state H) (r : state (H * list call))
  : Prop :=
  num_available_nodes r = num_available_nodes s /\
  available_nodes_local_id r = available_nodes_local_id s /\
  fst (handler_state r) = handler_state s /\
  snd (handler_state r) = map call_of_event (events s) /\
  events r = events s /\
  accesses r = accesses s.

Section Recording.

Context {H : Type}.
Variable hd : handler H.
Variable Max_selected_nodes : Z.
Variables num_particles effective_num_levels : Z.

Lemma query_start_recorded :
  recorded (query_start hd Max_selected_nodes)
    (query_start (recording hd) Max_selected_nodes).
Proof. repeat split. Qed.

Lemma level_body_recorded (level : Z) (s : state H)
  (r : state (H * list call)) :
  recorded s r ->
  recorded
    (level_body hd Max_selected_nodes num_particles effective_num_levels level s)
    (level_body (recording hd) Max_selected_nodes num_particles
       effective_num_levels level r).
Proof.
  destruct s as [n ws h es log]. destruct r as [n' ws' [h' calls] es' log'].
  unfold recorded. cbn [num_available_nodes available_nodes_local_id
                          handler_state events accesses fst snd].
  intros (-> & -> & -> & -> & -> & ->).
  unfold level_body.
  cbn [num_available_nodes available_nodes_local_id handler_state events
         accesses recording bfs_node_selector fst snd].
  unfold count_available_children.
  cbn [num_available_nodes available_nodes_local_id].
  destruct (bfs_node_selector hd h level ws _) as [selection_map h1].
  cbn [fst snd].
  destruct (copy_back _ _) as [ids log2].
  cbn [num_available_nodes available_nodes_local_id handler_state events
         accesses fst snd].
  rewrite map_app. repeat split.
Qed.

Lemma level_loop_recorded (levels_to_come : list Z) :
  forall (s : state H) (r : state (H * list call)),
    recorded s r ->
    recorded
      (level_loop hd Max_selected_nodes num_particles effective_num_levels
         levels_to_come s)
      (level_loop (recording hd) Max_selected_nodes num_particles
         effective_num_levels levels_to_come r).
Proof.
  induction levels_to_come as [| level rest IH]; intros s r Hr;
    [exact Hr |].
  cbn [level_loop]. destruct Hr as (Hn & Hrest).
  rewrite Hn.
  destruct ((num_available_nodes s =? 0)
            || (level =? wrap64 (effective_num_levels - 1))).
  - split; assumption.
  - apply IH. apply level_body_recorded. split; assumption.
Qed.

Lemma particle_pass_recorded (s : state H) (r : state (H * list call)) :
  recorded s r ->
  recorded (particle_pass hd num_particles s)
    (particle_pass (recording hd) num_particles r).
Proof.
  destruct s as [n ws h es log]. destruct r as [n' ws' [h' calls] es' log'].
  unfold recorded. cbn [num_available_nodes available_nodes_local_id
                          handler_state events accesses fst snd].
  intros (-> & -> & -> & -> & -> & ->).
  unfold particle_pass.
  cbn [num_available_nodes available_nodes_local_id handler_state events
         accesses].
  destruct (0 <? n); [| repeat split].
  cbv zeta.
  cbn [num_available_nodes available_nodes_local_id handler_state events
         accesses recording bfs_particle_processor fst snd].
  rewrite map_app. repeat split.
Qed.

(** The handler state a query under [recording hd] returns: the state the
    query under [hd] returns, and the calls of the run, one per event. *)
Lemma query_recorded :
  handler_state
    (query (recording hd) Max_selected_nodes num_particles effective_num_levels)
  = (handler_state
       (query hd Max_selected_nodes num_particles effective_num_levels),
     map call_of_event
       (events (query hd Max_selected_nodes num_particles
                  effective_num_levels))).
Proof.
  pose proof (particle_pass_recorded _ _
                (level_loop_recorded node_levels _ _ query_start_recorded))
    as (_ & _ & Hh & Hc & _ & _).
  unfold query, after_levels.
  cbn [handler_state events recording at_query_exit].
  rewrite Hh, Hc, map_app. reflexivity.
Qed.

End Recording.

End BreadthFirstRecording.

Import BreadthFirstRecording.

(** C7: the query-init hook runs exactly once, first; the query-exit hook
    runs exactly once, last; in between there are only node-level iterations
    and, exactly when the working set is not empty after the level loop, one
    call of the particle processor.  When the working set has become empty the
    particle processor is not called and query-exit still runs.  These are
    the calls the handler really receives: a handler that records its calls
    ends the query holding exactly this list, one call per event, and its
    decisions and final state are those of the handler it records. *)
Theorem bfs_hooks_once {H : Type} (hd : handler H)
  (Max_selected_nodes num_particles effective_num_levels : Z) :
  let s :=
    BreadthFirst.after_levels hd Max_selected_nodes num_particles
      effective_num_levels in
  let run :=
    BreadthFirst.query hd Max_selected_nodes num_particles
      effective_num_levels in
  (exists nodes : list BreadthFirst.event,
      Forall is_node_selector nodes /\
      ((BreadthFirst.num_available_nodes s = 0 /\
        BreadthFirst.events run
        = BreadthFirst.QueryInit :: nodes ++ [BreadthFirst.QueryExit])
       \/
       (0 < BreadthFirst.num_available_nodes s /\
        exists count : Z,
          BreadthFirst.events run
          = BreadthFirst.QueryInit
              :: nodes
                 ++ [BreadthFirst.ParticleProcessor
                       (BreadthFirst.available_nodes_local_id s)
                       (BreadthFirst.num_available_nodes s) count;
                     BreadthFirst.QueryExit])))
  /\
  BreadthFirst.handler_state
    (BreadthFirst.query (recording hd) Max_selected_nodes num_particles
       effective_num_levels)
  = (BreadthFirst.handler_state run,
     map call_of_event (BreadthFirst.events run)).
Proof.
  intros s run. subst s run. split; [| apply query_recorded].
  destruct (after_levels_events hd Max_selected_nodes num_particles
              effective_num_levels) as (nodes & k & He & Hf & _).
  exists nodes. split; [exact Hf |].
  rewrite query_events, particle_pass_events, He.
  destruct (0 <? _) eqn:E.
  - right. apply Z.ltb_lt in E. split; [exact E |].
    eexists. simpl. rewrite <- app_assoc. reflexivity.
  - left. apply Z.ltb_ge in E.
    pose proof (after_levels_count_nonneg hd Max_selected_nodes num_particles
                  effective_num_levels).
    split; [lia |]. rewrite app_nil_r. reflexivity.
Qed.

(** C10: whatever the level count and the handler, the node-level loop runs
    for levels 1, 2, ..., k in this order with k <= 63, so a query makes at
    most 63 node-level iterations; the bound is reached when the break test
    never fires, as for a tree of one particle (one level) under a handler
    that selects everything. *)
Theorem bfs_at_most_63_levels :
  (forall (H : Type) (hd : handler H)
          (Max_selected_nodes num_particles effective_num_levels : Z),
      exists k : nat,
        (k <= 63)%nat /\
        selector_levels
          (BreadthFirst.events
             (BreadthFirst.query hd Max_selected_nodes num_particles
                effective_num_levels))
        = map Z.of_nat (seq 1 k)) /\
  selector_levels (BreadthFirst.events (BreadthFirst.query select_all 2 1 1))
  = map Z.of_nat (seq 1 63).
Proof.
  split; [| vm_compute; reflexivity].
  intros H hd Max_selected_nodes num_particles effective_num_levels.
  destruct (after_levels_events hd Max_selected_nodes num_particles
              effective_num_levels) as (nodes & k & He & _ & Hl).
  exists (Nat.min k 63). split; [lia |].
  rewrite query_events, particle_pass_events, He.
  cbn [selector_levels app]. rewrite !selector_levels_app, Hl.
  destruct (0 <? _); simpl; rewrite !app_nil_r; reflexivity.
Qed.

(** ** Breadth-first engine: runs without an access out of range *)

Module BreadthFirstOverflow.
Import BreadthFirst BreadthFirstFacts BreadthFirstLevel BreadthFirstLoop
  BreadthFirstRun.

Lemma accesses_in_bounds_spec {H : Type} (capacity : Z) (s : state H) :
  accesses_in_bounds capacity s = true <->
  (forall x : access, In x (accesses s) -> in_bounds capacity x = true).
Proof. unfold accesses_in_bounds. apply forallb_forall. Qed.

Section Overflow.

Context {H : Type}.
Variable hd : handler H.
Variable Max_selected_nodes : Z.
Variables num_particles effective_num_levels : Z.
Hypothesis Hcap : 1 <= Max_selected_nodes < 2 ^ 31.

Abbreviation body :=
  (level_body hd Max_selected_nodes num_particles effective_num_levels).
Abbreviation loop :=
  (level_loop hd Max_selected_nodes num_particles effective_num_levels).
Abbreviation children_count :=
  (count_available_children num_particles effective_num_levels).
Abbreviation defined s := (accesses_in_bounds Max_selected_nodes s = true).

(** The log of the compaction loop only grows. *)
Lemma compact_fold_log_grows (ws : list Z) (sel : Z -> bool) (l : list Z)
  (x : access) :
  forall c : compaction,
    In x (c_accesses c) ->
    In x (c_accesses (fold_left (compact_step Max_selected_nodes ws sel) l c)).
Proof.
  induction l as [| i l IH]; intros c Hx; simpl; [exact Hx |].
  apply IH. unfold compact_step. destruct (sel i); [| exact Hx].
  simpl. apply in_or_app. left. exact Hx.
Qed.

(** When more candidates are selected than fit, the compaction loop stores
    one past the end of temp_new_node_ids. *)
Lemma compact_fold_overflow (ws : list Z) (sel : Z -> bool) (l : list Z) :
  forall (c : compaction) (done : list Z),
    compacted Max_selected_nodes c done ->
    Max_selected_nodes < Z.of_nat (length done + length (filter sel l)) ->
    Z.of_nat (length done) <= Max_selected_nodes ->
    In (ArrayStore temp_new_node_ids_array Max_selected_nodes)
       (c_accesses (fold_left (compact_step Max_selected_nodes ws sel) l c)).
Proof.
  induction l as [| i l IH]; intros c done Hc Hmore Hdone;
    cbn [filter fold_left] in *.
  - cbn [length] in Hmore. lia.
  - destruct (sel i) eqn:Hsel.
    + pose proof (compact_step_selected Max_selected_nodes Hcap ws sel c done i
                    Hc Hsel) as Hc'.
      destruct (Z.eq_dec (Z.of_nat (length done)) Max_selected_nodes) as [E | E].
      * apply compact_fold_log_grows. unfold compact_step. rewrite Hsel.
        cbn [c_accesses]. apply in_or_app. right. right. left.
        destruct Hc as (Hn & _). rewrite Hn, Z.min_r by lia. reflexivity.
      * apply (IH _ (done ++ [get_lnid_from_available_children_index ws i]) Hc').
        -- rewrite length_app. cbn [length] in *. lia.
        -- rewrite length_app. cbn [length]. lia.
    + replace (compact_step Max_selected_nodes ws sel c i) with c
        by (unfold compact_step; rewrite Hsel; reflexivity).
      apply (IH c done); assumption.
Qed.

(** The logs of the copy loop, of a level, of the level loop and of the
    particle pass only grow. *)
Lemma copy_back_fold_log_grows (temp : list Z) (l : list Z) (x : access) :
  forall acc : list Z * list access,
    In x (snd acc) -> In x (snd (fold_left (copy_back_step temp) l acc)).
Proof.
  induction l as [| i l IH]; intros acc Hx; simpl; [exact Hx |].
  apply IH. unfold copy_back_step. cbn [snd]. apply in_or_app. left. exact Hx.
Qed.

Lemma level_body_log_grows (level : Z) (s : state H) (x : access) :
  In x (accesses s) -> In x (accesses (body level s)).
Proof.
  intros Hx. unfold level_body.
  destruct (bfs_node_selector hd (handler_state s) level
              (available_nodes_local_id s) _) as [sel h1].
  destruct (copy_back _ _) as [ids log2] eqn:Hcb. cbn [accesses].
  replace log2 with (snd (copy_back
                            (compact Max_selected_nodes
                               (available_nodes_local_id s) sel
                               (accesses s
                                ++ [ArrayLoad available_nodes_local_id_array
                                      (wrap32 (num_available_nodes s - 1))]))
                            (available_nodes_local_id s)))
    by (rewrite Hcb; reflexivity).
  unfold copy_back. apply copy_back_fold_log_grows. cbn [snd].
  unfold compact. apply compact_fold_log_grows. cbn [c_accesses].
  apply in_or_app. left. exact Hx.
Qed.

Lemma level_loop_log_grows (levels_to_come : list Z) (x : access) :
  forall s : state H,
    In x (accesses s) -> In x (accesses (loop levels_to_come s)).
Proof.
  induction levels_to_come as [| level rest IH]; intros s Hx; [exact Hx |].
  cbn [level_loop].
  destruct ((num_available_nodes s =? 0)
            || (level =? wrap64 (effective_num_levels - 1))); [exact Hx |].
  apply IH. apply level_body_log_grows. exact Hx.
Qed.

Lemma particle_pass_log_grows (s : state H) (x : access) :
  In x (accesses s) -> In x (accesses (particle_pass hd num_particles s)).
Proof.
  intros Hx. unfold particle_pass.
  destruct (0 <? num_available_nodes s); [| exact Hx].
  cbv zeta. cbn [accesses]. apply in_or_app. left. exact Hx.
Qed.

(** A run without an access out of range had none before. *)
Lemma level_body_defined_before (level : Z) (s : state H) :
  defined (body level s) -> defined s.
Proof.
  rewrite !accesses_in_bounds_spec. intros Hall x Hx.
  apply Hall. apply level_body_log_grows. exact Hx.
Qed.

Lemma level_loop_defined_before (levels_to_come : list Z) (s : state H) :
  defined (loop levels_to_come s) -> defined s.
Proof.
  rewrite !accesses_in_bounds_spec. intros Hall x Hx.
  apply Hall. apply level_loop_log_grows. exact Hx.
Qed.

Lemma query_defined_before :
  defined (query hd Max_selected_nodes num_particles effective_num_levels) ->
  defined (after_levels hd Max_selected_nodes num_particles
             effective_num_levels).
Proof.
  rewrite !accesses_in_bounds_spec. intros Hall x Hx.
  apply Hall. unfold query. cbn [accesses].
  apply particle_pass_log_grows. exact Hx.
Qed.

(** At a level without an access out of range no more candidates were
    selected than the working set has room for. *)
Lemma level_body_fits (level : Z) (s : state H) :
  defined (body level s) ->
  Z.of_nat (length (selected_candidates hd Max_selected_nodes num_particles
                      effective_num_levels level s))
  <= Max_selected_nodes.
Proof.
  intros Hdef.
  destruct (Z_lt_le_dec Max_selected_nodes
              (Z.of_nat (length (selected_candidates hd Max_selected_nodes
                                   num_particles effective_num_levels level s))))
    as [Hmore | Hfit]; [| exact Hfit].
  exfalso. rewrite accesses_in_bounds_spec in Hdef.
  assert (in_bounds Max_selected_nodes
            (ArrayStore temp_new_node_ids_array Max_selected_nodes) = true)
    as Hin.
  { apply Hdef. unfold level_body.
    unfold selected_candidates, selection_map_of in Hmore.
    destruct (bfs_node_selector hd (handler_state s) level
                (available_nodes_local_id s) _) as [sel h1].
    cbn [fst] in Hmore.
    destruct (copy_back _ _) as [ids log2] eqn:Hcb. cbn [accesses].
    replace log2 with (snd (copy_back
                              (compact Max_selected_nodes
                                 (available_nodes_local_id s) sel
                                 (accesses s
                                  ++ [ArrayLoad available_nodes_local_id_array
                                        (wrap32 (num_available_nodes s - 1))]))
                              (available_nodes_local_id s)))
      by (rewrite Hcb; reflexivity).
    unfold copy_back. apply copy_back_fold_log_grows. cbn [snd].
    unfold compact.
    apply (compact_fold_overflow _ sel _ _ []).
    - unfold compacted; simpl. rewrite repeat_length.
      split; [lia |]. split; reflexivity.
    - simpl. exact Hmore.
    - simpl. lia. }
  unfold in_bounds in Hin. cbn [access_index] in Hin.
  apply andb_true_iff in Hin. destruct Hin as [_ Hin].
  apply Z.ltb_lt in Hin. lia.
Qed.

(** A level-indexed invariant kept by the body of every level without an
    access out of range holds when a loop without such an access is left,
    and so does a property of every node-selector event. *)
Lemma level_loop_invariant_defined (Inv : Z -> state H -> Prop)
  (P : event -> Prop) :
  (forall (level : Z) (s : state H),
      1 <= level < 64 -> Inv level s ->
      num_available_nodes s <> 0 ->
      level <> wrap64 (effective_num_levels - 1) ->
      defined (body level s) ->
      Inv (level + 1) (body level s) /\
      P (NodeSelector level (available_nodes_local_id s)
           (num_available_nodes s) (children_count level s))) ->
  forall (k a : nat) (s : state H),
    (1 <= a)%nat -> (a + k <= 64)%nat ->
    Inv (Z.of_nat a) s -> Forall P (events s) ->
    defined (loop (map Z.of_nat (seq a k)) s) ->
    Forall P (events (loop (map Z.of_nat (seq a k)) s)) /\
    exists level' : Z,
      Z.of_nat a <= level' <= Z.of_nat (a + k) /\
      Inv level' (loop (map Z.of_nat (seq a k)) s) /\
      (num_available_nodes (loop (map Z.of_nat (seq a k)) s) = 0 \/
       level' = wrap64 (effective_num_levels - 1) \/
       level' = Z.of_nat (a + k)).
Proof.
  intros Hbody. induction k as [| k IH]; intros a s Ha Hak HI HP Hdef.
  - simpl. split; [exact HP |]. exists (Z.of_nat a).
    split; [lia |]. split; [exact HI |]. right. right. f_equal. lia.
  - simpl. simpl in Hdef.
    destruct (num_available_nodes s =? 0) eqn:En.
    + simpl. split; [exact HP |]. exists (Z.of_nat a).
      split; [lia |]. split; [exact HI |]. left. apply Z.eqb_eq. exact En.
    + destruct (Z.of_nat a =? wrap64 (effective_num_levels - 1)) eqn:El.
      * simpl. split; [exact HP |]. exists (Z.of_nat a).
        split; [lia |]. split; [exact HI |]. right. left.
        apply Z.eqb_eq. exact El.
      * simpl. simpl in Hdef. apply Z.eqb_neq in En. apply Z.eqb_neq in El.
        pose proof (level_loop_defined_before _ _ Hdef) as Hdef'.
        destruct (Hbody (Z.of_nat a) s ltac:(lia) HI En El Hdef')
          as [HI' HP'].
        destruct (IH (S a) (body (Z.of_nat a) s)) as (HF & l' & Hl' & HI'' & Hex).
        -- lia.
        -- lia.
        -- replace (Z.of_nat (S a)) with (Z.of_nat a + 1) by lia. exact HI'.
        -- rewrite level_body_events. apply Forall_app. split; [exact HP |].
           constructor; [exact HP' | constructor].
        -- exact Hdef.
        -- split; [exact HF |]. exists l'.
           split; [lia |]. split; [exact HI'' |].
           replace (a + S k)%nat with (S a + k)%nat by lia. exact Hex.
Qed.

End Overflow.

End BreadthFirstOverflow.

(** ** Breadth-first engine: only used nodes and real particles are offered *)

Module BreadthFirstSafety.
Import BreadthFirst BreadthFirstFacts BreadthFirstLevel BreadthFirstLoop
  BreadthFirstRun.

(** Every node offered to the node selector is a used node above the
    particle level; every particle offered to the particle processor is a
    real one. *)
Definition offers_in_range (num_particles effective_num_levels : Z) (e : event)
  : Prop :=
  match e with
  | NodeSelector level working_set _ available_children =>
      1 <= level <= effective_num_levels - 2 /\
      Forall (fun node =>
                binary_tree_is_node_used node effective_num_levels num_particles
                = true)
             (candidate_nodes level working_set available_children)
  | ParticleProcessor working_set _ num_available_particles =>
      Forall (fun id =>
                0 <= get_lnid_from_available_children_index working_set id
                  < num_particles)
             (zrange num_available_particles)
  | _ => True
  end.

Section Candidates.

Variables num_particles effective_num_particles effective_num_levels : Z.
Hypothesis Hwf : tree_wf num_particles effective_num_particles effective_num_levels.

(** The candidates of level [lvl], children of the [n] live entries of the
    working set [ws]. *)
Variable lvl : Z.
Variable ws : list Z.
Variable n : Z.
Hypothesis Hlvl : 1 <= lvl <= effective_num_levels - 1.
Hypothesis Hn : 1 <= n.
Hypothesis Hws :
  working_set_ok effective_num_levels num_particles (lvl - 1)
    (firstn (Z.to_nat n) ws).
Hypothesis Hlen : (Z.to_nat n <= length ws)%nat.

Abbreviation lnid := (get_lnid_from_available_children_index ws).
Abbreviation width := (BT_LEAVES_PER_NODE lvl effective_num_levels).

Lemma entry_in_live (k : Z) :
  0 <= k < n -> In (array_get ws k) (firstn (Z.to_nat n) ws).
Proof.
  intros Hk. rewrite <- (array_get_firstn ws (Z.to_nat n)) by lia.
  unfold array_get. apply nth_In. rewrite length_firstn. lia.
Qed.

Lemma entry_range (k : Z) :
  0 <= k < n ->
  0 <= array_get ws k < 2 ^ 62 /\
  array_get ws k * (2 * width) < num_particles.
Proof.
  intros Hk. destruct Hws as [_ Hall]. rewrite Forall_forall in Hall.
  destruct (Hall _ (entry_in_live k Hk)) as [H0 Hused].
  unfold leftmost_leaf in Hused. cbn [level local_node_id] in Hused.
  rewrite (leaves_per_node_parent lvl) in Hused by lia.
  destruct Hwf as (HL & Heff & HN).
  pose proof (level_width (lvl - 1) effective_num_levels ltac:(lia)) as Hw.
  rewrite (leaves_per_node_parent lvl) in Hw by lia.
  pose proof (leaves_per_node_pos lvl effective_num_levels ltac:(lia)) as Hpos.
  assert (2 ^ (lvl - 1) <= 2 ^ 62) as Hp62 by (apply Z.pow_le_mono_r; lia).
  split; [| exact Hused]. split; [exact H0 |]. nia.
Qed.

Lemma entry_increasing (k k' : Z) :
  0 <= k < k' -> k' < n -> array_get ws k < array_get ws k'.
Proof.
  intros Hk Hk'. destruct Hws as [Hs _].
  rewrite <- (array_get_firstn ws (Z.to_nat n) k) by lia.
  rewrite <- (array_get_firstn ws (Z.to_nat n) k') by lia.
  unfold array_get. apply sorted_nth_lt; [exact Hs |].
  rewrite length_firstn. lia.
Qed.

(** Candidate [j] is child [j mod 2] of entry [j / 2]. *)
Lemma lnid_spec (j : Z) :
  0 <= j < 2 * n -> lnid j = 2 * array_get ws (j / 2) + j mod 2.
Proof.
  intros Hj. unfold get_lnid_from_available_children_index.
  rewrite shiftr_one, land_one. unfold BT_LOCAL_NODE_ID_OF_LEFT_CHILD.
  assert (0 <= j / 2 < n) as Hk.
  { split; [apply Z.div_pos; lia | apply Z.div_lt_upper_bound; lia]. }
  destruct (entry_range (j / 2) Hk) as [Hr _].
  pose proof (Z.mod_pos_bound j 2 ltac:(lia)) as Hm.
  rewrite (wrap64_small (array_get ws (j / 2) * 2))
    by lia.
  rewrite wrap64_small by lia.
  lia.
Qed.

Lemma lnid_increasing (j j' : Z) :
  0 <= j < j' -> j' < 2 * n -> lnid j < lnid j'.
Proof.
  intros Hj Hj'. rewrite !lnid_spec by lia.
  pose proof (Z.div_mod j 2 ltac:(lia)) as D.
  pose proof (Z.div_mod j' 2 ltac:(lia)) as D'.
  pose proof (Z.mod_pos_bound j 2 ltac:(lia)) as M.
  pose proof (Z.mod_pos_bound j' 2 ltac:(lia)) as M'.
  destruct (Z.eq_dec (j / 2) (j' / 2)) as [E | E].
  - rewrite E in *. lia.
  - assert (j / 2 < j' / 2) as Hlt by lia.
    pose proof (entry_increasing (j / 2) (j' / 2) ltac:(lia) ltac:(lia)). lia.
Qed.

(** Every candidate but the rightmost one is a used node of level [lvl]. *)
Lemma lnid_used (j : Z) :
  0 <= j < 2 * n - 1 ->
  0 <= lnid j /\ lnid j * width < num_particles.
Proof.
  intros Hj. rewrite lnid_spec by lia.
  pose proof (Z.div_mod j 2 ltac:(lia)) as D.
  pose proof (Z.mod_pos_bound j 2 ltac:(lia)) as M.
  assert (0 <= j / 2 < n) as Hk by lia.
  destruct (entry_range (j / 2) Hk) as [Hr Hu].
  pose proof (leaves_per_node_pos lvl effective_num_levels ltac:(lia)) as Hpos.
  split; [lia |].
  destruct (Z.eq_dec (j mod 2) 0) as [E | E].
  - rewrite E. lia.
  - assert (j / 2 < n - 1) as Hlast by lia.
    pose proof (entry_increasing (j / 2) (n - 1) ltac:(lia) ltac:(lia)) as Hi.
    destruct (entry_range (n - 1) ltac:(lia)) as [_ Hu'].
    assert (j mod 2 = 1) as E1 by lia. rewrite E1. nia.
Qed.

(** The rightmost candidate is the right child of the last entry. *)
Lemma lnid_rightmost :
  lnid (2 * n - 1) = array_get ws (n - 1) * 2 + 1 /\ 0 <= lnid (2 * n - 1).
Proof.
  rewrite lnid_spec by lia.
  replace ((2 * n - 1) / 2) with (n - 1)
    by (apply Z.div_unique with (r := 1); lia).
  replace ((2 * n - 1) mod 2) with 1
    by (apply Z.mod_unique with (q := n - 1); lia).
  destruct (entry_range (n - 1) ltac:(lia)) as [Hr _]. lia.
Qed.

End Candidates.

End BreadthFirstSafety.

Module BreadthFirstOffers.
Import BreadthFirst BreadthFirstFacts BreadthFirstLevel BreadthFirstLoop
  BreadthFirstRun BreadthFirstOverflow BreadthFirstSafety.

(** The offers of the levels that depend only on selections made at the
    levels up to [last_level] are in range: the node offers of the levels up
    to [last_level + 1], and the particle offer when [last_level] is the
    deepest node level. *)
Definition offers_in_range_upto (num_particles effective_num_levels : Z)
  (last_level : Z) (e : event) : Prop :=
  match e with
  | NodeSelector level working_set _ available_children =>
      1 <= level <= effective_num_levels - 2 /\
      (level <= last_level + 1 ->
       Forall (fun node =>
                 binary_tree_is_node_used node effective_num_levels
                   num_particles = true)
              (candidate_nodes level working_set available_children))
  | ParticleProcessor working_set _ num_available_particles =>
      effective_num_levels - 2 <= last_level ->
      Forall (fun id =>
                0 <= get_lnid_from_available_children_index working_set id
                  < num_particles)
             (zrange num_available_particles)
  | _ => True
  end.

Lemma offers_in_range_upto_all (num_particles effective_num_levels : Z)
  (last_level : Z) (e : event) :
  effective_num_levels - 2 <= last_level ->
  offers_in_range_upto num_particles effective_num_levels last_level e ->
  offers_in_range num_particles effective_num_levels e.
Proof.
  intros Hl. destruct e as [| level ws n ac | ws n nap |]; simpl; auto.
  intros [Hlvl Hused]. split; [exact Hlvl |]. apply Hused. lia.
Qed.

Section Offers.

Context {H : Type}.
Variable hd : handler H.
Variable Max_selected_nodes : Z.
Variables num_particles effective_num_particles effective_num_levels : Z.
Hypothesis Hcap : 1 <= Max_selected_nodes < 2 ^ 31.
Hypothesis Hwf : tree_wf num_particles effective_num_particles effective_num_levels.

(** The handler keeps to its offer at the levels up to [last_level]. *)
Variable last_level : Z.
Hypothesis Hkeeps : selects_offered_only hd last_level.

Abbreviation body :=
  (level_body hd Max_selected_nodes num_particles effective_num_levels).
Abbreviation children_count :=
  (count_available_children num_particles effective_num_levels).
Abbreviation in_range :=
  (offers_in_range_upto num_particles effective_num_levels last_level).

(** The invariant of the level loop at the head of level [lvl]: as long as
    the handler has kept to its offers, the working set holds used nodes of
    level [lvl - 1], from left to right. *)
Definition level_inv (lvl : Z) (s : state H) : Prop :=
  lvl <= effective_num_levels - 1 /\
  count_ok Max_selected_nodes s /\
  (lvl <= last_level + 1 ->
   working_set_ok effective_num_levels num_particles (lvl - 1) (live s)).

(** The children of a working set of used nodes that are offered are used
    nodes of the next level. *)
Lemma offered_candidates_used (lvl : Z) (s : state H) :
  1 <= lvl < 64 -> lvl <= effective_num_levels - 1 ->
  count_ok Max_selected_nodes s -> num_available_nodes s <> 0 ->
  working_set_ok effective_num_levels num_particles (lvl - 1) (live s) ->
  forall j : Z,
    0 <= j < children_count lvl s ->
    0 <= get_lnid_from_available_children_index (available_nodes_local_id s) j /\
    leftmost_leaf
      (mk_key lvl
         (get_lnid_from_available_children_index (available_nodes_local_id s) j))
      effective_num_levels < num_particles.
Proof.
  intros Hl Hle Hok Hne Hws j Hj.
  assert (1 <= lvl <= effective_num_levels - 1) as Hlvl by lia.
  assert (1 <= num_available_nodes s) as Hn by (destruct Hok; lia).
  assert (Z.to_nat (num_available_nodes s)
          <= length (available_nodes_local_id s))%nat as Hlen
      by (destruct Hok as [? ->]; lia).
  pose proof (children_count_spec Max_selected_nodes num_particles
                effective_num_levels Hcap lvl s Hok Hne Hl) as Hcount.
  unfold leftmost_leaf. cbn [level local_node_id].
  destruct (Z_lt_le_dec j (2 * num_available_nodes s - 1)) as [Hin | Hlast].
  - apply (lnid_used _ _ _ Hwf lvl _ _ Hlvl Hn Hws Hlen). lia.
  - destruct (binary_tree_is_node_used _ _ _) eqn:Hu in Hcount; [| lia].
    assert (j = 2 * num_available_nodes s - 1) as -> by lia.
    destruct (lnid_rightmost _ _ _ Hwf lvl _ _ Hlvl Hn Hws Hlen) as [E E0].
    split; [exact E0 |]. rewrite E.
    unfold binary_tree_is_node_used, leftmost_leaf,
      binary_tree_get_children_last, binary_tree_key_init in Hu.
    cbn [level local_node_id] in Hu. apply Z.ltb_lt in Hu.
    replace (lvl - 1 + 1) with lvl in Hu by lia. exact Hu.
Qed.

Lemma level_step_ok (lvl : Z) (s : state H) :
  1 <= lvl < 64 -> level_inv lvl s ->
  num_available_nodes s <> 0 ->
  lvl <> wrap64 (effective_num_levels - 1) ->
  accesses_in_bounds Max_selected_nodes (body lvl s) = true ->
  level_inv (lvl + 1) (body lvl s) /\
  in_range (NodeSelector lvl (available_nodes_local_id s)
              (num_available_nodes s) (children_count lvl s)).
Proof.
  intros Hl (Hle & Hok & Hws) Hne Hnl Hdef.
  pose proof (level_body_fits hd Max_selected_nodes num_particles
                effective_num_levels Hcap lvl s Hdef) as Hfit.
  assert (wrap64 (effective_num_levels - 1) = effective_num_levels - 1) as Hw.
  { destruct Hwf as (HL & _). apply wrap64_small. lia. }
  rewrite Hw in Hnl.
  assert (1 <= lvl <= effective_num_levels - 1) as Hlvl by lia.
  assert (1 <= num_available_nodes s) as Hn by (destruct Hok; lia).
  assert (Z.to_nat (num_available_nodes s)
          <= length (available_nodes_local_id s))%nat as Hlen
      by (destruct Hok as [? ->]; lia).
  pose proof (children_count_spec Max_selected_nodes num_particles
                effective_num_levels Hcap lvl s Hok Hne Hl) as Hcount.
  assert (children_count lvl s <= 2 * num_available_nodes s) as Hcle.
  { rewrite Hcount. destruct (binary_tree_is_node_used _ _ _); lia. }
  destruct (level_body_spec hd Max_selected_nodes num_particles
              effective_num_levels Hcap lvl s Hok) as (Hok' & Hnum & Hlive).
  split.
  - split; [lia |]. split; [exact Hok' |]. intros Hkept.
    assert (lvl <= last_level) as Hhere by lia.
    specialize (Hws ltac:(lia)).
    pose proof (offered_candidates_used lvl s Hl Hle Hok Hne Hws) as Hoffer.
    rewrite Hlive by (rewrite length_map; exact Hfit).
    replace (lvl + 1 - 1) with lvl by lia.
    pose proof (selected_candidates_sorted hd Max_selected_nodes num_particles
                  effective_num_levels lvl s) as Hsorted.
    pose proof (selected_candidates_offered hd Max_selected_nodes num_particles
                  effective_num_levels last_level lvl s) as Hsel.
    split.
    + apply map_sorted; [exact Hsorted |].
      intros x y Hx Hy Hxy.
      apply (Hsel _ Hkeeps Hhere) in Hx. apply (Hsel _ Hkeeps Hhere) in Hy.
      apply (lnid_increasing _ _ _ Hwf lvl _ _ Hlvl Hn Hws Hlen); lia.
    + apply Forall_forall. intros e He.
      apply in_map_iff in He. destruct He as (j & <- & Hj).
      apply Hoffer. apply (Hsel _ Hkeeps Hhere). exact Hj.
  - simpl. split; [lia |]. intros Hkept. specialize (Hws Hkept).
    pose proof (offered_candidates_used lvl s Hl Hle Hok Hne Hws) as Hoffer.
    unfold candidate_nodes.
    apply Forall_forall. intros node Hnode. apply in_map_iff in Hnode.
    destruct Hnode as (j & <- & Hj). apply in_zrange in Hj.
    unfold binary_tree_is_node_used. apply Z.ltb_lt.
    apply Hoffer. exact Hj.
Qed.

Lemma query_start_level_inv :
  2 <= effective_num_levels ->
  level_inv 1 (query_start hd Max_selected_nodes).
Proof.
  intros HL. split; [lia |]. split; [apply query_start_count_ok; exact Hcap |].
  intros _.
  unfold live, query_start, array_set; simpl.
  destruct (Z.to_nat Max_selected_nodes) as [| c] eqn:E; [lia |]. simpl.
  split; [repeat constructor |].
  constructor; [| constructor]. split; [lia |].
  unfold leftmost_leaf; simpl. destruct Hwf as (_ & _ & HN). lia.
Qed.

(** The state when a level loop without an access out of range is left: the
    invariant holds at the level the loop stopped at, which is the particle
    level unless the working set is empty. *)
Lemma after_levels_level_inv :
  2 <= effective_num_levels ->
  accesses_in_bounds Max_selected_nodes
    (after_levels hd Max_selected_nodes num_particles effective_num_levels)
  = true ->
  Forall in_range
    (events (after_levels hd Max_selected_nodes num_particles
               effective_num_levels)) /\
  exists lvl : Z,
    level_inv lvl
      (after_levels hd Max_selected_nodes num_particles effective_num_levels) /\
    (0 < num_available_nodes
           (after_levels hd Max_selected_nodes num_particles
              effective_num_levels) ->
     lvl = effective_num_levels - 1).
Proof.
  intros HL2 Hdef.
  destruct (level_loop_invariant_defined hd Max_selected_nodes num_particles
              effective_num_levels level_inv in_range level_step_ok
              63%nat 1%nat (query_start hd Max_selected_nodes))
    as (HF & l' & Hl' & Hinv & Hex).
  - lia.
  - lia.
  - apply query_start_level_inv. exact HL2.
  - repeat constructor.
  - exact Hdef.
  - fold node_levels in HF, Hinv, Hex.
    fold (after_levels hd Max_selected_nodes num_particles effective_num_levels)
      in HF, Hinv, Hex.
    split; [exact HF |]. exists l'. split; [exact Hinv |]. intros Hpos.
    assert (wrap64 (effective_num_levels - 1) = effective_num_levels - 1) as Hw.
    { destruct Hwf as (HL & _). apply wrap64_small. lia. }
    destruct Hinv as (Hle & _).
    destruct Hwf as (HL & _).
    destruct Hex as [Hz | [He | He]]; [lia | lia |].
    simpl in He. lia.
Qed.

(** Every offer that a query without an access out of range makes before
    the handler leaves its offer is in range. *)
Lemma query_offers_in_range :
  2 <= effective_num_levels ->
  accesses_in_bounds Max_selected_nodes
    (query hd Max_selected_nodes num_particles effective_num_levels) = true ->
  Forall in_range
    (events (query hd Max_selected_nodes num_particles effective_num_levels)).
Proof.
  intros HL2 Hdef. rewrite query_events. apply Forall_app.
  split; [| repeat constructor].
  destruct (after_levels_level_inv HL2
              (query_defined_before hd Max_selected_nodes num_particles
                 effective_num_levels Hdef))
    as (HF & l' & (Hle & Hok & Hws) & Hlast).
  rewrite particle_pass_events. apply Forall_app. split; [exact HF |].
  set (s := after_levels hd Max_selected_nodes num_particles
              effective_num_levels) in *.
  destruct (0 <? num_available_nodes s) eqn:E; [| constructor].
  apply Z.ltb_lt in E. constructor; [| constructor].
  specialize (Hlast E). subst l'.
  unfold offers_in_range_upto. intros Hkept. specialize (Hws ltac:(lia)).
  assert (1 <= effective_num_levels - 1 <= effective_num_levels - 1) as Hlvl
    by lia.
  assert (1 <= num_available_nodes s) as Hn by lia.
  assert (Z.to_nat (num_available_nodes s)
          <= length (available_nodes_local_id s))%nat as Hlen
      by (destruct Hok as [? ->]; lia).
  cbv zeta.
  rewrite (wrap32_small (2 * num_available_nodes s))
    by (destruct Hok; lia).
  rewrite (wrap32_small (2 * num_available_nodes s - 1))
    by (destruct Hok; lia).
  apply Forall_forall. intros j Hj. apply in_zrange in Hj.
  destruct (Z_lt_le_dec j (2 * num_available_nodes s - 1)) as [Hin | Hlst].
  + pose proof (lnid_used _ _ _ Hwf _ _ _ Hlvl Hn Hws Hlen j ltac:(lia))
      as [A B].
    rewrite leaves_per_node_particle in B. lia.
  + destruct (Z.leb_spec num_particles
                (get_lnid_from_available_children_index
                   (available_nodes_local_id s)
                   (2 * num_available_nodes s - 1))) as [Hge | Hlt];
      [lia |].
    assert (j = 2 * num_available_nodes s - 1) as -> by lia.
    destruct (lnid_rightmost _ _ _ Hwf _ _ _ Hlvl Hn Hws Hlen) as [_ E0].
    lia.
Qed.

End Offers.

End BreadthFirstOffers.

(** ** Breadth-first engine: accesses to the candidate arrays *)

Module BreadthFirstAccesses.
Import BreadthFirst BreadthFirstFacts BreadthFirstLevel BreadthFirstLoop
  BreadthFirstRun BreadthFirstOverflow.

(** An access is harmless, or it is the store one past the end of
    temp_new_node_ids. *)
Definition access_ok (capacity : Z) (x : access) : Prop :=
  in_bounds capacity x = true \/ x = ArrayStore temp_new_node_ids_array capacity.

Lemma in_bounds_intro (capacity : Z) (x : access) :
  0 <= access_index x < capacity -> access_ok capacity x.
Proof.
  intros Hx. left. unfold in_bounds. apply andb_true_iff.
  split; [apply Z.leb_le | apply Z.ltb_lt]; lia.
Qed.

Section Accesses.

Context {H : Type}.
Variable hd : handler H.
Variable Max_selected_nodes : Z.
Variables num_particles effective_num_levels : Z.
Hypothesis Hcap : 1 <= Max_selected_nodes < 2 ^ 31.

Abbreviation ok := (access_ok Max_selected_nodes).

Lemma compact_fold_accesses (ws : list Z) (sel : Z -> bool) (l : list Z) :
  forall c : compaction,
    0 <= c_num_available_nodes c <= Max_selected_nodes ->
    Forall (fun i => 0 <= i < Max_children Max_selected_nodes) l ->
    Forall ok (c_accesses c) ->
    Forall ok (c_accesses (fold_left (compact_step Max_selected_nodes ws sel) l c)).
Proof.
  induction l as [| i l IH]; intros c Hc Hl Hlog; simpl; [exact Hlog |].
  inversion Hl as [| ? ? Hi Hl']; subst.
  apply IH; [| exact Hl' |]; unfold compact_step; destruct (sel i);
    try assumption; cbn [c_num_available_nodes c_accesses].
  - rewrite (capacity_wrap32 Max_selected_nodes Hcap).
    rewrite wrap32_small by lia. lia.
  - apply Forall_app. split; [exact Hlog |].
    unfold Max_children in Hi. rewrite shiftr_one.
    constructor; [| constructor; [| constructor]].
    + apply in_bounds_intro. simpl.
      split; [apply Z.div_pos; lia | apply Z.div_lt_upper_bound; lia].
    + destruct (Z.eq_dec (c_num_available_nodes c) Max_selected_nodes)
        as [-> | Hne].
      * right. reflexivity.
      * apply in_bounds_intro. simpl. lia.
Qed.

Lemma copy_back_fold_accesses (temp : list Z) (l : list Z) :
  forall acc : list Z * list access,
    Forall (fun i => 0 <= i < Max_selected_nodes) l ->
    Forall ok (snd acc) ->
    Forall ok (snd (fold_left (copy_back_step temp) l acc)).
Proof.
  induction l as [| i l IH]; intros acc Hl Hlog; simpl; [exact Hlog |].
  inversion Hl as [| ? ? Hi Hl']; subst.
  apply IH; [exact Hl' |]. unfold copy_back_step. cbn [snd].
  apply Forall_app. split; [exact Hlog |].
  constructor; [| constructor; [| constructor]];
    apply in_bounds_intro; simpl; lia.
Qed.

Lemma level_body_accesses (level : Z) (s : state H) :
  count_ok Max_selected_nodes s -> num_available_nodes s <> 0 ->
  Forall ok (accesses s) ->
  Forall ok
    (accesses (level_body hd Max_selected_nodes num_particles
                 effective_num_levels level s)).
Proof.
  intros [Hn Hlen] Hne Hlog. unfold level_body.
  destruct (bfs_node_selector hd (handler_state s) level
              (available_nodes_local_id s) _) as [sel h1].
  set (log := accesses s ++ _).
  assert (Forall ok log) as Hlog'.
  { apply Forall_app. split; [exact Hlog |]. constructor; [| constructor].
    apply in_bounds_intro. simpl.
    rewrite wrap32_small by lia. lia. }
  pose proof (compact_spec Max_selected_nodes Hcap (available_nodes_local_id s)
                sel log) as (Hnum & _ & _).
  assert (Forall ok
            (c_accesses
               (compact Max_selected_nodes (available_nodes_local_id s) sel log)))
    as Hc.
  { unfold compact. apply compact_fold_accesses; simpl; try lia.
    - apply Forall_forall. intros i Hi. apply in_zrange in Hi. exact Hi.
    - exact Hlog'. }
  destruct (copy_back _ _) as [ids log2] eqn:Hcb. cbn [accesses].
  replace log2 with (snd (copy_back
                            (compact Max_selected_nodes
                               (available_nodes_local_id s) sel log)
                            (available_nodes_local_id s)))
    by (rewrite Hcb; reflexivity).
  unfold copy_back. apply copy_back_fold_accesses; [| exact Hc].
  apply Forall_forall. intros i Hi. apply in_zrange in Hi. lia.
Qed.

(** Every access a query makes to its two candidate arrays is in bounds,
    except for stores to temp_new_node_ids at index Max_selected_nodes. *)
Lemma query_accesses :
  Forall ok
    (accesses (query hd Max_selected_nodes num_particles effective_num_levels)).
Proof.
  unfold query. cbn [accesses].
  destruct (level_loop_invariant hd Max_selected_nodes num_particles
              effective_num_levels
              (fun _ s => count_ok Max_selected_nodes s /\ Forall ok (accesses s))
              (fun _ => True))
    with (k := 63%nat) (a := 1%nat) (s := query_start hd Max_selected_nodes)
    as (_ & l' & _ & ([Hn Hlen] & Hlog) & _).
  - intros level s Hl [Hok Hlog] Hne _. split; [| exact I]. split.
    + apply (level_body_spec hd Max_selected_nodes num_particles
               effective_num_levels Hcap level s Hok).
    + apply level_body_accesses; assumption.
  - lia.
  - lia.
  - split; [apply query_start_count_ok; exact Hcap |].
    simpl. constructor; [| constructor]. apply in_bounds_intro. simpl. lia.
  - apply Forall_forall. intros e _. exact I.
  - fold node_levels in Hn, Hlen, Hlog.
    fold (after_levels hd Max_selected_nodes num_particles effective_num_levels)
      in Hn, Hlen, Hlog.
    unfold particle_pass.
    destruct (0 <? num_available_nodes _) eqn:E; [| exact Hlog].
    apply Z.ltb_lt in E. cbv zeta. cbn [accesses]. apply Forall_app.
    split; [exact Hlog |]. constructor; [| constructor].
    apply in_bounds_intro. cbn [access_index]. rewrite shiftr_one.
    rewrite (wrap32_small (2 * _))
      by lia.
    rewrite wrap32_small by lia.
    split; [apply Z.div_pos; lia | apply Z.div_lt_upper_bound; lia].
Qed.

End Accesses.

End BreadthFirstAccesses.

(** * Main results on padding, the single particle and the capacity *)

Import BreadthFirstSafety BreadthFirstOffers.

Lemma visited_nodes_in (es : list DepthFirst.event) (node : binary_tree_key_t) :
  In node (visited_nodes es) ->
  exists idx sel, In (DepthFirst.NodeVisit node idx sel) es.
Proof.
  induction es as [| e es IH]; simpl; [tauto |].
  destruct e as [| node' idx sel | idx | idx sel |]; simpl; intros Hin;
    try (destruct (IH Hin) as (i & b & Hi); exists i, b; right; exact Hi).
  destruct Hin as [<- | Hin].
  - exists idx, sel. left. reflexivity.
  - destruct (IH Hin) as (i & b & Hi). exists i, b. right. exact Hi.
Qed.

Lemma tree_of_six : tree_wf 6 8 4.
Proof. unfold tree_wf. split; [lia |]. split; [reflexivity | lia]. Qed.

(** A stateless handler keeps to its offer at every level. *)
Lemma stateless_handler_keeps_to_offer
  (node_pred : binary_tree_key_t -> bool) (particle_pred : Z -> bool)
  (last_level : Z) :
  selects_offered_only (stateless_handler node_pred particle_pred) last_level.
Proof.
  intros h level ws ac id _ Hsel. cbn [stateless_handler bfs_node_selector fst] in Hsel.
  apply andb_true_iff in Hsel. destruct Hsel as [Hsel _].
  apply andb_true_iff in Hsel. destruct Hsel as [A B].
  apply Z.leb_le in A. apply Z.ltb_lt in B. lia.
Qed.

(** C4, as the code has it: in the tree of six particles (padded to eight,
    four levels) the depth-first engine, whatever the handler decides, loads
    and hands to the handler used nodes only, that is, nodes whose leftmost
    leaf index is below 6.  The breadth-first engine offers used nodes only
    in every run without an access out of range in which the handler, at
    level 1, selects only among the candidates it was offered.  In
    particular node 3 of the deepest node level 2, whose leftmost leaf is 6,
    is then never offered or loaded. *)
Theorem six_particles_only_used_nodes {H : Type} (hd : handler H)
  (Max_selected_nodes : Z) (strategy : depth_first_iteration_strategy) :
  1 <= Max_selected_nodes < 2 ^ 31 ->
  (selects_offered_only hd 1 ->
   accesses_in_bounds Max_selected_nodes
     (BreadthFirst.query hd Max_selected_nodes 6 4) = true ->
   forall (level : Z) (working_set : list Z) (n available_children : Z)
          (node : binary_tree_key_t),
     In (BreadthFirst.NodeSelector level working_set n available_children)
        (BreadthFirst.events (BreadthFirst.query hd Max_selected_nodes 6 4)) ->
     In node (BreadthFirst.candidate_nodes level working_set available_children) ->
     binary_tree_is_node_used node 4 6 = true)
  /\
  (exists final : DepthFirst.state H,
      DepthFirst.query hd strategy 6 8 4 (enough_fuel 8 4) = Some final /\
      forall node : binary_tree_key_t,
        In node (visited_nodes (DepthFirst.events final)) ->
        binary_tree_is_node_used node 4 6 = true).
Proof.
  intros Hcap. split.
  - intros Hkeeps Hdef level working_set n available_children node Hev Hnode.
    pose proof (query_offers_in_range hd Max_selected_nodes 6 8 4 Hcap
                  tree_of_six 1 Hkeeps ltac:(lia) Hdef) as HF.
    rewrite Forall_forall in HF. specialize (HF _ Hev). simpl in HF.
    destruct HF as [Hlvl HF]. specialize (HF ltac:(lia)).
    rewrite Forall_forall in HF. apply HF. exact Hnode.
  - destruct (query_loop_returns hd strategy 6 8 4 tree_of_six) as [s Hrun].
    unfold DepthFirst.query. rewrite Hrun. eexists. split; [reflexivity |].
    cbn [DepthFirst.events]. intros node Hin.
    rewrite visited_nodes_app in Hin. simpl in Hin. rewrite app_nil_r in Hin.
    apply visited_nodes_in in Hin. destruct Hin as (idx & sel & Hin).
    pose proof (loop_events_in_range hd strategy 6 8 4 tree_of_six _ _ _
                  (query_start_inv hd 6 8 4 tree_of_six)
                  ltac:(repeat constructor) Hrun) as HF.
    rewrite Forall_forall in HF. specialize (HF _ Hin). simpl in HF.
    apply HF.
Qed.

Lemma six_particles_only_used_nodes_witness :
  binary_tree_is_node_used (mk_key 2 2) 4 6 = true /\
  binary_tree_is_node_used (mk_key 2 0) 4 6 = true.
Proof.
  destruct (six_particles_only_used_nodes select_all 3
              HIERARCHICAL_ITERATION_STRICT ltac:(lia))
    as [Hbfs (final & Hrun & Hdfs)].
  split.
  - apply (Hbfs (stateless_handler_keeps_to_offer _ _ 1) eq_refl
             2 [0; 1; 0] 2 3).
    + vm_compute. right. right. left. reflexivity.
    + vm_compute. right. right. left. reflexivity.
  - vm_compute in Hrun. injection Hrun as <-.
    apply Hdfs. simpl. right. right. left. reflexivity.
Defined.

(** C4 as stated fails for the breadth-first engine: the compaction loop
    reads all Max_children entries of the selection map, so a handler that at
    level 1 also selects candidate 3, which it was not offered, brings the
    count to 3 and gets five candidates at level 2, among them node (2,3),
    whose leftmost leaf is 6.  No access of this run is out of range.
    Candidate 3 of level 2 is the right child of entry 1 of the working set,
    which holds node 1, so the offer does not depend on the value read at
    level 1 from the entry that was never written: the second part states it
    for every content of the entries beyond the root's. *)
Lemma six_particles_unused_node_offered :
  (let run := BreadthFirst.query select_beyond_offer 4 6 4 in
   accesses_in_bounds 4 run = true /\
   In (BreadthFirst.NodeSelector 2 [0; 1; 1; 0] 3 5) (BreadthFirst.events run) /\
   In (mk_key 2 3) (BreadthFirst.candidate_nodes 2 [0; 1; 1; 0] 5) /\
   binary_tree_is_node_used (mk_key 2 3) 4 6 = false) /\
  (forall v1 v2 v3 : Z,
      let start :=
        {| BreadthFirst.num_available_nodes := 1;
           BreadthFirst.available_nodes_local_id := [0; v1; v2; v3];
           BreadthFirst.handler_state := tt;
           BreadthFirst.events := [BreadthFirst.QueryInit];
           BreadthFirst.accesses :=
             [BreadthFirst.ArrayStore
                BreadthFirst.available_nodes_local_id_array 0] |} in
      let after_level_1 :=
        BreadthFirst.level_body select_beyond_offer 4 6 4 1 start in
      BreadthFirst.num_available_nodes after_level_1 = 3 /\
      In (mk_key 2 3)
         (BreadthFirst.candidate_nodes 2
            (BreadthFirst.available_nodes_local_id after_level_1)
            (BreadthFirst.count_available_children 6 4 2 after_level_1))).
Proof.
  split.
  - vm_compute. repeat split; try reflexivity.
    + right. right. left. reflexivity.
    + right. right. right. left. reflexivity.
  - intros v1 v2 v3. cbv zeta.
    set (x := wrap64 (wrap64 (BT_LOCAL_NODE_ID_OF_LEFT_CHILD v1) + 1)).
    assert (BreadthFirst.level_body select_beyond_offer 4 6 4 1
              {| BreadthFirst.num_available_nodes := 1;
                 BreadthFirst.available_nodes_local_id := [0; v1; v2; v3];
                 BreadthFirst.handler_state := tt;
                 BreadthFirst.events := [BreadthFirst.QueryInit];
                 BreadthFirst.accesses :=
                   [BreadthFirst.ArrayStore
                      BreadthFirst.available_nodes_local_id_array 0] |}
            = {| BreadthFirst.num_available_nodes := 3;
                 BreadthFirst.available_nodes_local_id := [0; 1; x; v3];
                 BreadthFirst.handler_state := tt;
                 BreadthFirst.events :=
                   [BreadthFirst.QueryInit;
                    BreadthFirst.NodeSelector 1 [0; v1; v2; v3] 1 2];
                 BreadthFirst.accesses :=
                   BreadthFirst.accesses
                     (BreadthFirst.level_body select_beyond_offer 4 6 4 1
                        {| BreadthFirst.num_available_nodes := 1;
                           BreadthFirst.available_nodes_local_id :=
                             [0; v1; v2; v3];
                           BreadthFirst.handler_state := tt;
                           BreadthFirst.events := [BreadthFirst.QueryInit];
                           BreadthFirst.accesses :=
                             [BreadthFirst.ArrayStore
                                BreadthFirst.available_nodes_local_id_array 0]
                        |}) |}) as ->.
    { reflexivity. }
    cbn [BreadthFirst.num_available_nodes BreadthFirst.available_nodes_local_id].
    split; [reflexivity |].
    unfold BreadthFirst.count_available_children.
    cbn [BreadthFirst.num_available_nodes BreadthFirst.available_nodes_local_id].
    change (wrap32 (2 * 3)) with 6. change (wrap32 (6 - 1)) with 5.
    destruct (negb _); cbv [BreadthFirst.candidate_nodes zrange]; simpl;
      right; right; right; left; reflexivity.
Qed.

(** C5, what the code does.  For the tree of one particle (one level) the
    depth-first engine visits particle 0 and nothing else.  The breadth-first
    engine does not: its level loop starts at level 1 and tests for level
    effective_num_levels - 1 = 0, so the first iteration runs and hands
    candidates of level 1 to the node selector; when the handler selects
    none of them the particle processor is never called. *)
Theorem single_particle_tree {H : Type} (hd : handler H)
  (Max_selected_nodes : Z) (strategy : depth_first_iteration_strategy) :
  (exists (final : DepthFirst.state H) (sel : bool),
      DepthFirst.query hd strategy 1 1 1 (enough_fuel 1 1) = Some final /\
      DepthFirst.events final
      = [DepthFirst.QueryInit; DepthFirst.ParticleVisit 0 sel;
         DepthFirst.QueryExit])
  /\
  (exists (available_children : Z) (rest : list BreadthFirst.event),
      BreadthFirst.events (BreadthFirst.query hd Max_selected_nodes 1 1)
      = BreadthFirst.QueryInit
          :: BreadthFirst.NodeSelector 1
               (BreadthFirst.available_nodes_local_id
                  (BreadthFirst.query_start hd Max_selected_nodes))
               1 available_children
          :: rest)
  /\
  BreadthFirst.events (BreadthFirst.query select_none 2 1 1)
  = [BreadthFirst.QueryInit; BreadthFirst.NodeSelector 1 [0; 0] 1 2;
     BreadthFirst.QueryExit].
Proof.
  split; [| split; [| vm_compute; reflexivity]].
  - unfold DepthFirst.query, enough_fuel. simpl.
    unfold DepthFirst.query_step. simpl.
    unfold DepthFirst.QUERY_PARTICLE_LEVEL, DepthFirst.load_particle. simpl.
    destruct (dfs_particle_processor hd (at_query_init hd) 0) as [sel h1].
    exists
      {| DepthFirst.current_node :=
           if sel then next_local_node_id (mk_key 0 0)
           else next_local_node_id (mk_key 0 0);
         DepthFirst.num_covered_particles := 1;
         DepthFirst.handler_state := at_query_exit hd h1;
         DepthFirst.events :=
           [DepthFirst.QueryInit; DepthFirst.ParticleVisit 0 sel;
            DepthFirst.QueryExit] |}, sel.
    split; [| reflexivity]. destruct sel; reflexivity.
  - rewrite query_events, particle_pass_events.
    unfold BreadthFirst.after_levels, BreadthFirst.node_levels.
    change (seq 1 63) with (1%nat :: seq 2 62).
    cbn [map BreadthFirst.level_loop].
    change (BreadthFirst.num_available_nodes
              (BreadthFirst.query_start hd Max_selected_nodes) =? 0)
      with false.
    change (Z.of_nat 1 =? wrap64 (1 - 1)) with false. cbn [orb].
    destruct (level_loop_events hd Max_selected_nodes 1 1
                (map Z.of_nat (seq 2 62))
                (BreadthFirst.level_body hd Max_selected_nodes 1 1 (Z.of_nat 1)
                   (BreadthFirst.query_start hd Max_selected_nodes)))
      as (nodes & k & He & _ & _).
    rewrite He, level_body_events. cbn [BreadthFirst.events BreadthFirst.query_start].
    eexists. eexists. cbn [app]. reflexivity.
Qed.

(** C1, what the code does when more candidates are selected than fit.  With
    capacity 1, a tree of four particles and the handler that selects every
    candidate, the compaction loop of level 1 stores the second selected id at
    index 1 of temp_new_node_ids, an array of one element; the count stays at
    the capacity. *)
Theorem capacity_one_store_past_end :
  let run := BreadthFirst.query select_all 1 4 3 in
  In (BreadthFirst.ArrayStore BreadthFirst.temp_new_node_ids_array 1)
     (BreadthFirst.accesses run) /\
  BreadthFirst.in_bounds 1
    (BreadthFirst.ArrayStore BreadthFirst.temp_new_node_ids_array 1) = false /\
  BreadthFirst.num_available_nodes run = 1.
Proof.
  vm_compute. split; [| split; reflexivity].
  right. right. right. right. right. left. reflexivity.
Qed.

(** * Further properties of the depth-first engine *)

Module DepthFirstTrace.
Import DepthFirst DepthFirstFacts DepthFirstLoop DepthFirstRuns.

(** The particle slots an event covers: a visited particle covers its own
    slot, a rejected node the slots of its whole subtree. *)
Fixpoint coverage (levels : Z) (es : list event) : list (Z * Z) :=
  match es with
  | [] => []
  | ParticleVisit idx _ :: t => (idx, 1) :: coverage levels t
  | NodeVisit node _ false :: t =>
      (leftmost_leaf node levels, BT_LEAVES_PER_NODE (level node) levels)
      :: coverage levels t
  | _ :: t => coverage levels t
  end.

(** [tiles from l to]: the intervals of [l], given as (start, width), are not
    empty and follow one another without gap or overlap from [from] to [to]. *)
Fixpoint tiles (from : Z) (l : list (Z * Z)) (to : Z) : Prop :=
  match l with
  | [] => from = to
  | (start, width) :: t => start = from /\ 0 < width /\ tiles (from + width) t to
  end.


Lemma coverage_app (levels : Z) (a b : list event) :
  coverage levels (a ++ b) = coverage levels a ++ coverage levels b.
Proof.
  induction a as [| e a IH]; [reflexivity |].
  destruct e as [| node idx [|] | idx | idx sel |]; simpl; rewrite IH;
    reflexivity.
Qed.

Lemma tiles_app (a b c : Z) (l l' : list (Z * Z)) :
  tiles a l b -> tiles b l' c -> tiles a (l ++ l') c.
Proof.
  revert a. induction l as [| [start width] l IH]; intros a Hl Hl'; simpl in *.
  - subst. exact Hl'.
  - destruct Hl as (E & W & Hl). repeat split; try assumption.
    apply IH; assumption.
Qed.

Lemma visited_particles_app (a b : list event) :
  visited_particles (a ++ b) = visited_particles a ++ visited_particles b.
Proof.
  induction a as [| e a IH]; [reflexivity |].
  destruct e; simpl; rewrite IH; reflexivity.
Qed.

Lemma sorted_snoc (l : list Z) (x : Z) :
  StronglySorted Z.lt l -> Forall (fun y => y < x) l ->
  StronglySorted Z.lt (l ++ [x]).
Proof.
  induction 1 as [| y l Hs IH Hall]; intros Hx; simpl.
  - repeat constructor.
  - inversion Hx as [| ? ? Hy Hx']; subst. constructor.
    + apply IH. exact Hx'.
    + apply Forall_app. split; [exact Hall |]. repeat constructor. exact Hy.
Qed.

Section Trace.

Context {H : Type}.
Variable hd : handler H.
Variable strategy : depth_first_iteration_strategy.
Variables num_particles effective_num_particles effective_num_levels : Z.
Hypothesis Hwf : tree_wf num_particles effective_num_particles effective_num_levels.

Abbreviation step :=
  (query_step hd strategy effective_num_particles effective_num_levels).
Abbreviation the_loop :=
  (query_loop hd strategy num_particles effective_num_particles
     effective_num_levels).
Abbreviation fuel0 := (enough_fuel effective_num_particles effective_num_levels).

(** The loop returns and every property kept by its iterations holds at the
    end. *)
Lemma loop_establishes (P : state H -> Prop) :
  P (query_start hd) ->
  (forall s, cursor_inv effective_num_levels s -> P s ->
             num_covered_particles s < num_particles -> P (step s)) ->
  exists final,
    the_loop fuel0 (query_start hd) = Some final /\
    cursor_inv effective_num_levels final /\ P final /\
    num_particles <= num_covered_particles final.
Proof.
  intros H0 Hstep.
  destruct (query_loop_returns hd strategy _ _ _ Hwf) as [final Hrun].
  exists final. split; [exact Hrun |].
  apply (query_loop_invariant hd strategy _ _ _ Hwf P Hstep fuel0
           (query_start hd) final); try assumption.
  apply query_start_inv with (1 := Hwf).
Qed.

Lemma step_coverage (s : state H) :
  cursor_inv effective_num_levels s ->
  tiles 0 (coverage effective_num_levels (events s)) (num_covered_particles s) ->
  num_covered_particles s < num_particles ->
  tiles 0 (coverage effective_num_levels (events (step s)))
    (num_covered_particles (step s)).
Proof.
  intros Hinv HP Hg.
  destruct (query_step_spec hd strategy _ _ _ Hwf s Hinv Hg) as [_ Hit].
  destruct Hinv as [[Hl Hi] Hcov].
  destruct Hit as [E1 E2 _ E | E1 _ E2 _ E | E1 _ E2 _ E];
    rewrite E, coverage_app, E2.
  - apply (tiles_app _ _ _ _ _ HP). simpl.
    unfold leftmost_leaf in Hcov.
    rewrite E1, leaves_per_node_particle, Z.mul_1_r in Hcov.
    repeat split; lia.
  - simpl. rewrite app_nil_r. exact HP.
  - apply (tiles_app _ _ _ _ _ HP). simpl.
    pose proof (leaves_per_node_pos (level (current_node s))
                  effective_num_levels ltac:(lia)).
    repeat split; lia.
Qed.


Lemma step_visited_sorted (s : state H) :
  cursor_inv effective_num_levels s ->
  StronglySorted Z.lt (visited_particles (events s)) /\
  Forall (fun p => 0 <= p < num_covered_particles s)
         (visited_particles (events s)) ->
  num_covered_particles s < num_particles ->
  StronglySorted Z.lt (visited_particles (events (step s))) /\
  Forall (fun p => 0 <= p < num_covered_particles (step s))
         (visited_particles (events (step s))).
Proof.
  intros Hinv [Hs Hall] Hg.
  destruct (query_step_spec hd strategy _ _ _ Hwf s Hinv Hg) as [_ Hit].
  destruct Hinv as [[Hl Hi] Hcov].
  destruct Hit as [E1 E2 _ E | E1 _ E2 _ E | E1 _ E2 _ E];
    rewrite E, visited_particles_app, E2; simpl.
  - unfold leftmost_leaf in Hcov.
    rewrite E1, leaves_per_node_particle, Z.mul_1_r in Hcov.
    rewrite <- Hcov. split.
    + apply sorted_snoc; [exact Hs |].
      apply Forall_impl with (2 := Hall). intros p Hp. lia.
    + apply Forall_app. split.
      * apply Forall_impl with (2 := Hall). intros p Hp. lia.
      * repeat constructor; lia.
  - rewrite app_nil_r. split; assumption.
  - rewrite app_nil_r. split; [exact Hs |].
    pose proof (leaves_per_node_pos (level (current_node s))
                  effective_num_levels ltac:(lia)).
    apply Forall_impl with (2 := Hall). intros p Hp. lia.
Qed.

(** When the handler accepts every node the counter only moves at the
    particle level, one particle at a time. *)
Lemma step_visits_all (s : state H) :
  (forall h node idx, fst (dfs_node_selector hd h node idx) = true) ->
  cursor_inv effective_num_levels s ->
  visited_particles (events s) = zrange (num_covered_particles s) /\
  0 <= num_covered_particles s <= num_particles ->
  num_covered_particles s < num_particles ->
  visited_particles (events (step s)) = zrange (num_covered_particles (step s)) /\
  0 <= num_covered_particles (step s) <= num_particles.
Proof.
  intros Hacc Hinv [Hv Hc] Hg.
  destruct (query_step_spec hd strategy _ _ _ Hwf s Hinv Hg) as [_ Hit].
  destruct Hinv as [[Hl Hi] Hcov].
  destruct Hit as [E1 E2 _ E | E1 _ E2 _ E | E1 Hrej E2 _ E].
  - rewrite E, visited_particles_app, E2, Hv. simpl.
    unfold leftmost_leaf in Hcov.
    rewrite E1, leaves_per_node_particle, Z.mul_1_r in Hcov.
    rewrite <- Hcov. rewrite zrange_succ by lia. split; [reflexivity | lia].
  - rewrite E, visited_particles_app, E2, Hv. simpl. rewrite app_nil_r.
    split; [reflexivity | lia].
  - rewrite Hacc in Hrej. discriminate Hrej.
Qed.

End Trace.

End DepthFirstTrace.

Import DepthFirstTrace.

Lemma query_of_loop {H : Type} (hd : handler H)
  (strategy : depth_first_iteration_strategy)
  (num_particles effective_num_particles effective_num_levels : Z)
  (fuel : nat) (s : DepthFirst.state H) :
  query_loop hd strategy num_particles effective_num_particles
    effective_num_levels fuel (DepthFirst.query_start hd) = Some s ->
  exists final,
    DepthFirst.query hd strategy num_particles effective_num_particles
      effective_num_levels fuel = Some final /\
    DepthFirst.events final = DepthFirst.events s ++ [DepthFirst.QueryExit] /\
    num_covered_particles final = num_covered_particles s.
Proof.
  intros Hrun. unfold DepthFirst.query. rewrite Hrun.
  eexists. split; [reflexivity |]. split; reflexivity.
Qed.

(** X1: for every well-formed tree, strategy and handler a depth-first query
    returns, and it has loaded only used nodes above the particle level and
    only particles with index below the true particle count. *)
Theorem dfs_loads_in_range {H : Type} (hd : handler H)
  (strategy : depth_first_iteration_strategy)
  (num_particles effective_num_particles effective_num_levels : Z) :
  tree_wf num_particles effective_num_particles effective_num_levels ->
  exists final : DepthFirst.state H,
    DepthFirst.query hd strategy num_particles effective_num_particles
      effective_num_levels
      (enough_fuel effective_num_particles effective_num_levels) = Some final /\
    Forall (event_in_range effective_num_levels num_particles)
      (DepthFirst.events final).
Proof.
  intros Hwf.
  destruct (loop_establishes hd strategy _ _ _ Hwf
              (fun s => Forall (event_in_range effective_num_levels num_particles)
                          (DepthFirst.events s)))
    as (s & Hrun & Hinv & HP & _).
  - repeat constructor.
  - intros s Hinv HP Hg.
    destruct (query_step_spec hd strategy _ _ _ Hwf s Hinv Hg) as [_ Hit].
    destruct Hinv as [[Hl Hi] Hcov].
    assert (binary_tree_is_node_used (current_node s) effective_num_levels
              num_particles = true) as Hused.
    { unfold binary_tree_is_node_used. apply Z.ltb_lt. lia. }
    destruct Hit as [E1 _ _ E | E1 _ _ _ E | E1 _ _ _ E]; rewrite E;
      apply Forall_app; split; try assumption;
      repeat constructor; simpl; try lia; try assumption.
    unfold leftmost_leaf in Hcov.
    rewrite E1, leaves_per_node_particle in Hcov. lia.
  - destruct (query_of_loop _ _ _ _ _ _ _ Hrun) as (final & Hq & He & _).
    exists final. split; [exact Hq |]. rewrite He.
    apply Forall_app. split; [exact HP | repeat constructor].
Qed.

Lemma dfs_loads_in_range_witness :
  exists final : DepthFirst.state unit,
    DepthFirst.query skip_right_half HIERARCHICAL_ITERATION_RELAXED 6 8 4
      (enough_fuel 8 4) = Some final /\
    Forall (event_in_range 4 6) (DepthFirst.events final).
Proof.
  apply (dfs_loads_in_range skip_right_half HIERARCHICAL_ITERATION_RELAXED 6 8 4).
  unfold tree_wf. split; [lia |]. split; [reflexivity | lia].
Defined.

(** X2: a depth-first query hands the particles to the handler in strictly
    ascending order of their index, so no particle is visited twice, whatever
    the handler decides and under either strategy. *)
Theorem dfs_particles_ascending {H : Type} (hd : handler H)
  (strategy : depth_first_iteration_strategy)
  (num_particles effective_num_particles effective_num_levels : Z) :
  tree_wf num_particles effective_num_particles effective_num_levels ->
  exists final : DepthFirst.state H,
    DepthFirst.query hd strategy num_particles effective_num_particles
      effective_num_levels
      (enough_fuel effective_num_particles effective_num_levels) = Some final /\
    StronglySorted Z.lt (visited_particles (DepthFirst.events final)).
Proof.
  intros Hwf.
  destruct (loop_establishes hd strategy _ _ _ Hwf
              (fun s =>
                 StronglySorted Z.lt (visited_particles (DepthFirst.events s)) /\
                 Forall (fun p => 0 <= p < num_covered_particles s)
                        (visited_particles (DepthFirst.events s))))
    as (s & Hrun & _ & [HP _] & _).
  - simpl. split; constructor.
  - intros s Hinv HP Hg.
    apply (step_visited_sorted hd strategy _ _ _ Hwf s Hinv HP Hg).
  - destruct (query_of_loop _ _ _ _ _ _ _ Hrun) as (final & Hq & He & _).
    exists final. split; [exact Hq |].
    rewrite He, visited_particles_app. simpl. rewrite app_nil_r. exact HP.
Qed.

Lemma dfs_particles_ascending_witness :
  exists final : DepthFirst.state unit,
    DepthFirst.query skip_particle_3 HIERARCHICAL_ITERATION_STRICT 8 8 4
      (enough_fuel 8 4) = Some final /\
    StronglySorted Z.lt (visited_particles (DepthFirst.events final)).
Proof.
  apply (dfs_particles_ascending skip_particle_3 HIERARCHICAL_ITERATION_STRICT
           8 8 4).
  unfold tree_wf. split; [lia |]. split; [reflexivity | lia].
Defined.

(** X3: when the handler accepts every node (particles may be rejected), a
    depth-first query visits exactly the particles 0, 1, ..., N-1, each once
    and in this order, and its counter ends at exactly N. *)
Theorem dfs_accepting_nodes_visits_all {H : Type} (hd : handler H)
  (strategy : depth_first_iteration_strategy)
  (num_particles effective_num_particles effective_num_levels : Z) :
  tree_wf num_particles effective_num_particles effective_num_levels ->
  (forall h node idx, fst (dfs_node_selector hd h node idx) = true) ->
  exists final : DepthFirst.state H,
    DepthFirst.query hd strategy num_particles effective_num_particles
      effective_num_levels
      (enough_fuel effective_num_particles effective_num_levels) = Some final /\
    visited_particles (DepthFirst.events final) = zrange num_particles /\
    num_covered_particles final = num_particles.
Proof.
  intros Hwf Hacc.
  destruct (loop_establishes hd strategy _ _ _ Hwf
              (fun s =>
                 visited_particles (DepthFirst.events s)
                 = zrange (num_covered_particles s) /\
                 0 <= num_covered_particles s <= num_particles))
    as (s & Hrun & _ & [Hv Hc] & Hge).
  - simpl. split; [reflexivity |]. destruct Hwf as (_ & _ & HN). lia.
  - intros s Hinv HP Hg.
    apply (step_visits_all hd strategy _ _ _ Hwf s Hacc Hinv HP Hg).
  - destruct (query_of_loop _ _ _ _ _ _ _ Hrun) as (final & Hq & He & Hn).
    exists final. split; [exact Hq |].
    rewrite He, visited_particles_app, Hn. simpl. rewrite app_nil_r.
    assert (num_covered_particles s = num_particles) as E by lia.
    rewrite Hv, E. split; reflexivity.
Qed.

Lemma dfs_accepting_nodes_visits_all_witness :
  exists final : DepthFirst.state unit,
    DepthFirst.query skip_particle_3 HIERARCHICAL_ITERATION_RELAXED 6 8 4
      (enough_fuel 8 4) = Some final /\
    visited_particles (DepthFirst.events final) = [0; 1; 2; 3; 4; 5] /\
    num_covered_particles final = 6.
Proof.
  apply (dfs_accepting_nodes_visits_all skip_particle_3
           HIERARCHICAL_ITERATION_RELAXED 6 8 4).
  - unfold tree_wf. split; [lia |]. split; [reflexivity | lia].
  - intros h node idx. reflexivity.
Defined.

(** X4: the particle visits and the node rejections of a depth-first query
    cover the particle slots from 0 up to the final counter without gap or
    overlap: every slot below the counter is covered exactly once, by a visit
    of that particle or by one rejected node above it. *)
Theorem dfs_coverage_partition {H : Type} (hd : handler H)
  (strategy : depth_first_iteration_strategy)
  (num_particles effective_num_particles effective_num_levels : Z) :
  tree_wf num_particles effective_num_particles effective_num_levels ->
  exists final : DepthFirst.state H,
    DepthFirst.query hd strategy num_particles effective_num_particles
      effective_num_levels
      (enough_fuel effective_num_particles effective_num_levels) = Some final /\
    tiles 0 (coverage effective_num_levels (DepthFirst.events final))
      (num_covered_particles final) /\
    num_particles <= num_covered_particles final.
Proof.
  intros Hwf.
  destruct (loop_establishes hd strategy _ _ _ Hwf
              (fun s =>
                 tiles 0 (coverage effective_num_levels (DepthFirst.events s))
                   (num_covered_particles s)))
    as (s & Hrun & _ & HP & Hge).
  - reflexivity.
  - intros s Hinv HP Hg.
    apply (step_coverage hd strategy _ _ _ Hwf s Hinv HP Hg).
  - destruct (query_of_loop _ _ _ _ _ _ _ Hrun) as (final & Hq & He & Hn).
    exists final. split; [exact Hq |].
    rewrite He, coverage_app, Hn. simpl. rewrite app_nil_r.
    split; assumption.
Qed.

Lemma dfs_coverage_partition_witness :
  exists final : DepthFirst.state unit,
    DepthFirst.query skip_right_half HIERARCHICAL_ITERATION_STRICT 8 8 4
      (enough_fuel 8 4) = Some final /\
    tiles 0 (coverage 4 (DepthFirst.events final))
      (num_covered_particles final) /\
    8 <= num_covered_particles final.
Proof.
  apply (dfs_coverage_partition skip_right_half HIERARCHICAL_ITERATION_STRICT
           8 8 4).
  unfold tree_wf. split; [lia |]. split; [reflexivity | lia].
Defined.



(** The loop of find_first_left_parent stops at a node that is not a right
    child, having climbed only from right children. *)
Lemma find_first_left_parent_loop_chain (fuel : nat) :
  forall result : binary_tree_key_t,
    0 <= local_node_id result < 2 ^ Z.of_nat fuel ->
    binary_tree_is_right_child (find_first_left_parent_loop fuel result) = false /\
    exists k : nat,
      result
      = Nat.iter k binary_tree_get_children_last
          (find_first_left_parent_loop fuel result).
Proof.
  induction fuel as [| fuel IH]; intros result Hr; simpl.
  - assert (local_node_id result = 0) as E by (simpl in Hr; lia).
    unfold binary_tree_is_right_child. rewrite E.
    split; [reflexivity | exists O; reflexivity].
  - destruct (binary_tree_is_right_child result) eqn:Hodd.
    + unfold binary_tree_is_right_child in Hodd.
      pose proof (odd_half _ Hodd) as Hhalf.
      destruct (IH (binary_tree_get_parent result)) as (Hl & k & Hk).
      { unfold binary_tree_get_parent; simpl.
        rewrite Nat2Z.inj_succ, Z.pow_succ_r in Hr by lia. lia. }
      split; [exact Hl |]. exists (S k). rewrite Nat.iter_succ, <- Hk.
      destruct result as [l i]. unfold binary_tree_get_children_last,
        binary_tree_get_parent. cbn [level local_node_id] in *.
      f_equal; lia.
    + split; [exact Hodd | exists O; reflexivity].
Qed.

(** X6: for a node with a non-negative local id, find_first_left_parent
    returns a node that is not a right child, and the parent of the node is
    reached from it by right-child steps only: it is the nearest ancestor
    that is a left child (or the root). *)
Theorem find_first_left_parent_nearest (node : binary_tree_key_t) :
  0 <= local_node_id node ->
  binary_tree_is_right_child (find_first_left_parent node) = false /\
  exists k : nat,
    binary_tree_get_parent node
    = Nat.iter k binary_tree_get_children_last (find_first_left_parent node).
Proof.
  intros Hi. unfold find_first_left_parent.
  apply find_first_left_parent_loop_chain.
  assert (0 <= local_node_id (binary_tree_get_parent node)) as Hp.
  { unfold binary_tree_get_parent; simpl. apply Z.div_pos; lia. }
  split; [exact Hp | apply bit_length_covers; exact Hp].
Qed.

Lemma find_first_left_parent_nearest_witness :
  binary_tree_is_right_child (find_first_left_parent (mk_key 4 15)) = false /\
  exists k : nat,
    binary_tree_get_parent (mk_key 4 15)
    = Nat.iter k binary_tree_get_children_last
        (find_first_left_parent (mk_key 4 15)).
Proof.
  apply (find_first_left_parent_nearest (mk_key 4 15)). simpl. lia.
Defined.




(** * The loop over the queries of a task *)

Module Kernel.

(** Both kernels wrap the query in
    [for (size_t tid = get_global_id(0); tid < get_num_queries();
          tid += get_global_size(0))].
    [served_queries] lists the values of [tid] for which the body runs.  The
    width of [size_t] depends on the device; [size_max] is 2 to that width.
    [None] when the fuel runs out before the loop condition fails. *)
Fixpoint served_queries (size_max : Z) (fuel : nat)
  (tid num_queries global_size : Z) : option (list Z) :=
  if tid <? num_queries then
    match fuel with
    | O => None
    | S fuel' =>
        option_map (cons tid)
          (served_queries size_max fuel' ((tid + global_size) mod size_max)
             num_queries global_size)
    end
  else Some [].

Lemma served_queries_from (size_max num_queries global_size id : Z)
  (fuel : nat) :
  0 < global_size -> num_queries + global_size <= size_max ->
  forall tid : Z,
    0 <= tid -> tid mod global_size = id ->
    tid < num_queries + global_size ->
    num_queries - tid <= Z.of_nat fuel ->
    exists l : list Z,
      served_queries size_max fuel tid num_queries global_size = Some l /\
      StronglySorted Z.lt l /\
      forall q : Z,
        In q l <-> (tid <= q < num_queries /\ q mod global_size = id).
Proof.
  intros HG Hmax. induction fuel as [| fuel IH]; intros tid H0 Hmod Hlt Hfuel;
    simpl; destruct (tid <? num_queries) eqn:Hguard;
    try (apply Z.ltb_lt in Hguard; lia);
    try (apply Z.ltb_ge in Hguard; exists []; split; [reflexivity |];
         split; [constructor |]; intros q; simpl; split; [tauto | lia]).
  apply Z.ltb_lt in Hguard.
  rewrite (Z.mod_small (tid + global_size)) by lia.
  destruct (IH (tid + global_size)) as (l & Hl & Hs & Hin); try lia.
  { rewrite <- Hmod. rewrite <- (Z_mod_plus_full tid 1 global_size).
    f_equal. lia. }
  rewrite Hl. simpl. exists (tid :: l). split; [reflexivity |]. split.
  - constructor; [exact Hs |]. apply Forall_forall. intros q Hq.
    apply Hin in Hq. lia.
  - intros q. simpl. rewrite Hin. split.
    + intros [<- | [Hq Hm]]; [split; [lia | exact Hmod] | split; [lia | exact Hm]].
    + intros [Hq Hm].
      destruct (Z.eq_dec tid q) as [E | E]; [left; exact E | right].
      split; [| exact Hm]. split; [| lia].
      pose proof (Z.div_mod q global_size ltac:(lia)) as Dq.
      pose proof (Z.div_mod tid global_size ltac:(lia)) as Dt.
      rewrite Hm in Dq. rewrite Hmod in Dt.
      assert (tid / global_size < q / global_size) by nia. nia.
Qed.

End Kernel.

(** X8: the task with global id [id] out of [global_size] tasks serves, in
    ascending order and once each, exactly the queries below [num_queries]
    that are congruent to [id] modulo [global_size], provided
    [num_queries + global_size] fits a size_t; so every query is served by
    exactly one task. *)
Theorem kernel_serves_own_queries (size_max num_queries global_size id : Z) :
  0 <= num_queries -> 0 < global_size -> 0 <= id < global_size ->
  num_queries + global_size <= size_max ->
  exists l : list Z,
    Kernel.served_queries size_max (Z.to_nat num_queries) id num_queries
      global_size = Some l /\
    StronglySorted Z.lt l /\
    forall q : Z,
      In q l <-> (0 <= q < num_queries /\ q mod global_size = id).
Proof.
  intros HQ HG Hid Hmax.
  assert (id mod global_size = id) as Hmod by (apply Z.mod_small; exact Hid).
  destruct (Kernel.served_queries_from size_max num_queries global_size id
              (Z.to_nat num_queries) HG Hmax id ltac:(lia) Hmod ltac:(lia)
              ltac:(lia))
    as (l & Hl & Hs & Hin).
  exists l. split; [exact Hl |]. split; [exact Hs |].
  intros q. rewrite Hin. split; intros [A B]; (split; [| exact B]);
    [lia |].
  pose proof (Z.mod_le q global_size ltac:(lia) HG). lia.
Qed.

Lemma kernel_serves_own_queries_witness :
  exists l : list Z,
    Kernel.served_queries (2 ^ 64) 10 1 10 4 = Some l /\
    StronglySorted Z.lt l /\
    forall q : Z, In q l <-> (0 <= q < 10 /\ q mod 4 = 1).
Proof.
  apply (kernel_serves_own_queries (2 ^ 64) 10 4 1); lia.
Defined.

(** * Further properties of the breadth-first engine *)

Module BreadthFirstBounds.
Import BreadthFirst BreadthFirstFacts BreadthFirstLevel BreadthFirstLoop
  BreadthFirstRun BreadthFirstAccesses.

(** The working set and the number of candidates of an offer fit the arrays of
    the query: the working set its [capacity] entries, the candidates the
    [2 * capacity] entries of the selection map. *)
Definition offer_fits (capacity : Z) (e : event) : Prop :=
  match e with
  | NodeSelector _ working_set n available_children =>
      1 <= n <= capacity /\
      length working_set = Z.to_nat capacity /\
      2 * n - 1 <= available_children <= 2 * n
  | ParticleProcessor working_set n num_available_particles =>
      1 <= n <= capacity /\
      length working_set = Z.to_nat capacity /\
      2 * n - 1 <= num_available_particles <= 2 * n
  | _ => True
  end.

Section Bounds.

Context {H : Type}.
Variable hd : handler H.
Variable Max_selected_nodes : Z.
Variables num_particles effective_num_levels : Z.
Hypothesis Hcap : 1 <= Max_selected_nodes < 2 ^ 31.

Lemma after_levels_offers_fit :
  Forall (offer_fits Max_selected_nodes)
    (events (after_levels hd Max_selected_nodes num_particles
               effective_num_levels)) /\
  count_ok Max_selected_nodes
    (after_levels hd Max_selected_nodes num_particles effective_num_levels).
Proof.
  unfold after_levels, node_levels.
  destruct (level_loop_invariant hd Max_selected_nodes num_particles
              effective_num_levels
              (fun _ s => count_ok Max_selected_nodes s)
              (offer_fits Max_selected_nodes))
    with (k := 63%nat) (a := 1%nat) (s := query_start hd Max_selected_nodes)
    as (HF & l' & _ & HI & _).
  - intros level s Hl Hok Hne _. split.
    + apply (level_body_spec hd Max_selected_nodes num_particles
               effective_num_levels Hcap level s Hok).
    + pose proof (children_count_spec Max_selected_nodes num_particles
                    effective_num_levels Hcap level s Hok Hne Hl) as Hc.
      destruct Hok as [Hn Hlen]. unfold offer_fits.
      split; [lia |]. split; [exact Hlen |].
      rewrite Hc. destruct (binary_tree_is_node_used _ _ _); lia.
  - lia.
  - lia.
  - apply query_start_count_ok. exact Hcap.
  - repeat constructor.
  - split; assumption.
Qed.

Lemma query_offers_fit :
  Forall (offer_fits Max_selected_nodes)
    (events (query hd Max_selected_nodes num_particles effective_num_levels)) /\
  0 <= num_available_nodes
         (query hd Max_selected_nodes num_particles effective_num_levels)
    <= Max_selected_nodes.
Proof.
  destruct after_levels_offers_fit as [HF [Hn Hlen]]. split.
  - rewrite query_events, particle_pass_events.
    apply Forall_app. split; [| repeat constructor].
    apply Forall_app. split; [exact HF |].
    destruct (0 <? _) eqn:E; [| constructor].
    apply Z.ltb_lt in E. constructor; [| constructor].
    unfold offer_fits. cbv zeta. split; [lia |]. split; [exact Hlen |].
    rewrite (wrap32_small (2 * _)) by lia.
    rewrite (wrap32_small (2 * _ - 1)) by lia.
    destruct (_ <=? _); lia.
  - unfold query, particle_pass. cbn [num_available_nodes].
    destruct (0 <? _); cbn [num_available_nodes]; exact Hn.
Qed.

(** Accesses of the compaction loop when no more candidates are selected
    than fit. *)
Lemma compact_fold_in_bounds (ws : list Z) (sel : Z -> bool) (l : list Z) :
  forall (c : compaction) (done : list Z),
    compacted Max_selected_nodes c done ->
    Z.of_nat (length done + length (filter sel l)) <= Max_selected_nodes ->
    Forall (fun i => 0 <= i < Max_children Max_selected_nodes) l ->
    Forall (fun x => in_bounds Max_selected_nodes x = true) (c_accesses c) ->
    Forall (fun x => in_bounds Max_selected_nodes x = true)
      (c_accesses (fold_left (compact_step Max_selected_nodes ws sel) l c)).
Proof.
  induction l as [| i l IH]; intros c done Hc Hfit Hl Hlog;
    cbn [filter fold_left] in *; [exact Hlog |].
  inversion Hl as [| ? ? Hi Hl']; subst.
  destruct (sel i) eqn:Hsel.
  - pose proof (compact_step_selected Max_selected_nodes Hcap ws sel c done i
                  Hc Hsel) as Hc'.
    cbn [length] in Hfit.
    apply (IH _ (done ++ [get_lnid_from_available_children_index ws i]) Hc').
    + rewrite length_app. cbn [length]. lia.
    + exact Hl'.
    + unfold compact_step. rewrite Hsel. cbn [c_accesses].
      apply Forall_app. split; [exact Hlog |].
      destruct Hc as (Hn & _). unfold Max_children in Hi.
      constructor; [| constructor; [| constructor]]; unfold in_bounds;
        cbn [access_index]; apply andb_true_iff;
        (split; [apply Z.leb_le | apply Z.ltb_lt]).
      * rewrite shiftr_one. apply Z.div_pos; lia.
      * rewrite shiftr_one. apply Z.div_lt_upper_bound; lia.
      * lia.
      * lia.
  - replace (compact_step Max_selected_nodes ws sel c i) with c
      by (unfold compact_step; rewrite Hsel; reflexivity).
    apply (IH c done); assumption.
Qed.

End Bounds.

End BreadthFirstBounds.

Import BreadthFirstOverflow BreadthFirstAccesses BreadthFirstBounds.

(** X9: in every breadth-first query the working set never exceeds the
    capacity: at every offer to the handler it holds between 1 and
    Max_selected_nodes nodes in an array of Max_selected_nodes entries, the
    number of candidates offered is 2n or 2n-1 (so at most Max_children, the
    size of the selection map), and the final count is at most the capacity. *)
Theorem bfs_working_set_capped {H : Type} (hd : handler H)
  (Max_selected_nodes num_particles effective_num_levels : Z) :
  1 <= Max_selected_nodes < 2 ^ 31 ->
  Forall (offer_fits Max_selected_nodes)
    (BreadthFirst.events
       (BreadthFirst.query hd Max_selected_nodes num_particles
          effective_num_levels)) /\
  0 <= BreadthFirst.num_available_nodes
         (BreadthFirst.query hd Max_selected_nodes num_particles
            effective_num_levels)
    <= Max_selected_nodes.
Proof.
  intros Hcap. apply query_offers_fit. exact Hcap.
Qed.

Lemma bfs_working_set_capped_witness :
  Forall (offer_fits 1)
    (BreadthFirst.events (BreadthFirst.query select_all 1 4 3)) /\
  0 <= BreadthFirst.num_available_nodes (BreadthFirst.query select_all 1 4 3)
    <= 1.
Proof.
  apply (bfs_working_set_capped select_all 1 4 3). lia.
Defined.

(** X10: every load and store a breadth-first query makes on
    available_nodes_local_id and temp_new_node_ids is within the
    Max_selected_nodes entries of the array, with one exception: a store to
    temp_new_node_ids at index Max_selected_nodes. *)
Theorem bfs_accesses_in_bounds_but_one {H : Type} (hd : handler H)
  (Max_selected_nodes num_particles effective_num_levels : Z) :
  1 <= Max_selected_nodes < 2 ^ 31 ->
  Forall (access_ok Max_selected_nodes)
    (BreadthFirst.accesses
       (BreadthFirst.query hd Max_selected_nodes num_particles
          effective_num_levels)).
Proof.
  intros Hcap. apply query_accesses. exact Hcap.
Qed.

Lemma bfs_accesses_in_bounds_but_one_witness :
  Forall (access_ok 2)
    (BreadthFirst.accesses (BreadthFirst.query select_all 2 6 4)).
Proof.
  apply (bfs_accesses_in_bounds_but_one select_all 2 6 4). lia.
Defined.

(** X11: the compaction loop of a level stores past the end of
    temp_new_node_ids exactly when more than Max_selected_nodes candidates
    are selected; with at most Max_selected_nodes selected candidates all its
    accesses are in bounds. *)
Theorem bfs_compaction_overflow_iff (Max_selected_nodes : Z)
  (available_nodes_local_id : list Z) (selection_map : Z -> bool) :
  1 <= Max_selected_nodes < 2 ^ 31 ->
  let selected :=
    filter selection_map (zrange (BreadthFirst.Max_children Max_selected_nodes)) in
  let log :=
    BreadthFirst.c_accesses
      (BreadthFirst.compact Max_selected_nodes available_nodes_local_id
         selection_map []) in
  (Max_selected_nodes < Z.of_nat (length selected) <->
   In (BreadthFirst.ArrayStore BreadthFirst.temp_new_node_ids_array
         Max_selected_nodes) log) /\
  (Z.of_nat (length selected) <= Max_selected_nodes ->
   Forall (fun x => BreadthFirst.in_bounds Max_selected_nodes x = true) log).
Proof.
  intros Hcap selected log.
  assert (BreadthFirstFacts.compacted Max_selected_nodes
            {| BreadthFirst.c_num_available_nodes := 0;
               BreadthFirst.c_temp_new_node_ids :=
                 repeat 0 (Z.to_nat Max_selected_nodes);
               BreadthFirst.c_accesses := [] |} []) as Hinit.
  { unfold BreadthFirstFacts.compacted; simpl. rewrite repeat_length.
    split; [lia |]. split; reflexivity. }
  assert (Forall (fun i => 0 <= i < BreadthFirst.Max_children Max_selected_nodes)
            (zrange (BreadthFirst.Max_children Max_selected_nodes))) as Hrange.
  { apply Forall_forall. intros i Hi. apply in_zrange in Hi. exact Hi. }
  assert (Z.of_nat (length selected) <= Max_selected_nodes ->
          Forall (fun x => BreadthFirst.in_bounds Max_selected_nodes x = true) log)
    as Hsafe.
  { intros Hfit. subst log. unfold BreadthFirst.compact.
    apply (compact_fold_in_bounds Max_selected_nodes Hcap _ _ _ _ [] Hinit);
      [exact Hfit | exact Hrange | constructor]. }
  split; [| exact Hsafe]. split.
  - intros Hmore. subst log. unfold BreadthFirst.compact.
    apply (compact_fold_overflow Max_selected_nodes Hcap _ _ _ _ [] Hinit);
      [exact Hmore | simpl; lia].
  - intros Hin.
    destruct (Z_lt_le_dec Max_selected_nodes (Z.of_nat (length selected)))
      as [Hlt | Hle]; [exact Hlt |].
    specialize (Hsafe Hle). rewrite Forall_forall in Hsafe.
    specialize (Hsafe _ Hin). unfold BreadthFirst.in_bounds in Hsafe.
    cbn [BreadthFirst.access_index] in Hsafe.
    apply andb_true_iff in Hsafe. destruct Hsafe as [_ Hb].
    apply Z.ltb_lt in Hb. lia.
Qed.

Lemma bfs_compaction_overflow_iff_witness :
  In (BreadthFirst.ArrayStore BreadthFirst.temp_new_node_ids_array 2)
     (BreadthFirst.c_accesses
        (BreadthFirst.compact 2 [0; 1] (fun i => i <? 3) [])).
Proof.
  apply (proj1 (bfs_compaction_overflow_iff 2 [0; 1] (fun i => i <? 3)
                  ltac:(lia))).
  simpl. lia.
Defined.

Module BreadthFirstOrder.
Import BreadthFirst BreadthFirstFacts BreadthFirstLevel BreadthFirstLoop
  BreadthFirstRun BreadthFirstOverflow BreadthFirstSafety BreadthFirstOffers.

(** The candidates of an offer come from left to right, each once, and lie
    inside their level. *)
Definition offer_ascending (e : event) : Prop :=
  match e with
  | NodeSelector level working_set _ available_children =>
      StronglySorted Z.lt
        (map local_node_id
             (candidate_nodes level working_set available_children)) /\
      Forall (fun node => 0 <= local_node_id node < 2 ^ level)
             (candidate_nodes level working_set available_children)
  | ParticleProcessor working_set _ num_available_particles =>
      StronglySorted Z.lt
        (map (get_lnid_from_available_children_index working_set)
             (zrange num_available_particles))
  | _ => True
  end.

Section Order.

Context {H : Type}.
Variable hd : handler H.
Variable Max_selected_nodes : Z.
Variables num_particles effective_num_particles effective_num_levels : Z.
Hypothesis Hcap : 1 <= Max_selected_nodes < 2 ^ 31.
Hypothesis Hwf : tree_wf num_particles effective_num_particles effective_num_levels.

Abbreviation inv :=
  (level_inv Max_selected_nodes num_particles effective_num_levels
     (effective_num_levels - 2)).

(** The entries of the working set beyond the new count keep their value. *)
Lemma level_body_rest (level : Z) (s : state H) :
  count_ok Max_selected_nodes s ->
  let s' :=
    level_body hd Max_selected_nodes num_particles effective_num_levels level s in
  skipn (Z.to_nat (num_available_nodes s')) (available_nodes_local_id s')
  = skipn (Z.to_nat (num_available_nodes s')) (available_nodes_local_id s).
Proof.
  intros [Hn Hlen]. simpl. unfold level_body.
  destruct (bfs_node_selector hd (handler_state s) level
              (available_nodes_local_id s) _) as [sel h1].
  set (log := accesses s ++ _).
  pose proof (compact_spec Max_selected_nodes Hcap (available_nodes_local_id s)
                sel log) as (Hnum & Htemp & _).
  destruct (copy_back _ _) as [ids log'] eqn:Hcb.
  cbn [num_available_nodes available_nodes_local_id].
  replace ids with (fst (copy_back
                           (compact Max_selected_nodes
                              (available_nodes_local_id s) sel log)
                           (available_nodes_local_id s)))
    by (rewrite Hcb; reflexivity).
  unfold copy_back, zrange.
  rewrite (copy_back_fold Max_selected_nodes Hcap) by (simpl; lia).
  cbn [fst]. rewrite skipn_app, length_firstn.
  replace (Nat.min _ _) with
    (Z.to_nat (c_num_available_nodes
                 (compact Max_selected_nodes (available_nodes_local_id s) sel log)))
    by lia.
  rewrite Nat.sub_diag. cbn [skipn].
  rewrite skipn_all2 by (rewrite length_firstn; lia). reflexivity.
Qed.

Lemma candidates_ascending (lvl : Z) (ws : list Z) (n count : Z) :
  1 <= lvl <= effective_num_levels - 1 -> 1 <= n ->
  working_set_ok effective_num_levels num_particles (lvl - 1)
    (firstn (Z.to_nat n) ws) ->
  (Z.to_nat n <= length ws)%nat ->
  count <= 2 * n ->
  StronglySorted Z.lt
    (map (get_lnid_from_available_children_index ws) (zrange count)).
Proof.
  intros Hlvl Hn Hws Hlen Hc.
  apply map_sorted; [apply zrange_sorted |].
  intros x y Hx Hy Hxy. apply in_zrange in Hx. apply in_zrange in Hy.
  apply (lnid_increasing _ _ _ Hwf lvl _ _ Hlvl Hn Hws Hlen); lia.
Qed.

Hypothesis Hkeeps : selects_offered_only hd (effective_num_levels - 2).

Lemma level_step_ascending (lvl : Z) (s : state H) :
  1 <= lvl < 64 -> inv lvl s ->
  num_available_nodes s <> 0 ->
  lvl <> wrap64 (effective_num_levels - 1) ->
  accesses_in_bounds Max_selected_nodes
    (level_body hd Max_selected_nodes num_particles effective_num_levels lvl s)
  = true ->
  inv (lvl + 1)
    (level_body hd Max_selected_nodes num_particles effective_num_levels lvl s)
  /\
  offer_ascending
    (NodeSelector lvl (available_nodes_local_id s) (num_available_nodes s)
       (count_available_children num_particles effective_num_levels lvl s)).
Proof.
  intros Hl Hinv Hne Hnl Hdef.
  destruct (level_step_ok hd Max_selected_nodes num_particles
              effective_num_particles effective_num_levels Hcap Hwf
              (effective_num_levels - 2) Hkeeps lvl s
              Hl Hinv Hne Hnl Hdef) as [Hinv' [Hrange Hused]].
  split; [exact Hinv' |].
  destruct Hinv as (Hle & Hok & Hws).
  assert (wrap64 (effective_num_levels - 1) = effective_num_levels - 1) as Hw.
  { destruct Hwf as (HL & _). apply wrap64_small. lia. }
  rewrite Hw in Hnl.
  specialize (Hws ltac:(lia)). specialize (Hused ltac:(lia)).
  pose proof (children_count_spec Max_selected_nodes num_particles
                effective_num_levels Hcap lvl s Hok Hne Hl) as Hcount.
  assert (count_available_children num_particles effective_num_levels lvl s
          <= 2 * num_available_nodes s) as Hcle.
  { rewrite Hcount. destruct (binary_tree_is_node_used _ _ _); lia. }
  unfold offer_ascending. split.
  - unfold candidate_nodes. rewrite map_map. cbn [local_node_id].
    apply (candidates_ascending lvl _ (num_available_nodes s)); try lia.
    + destruct Hok; lia.
    + exact Hws.
    + destruct Hok as [? ->]; lia.
  - apply Forall_forall. intros node Hnode.
    rewrite Forall_forall in Hused. pose proof (Hused _ Hnode) as Hu.
    unfold candidate_nodes in Hnode. apply in_map_iff in Hnode.
    destruct Hnode as (j & <- & Hj). cbn [local_node_id].
    unfold binary_tree_is_node_used, leftmost_leaf in Hu.
    cbn [level local_node_id] in Hu. apply Z.ltb_lt in Hu.
    apply in_zrange in Hj.
    assert (1 <= num_available_nodes s) as Hn1 by (destruct Hok; lia).
    assert (Z.to_nat (num_available_nodes s)
            <= length (available_nodes_local_id s))%nat as Hlen
        by (destruct Hok as [? ->]; lia).
    assert (1 <= lvl <= effective_num_levels - 1) as Hlvl by lia.
    pose proof (lnid_spec _ _ _ Hwf lvl _ _ Hlvl Hn1 Hws Hlen j ltac:(lia))
      as Hspec.
    assert (0 <= j / 2 < num_available_nodes s) as Hk.
    { split; [apply Z.div_pos; lia | apply Z.div_lt_upper_bound; lia]. }
    destruct (entry_range _ _ _ Hwf lvl _ _ Hlvl Hn1 Hws Hlen (j / 2) Hk)
      as [Hr _].
    pose proof (level_width lvl effective_num_levels ltac:(lia)) as Hwd.
    pose proof (leaves_per_node_pos lvl effective_num_levels ltac:(lia)) as Hp.
    pose proof (Z.mod_pos_bound j 2 ltac:(lia)) as Hm.
    destruct Hwf as (_ & Heff & HN).
    split; [lia | nia].
Qed.

End Order.

End BreadthFirstOrder.

Import BreadthFirstSafety BreadthFirstOffers BreadthFirstOrder.

(** A stateless handler for sample runs: it selects both nodes of level 1
    and, below, node 2 only. *)
Definition select_node_2 : handler unit :=
  stateless_handler
    (fun node => (level node =? 1) || (local_node_id node =? 2))
    (fun _ => true).

(** X12: when the selection map of a level has no more entries set than the
    working set has room for, the level replaces the working set by the
    local node ids of the selected candidates, in candidate order: the new
    count is the number of selected candidates, the first entries of the
    array are their ids, and the entries beyond keep their old value. *)
Theorem bfs_level_compacts_selection {H : Type} (hd : handler H)
  (Max_selected_nodes num_particles effective_num_levels level : Z)
  (s : BreadthFirst.state H) :
  1 <= Max_selected_nodes < 2 ^ 31 ->
  count_ok Max_selected_nodes s ->
  let s' :=
    BreadthFirst.level_body hd Max_selected_nodes num_particles
      effective_num_levels level s in
  let ids :=
    map (BreadthFirst.get_lnid_from_available_children_index
           (BreadthFirst.available_nodes_local_id s))
        (selected_candidates hd Max_selected_nodes num_particles
           effective_num_levels level s) in
  Z.of_nat (length ids) <= Max_selected_nodes ->
  BreadthFirst.num_available_nodes s' = Z.of_nat (length ids) /\
  length (BreadthFirst.available_nodes_local_id s')
  = Z.to_nat Max_selected_nodes /\
  firstn (length ids) (BreadthFirst.available_nodes_local_id s') = ids /\
  skipn (length ids) (BreadthFirst.available_nodes_local_id s')
  = skipn (length ids) (BreadthFirst.available_nodes_local_id s).
Proof.
  intros Hcap Hok. cbv zeta. intros Hfit.
  destruct (level_body_spec hd Max_selected_nodes num_particles
              effective_num_levels Hcap level s Hok) as ([_ Hlen] & Hnum & Hlive).
  pose proof (level_body_rest hd Max_selected_nodes num_particles
                effective_num_levels Hcap level s Hok) as Hrest.
  cbv zeta in Hnum, Hlive, Hrest. specialize (Hlive Hfit).
  unfold live in Hlive.
  rewrite Z.min_l in Hnum by exact Hfit.
  rewrite Hnum in Hlive, Hrest. rewrite Nat2Z.id in Hlive, Hrest.
  split; [exact Hnum |]. split; [exact Hlen |]. split; [exact Hlive |].
  exact Hrest.
Qed.

Lemma bfs_level_compacts_selection_witness :
  let s :=
    BreadthFirst.level_body select_node_2 4 6 4 1
      (BreadthFirst.query_start select_node_2 4) in
  let s' := BreadthFirst.level_body select_node_2 4 6 4 2 s in
  BreadthFirst.available_nodes_local_id s = [0; 1; 0; 0] /\
  BreadthFirst.num_available_nodes s' = 1 /\
  length (BreadthFirst.available_nodes_local_id s') = 4%nat /\
  firstn 1 (BreadthFirst.available_nodes_local_id s') = [2] /\
  skipn 1 (BreadthFirst.available_nodes_local_id s') = [1; 0; 0].
Proof.
  cbv zeta. split; [reflexivity |].
  apply (bfs_level_compacts_selection select_node_2 4 6 4 2
           (BreadthFirst.level_body select_node_2 4 6 4 1
              (BreadthFirst.query_start select_node_2 4))).
  - lia.
  - split; [| reflexivity].
    change (BreadthFirst.num_available_nodes
              (BreadthFirst.level_body select_node_2 4 6 4 1
                 (BreadthFirst.query_start select_node_2 4))) with 2.
    lia.
  - vm_compute. intros Hc. discriminate Hc.
Defined.

(** X13: for every well-formed tree with at least two levels, a
    breadth-first query whose handler selects only among the candidates it is
    offered, and that makes no access out of range, offers the node selector
    only used nodes of the levels 1 .. effective_num_levels-2, and offers the
    particle processor only particles with an index below the true particle
    count. *)
Theorem bfs_offers_in_range {H : Type} (hd : handler H)
  (Max_selected_nodes : Z)
  (num_particles effective_num_particles effective_num_levels : Z) :
  1 <= Max_selected_nodes < 2 ^ 31 ->
  tree_wf num_particles effective_num_particles effective_num_levels ->
  2 <= effective_num_levels ->
  selects_offered_only hd (effective_num_levels - 2) ->
  accesses_in_bounds Max_selected_nodes
    (BreadthFirst.query hd Max_selected_nodes num_particles
       effective_num_levels) = true ->
  Forall (offers_in_range num_particles effective_num_levels)
    (BreadthFirst.events
       (BreadthFirst.query hd Max_selected_nodes num_particles
          effective_num_levels)).
Proof.
  intros Hcap Hwf HL Hkeeps Hdef.
  pose proof (query_offers_in_range hd Max_selected_nodes num_particles
                effective_num_particles effective_num_levels Hcap Hwf
                (effective_num_levels - 2) Hkeeps HL Hdef) as HF.
  apply (Forall_impl _ (fun e => offers_in_range_upto_all num_particles
                                   effective_num_levels
                                   (effective_num_levels - 2) e
                                   ltac:(lia)) HF).
Qed.

Lemma bfs_offers_in_range_witness :
  Forall (offers_in_range 5 4)
    (BreadthFirst.events (BreadthFirst.query select_node_2 2 5 4)).
Proof.
  apply (bfs_offers_in_range select_node_2 2 5 8 4).
  - lia.
  - unfold tree_wf. split; [lia |]. split; [reflexivity | lia].
  - lia.
  - apply stateless_handler_keeps_to_offer.
  - reflexivity.
Defined.

(** X14: in a breadth-first query whose handler selects only among the
    candidates it is offered, and that makes no access out of range, the
    candidates of every offer come from left to right: their local node ids
    are strictly increasing, so no node (and no particle) is offered twice,
    and every offered node id is below the number of nodes of its level,
    2^level. *)
Theorem bfs_offers_ascending {H : Type} (hd : handler H)
  (Max_selected_nodes : Z)
  (num_particles effective_num_particles effective_num_levels : Z) :
  1 <= Max_selected_nodes < 2 ^ 31 ->
  tree_wf num_particles effective_num_particles effective_num_levels ->
  2 <= effective_num_levels ->
  selects_offered_only hd (effective_num_levels - 2) ->
  accesses_in_bounds Max_selected_nodes
    (BreadthFirst.query hd Max_selected_nodes num_particles
       effective_num_levels) = true ->
  Forall offer_ascending
    (BreadthFirst.events
       (BreadthFirst.query hd Max_selected_nodes num_particles
          effective_num_levels)).
Proof.
  intros Hcap Hwf HL2 Hkeeps Hdef. rewrite query_events. apply Forall_app.
  split; [| repeat constructor].
  destruct (level_loop_invariant_defined hd Max_selected_nodes num_particles
              effective_num_levels
              (level_inv Max_selected_nodes num_particles effective_num_levels
                 (effective_num_levels - 2))
              offer_ascending
              (level_step_ascending hd Max_selected_nodes num_particles
                 effective_num_particles effective_num_levels Hcap Hwf Hkeeps)
              63%nat 1%nat (BreadthFirst.query_start hd Max_selected_nodes))
    as (HF & l' & Hl' & (Hle & Hok & Hws) & Hex).
  - lia.
  - lia.
  - apply (query_start_level_inv hd Max_selected_nodes num_particles
             effective_num_particles effective_num_levels Hcap Hwf
             (effective_num_levels - 2) HL2).
  - repeat constructor.
  - apply (query_defined_before hd Max_selected_nodes num_particles
             effective_num_levels Hdef).
  - fold BreadthFirst.node_levels in HF, Hok, Hws, Hex.
    fold (BreadthFirst.after_levels hd Max_selected_nodes num_particles
            effective_num_levels) in HF, Hok, Hws, Hex.
    rewrite particle_pass_events. apply Forall_app. split; [exact HF |].
    set (s := BreadthFirst.after_levels hd Max_selected_nodes num_particles
                effective_num_levels) in *.
    destruct (0 <? BreadthFirst.num_available_nodes s) eqn:E; [| constructor].
    apply Z.ltb_lt in E. constructor; [| constructor].
    assert (wrap64 (effective_num_levels - 1) = effective_num_levels - 1) as Hw.
    { destruct Hwf as (HL & _). apply wrap64_small. lia. }
    assert (l' = effective_num_levels - 1) as ->.
    { destruct Hwf as (HL & _).
      destruct Hex as [Hz | [He | He]]; [lia | lia |].
      simpl in He. lia. }
    specialize (Hws ltac:(lia)).
    unfold offer_ascending. cbv zeta.
    rewrite (wrap32_small (2 * BreadthFirst.num_available_nodes s))
      by (destruct Hok; lia).
    rewrite (wrap32_small (2 * BreadthFirst.num_available_nodes s - 1))
      by (destruct Hok; lia).
    apply (candidates_ascending num_particles effective_num_particles
             effective_num_levels Hwf (effective_num_levels - 1) _
             (BreadthFirst.num_available_nodes s)); try lia.
    + exact Hws.
    + destruct Hok as [? ->]; lia.
    + destruct (_ <=? _); lia.
Qed.

Lemma bfs_offers_ascending_witness :
  Forall offer_ascending
    (BreadthFirst.events (BreadthFirst.query select_all 4 6 4)).
Proof.
  apply (bfs_offers_ascending select_all 4 6 8 4).
  - lia.
  - unfold tree_wf. split; [lia |]. split; [reflexivity | lia].
  - lia.
  - apply stateless_handler_keeps_to_offer.
  - reflexivity.
Defined.

(** ** The breadth-first engine under a handler that selects everything *)

Module BreadthFirstComplete.
Import BreadthFirst BreadthFirstFacts BreadthFirstLevel BreadthFirstLoop
  BreadthFirstRun BreadthFirstSafety BreadthFirstOffers.

(** The batched node selector selects every candidate it is offered, and no
    other. *)
Definition selects_every_node {H : Type} (hd : handler H) : Prop :=
  forall (h : H) (level : Z) (working_set : list Z) (available_children id : Z),
    fst (bfs_node_selector hd h level working_set available_children) id
    = (0 <=? id) && (id <? available_children).

Lemma array_get_zrange (m k : Z) : 0 <= k < m -> array_get (zrange m) k = k.
Proof.
  intros Hk. unfold array_get, zrange.
  change 0 with (Z.of_nat 0) at 1. rewrite map_nth, seq_nth by lia. lia.
Qed.

Lemma zrange_length (m : Z) : length (zrange m) = Z.to_nat m.
Proof. unfold zrange. rewrite length_map, length_seq. reflexivity. Qed.

(** Filtering a range by "below [a]" leaves the range up to [a]. *)
Lemma filter_zrange_below (f : Z -> bool) (a : Z) (m : nat) :
  0 <= a ->
  (forall i, 0 <= i < Z.of_nat m -> f i = (i <? a)) ->
  filter f (zrange (Z.of_nat m)) = zrange (Z.min a (Z.of_nat m)).
Proof.
  intros Ha. induction m as [| m IH]; intros Hf.
  - rewrite Z.min_r by lia. reflexivity.
  - replace (Z.of_nat (S m)) with (Z.of_nat m + 1) by lia.
    rewrite zrange_succ by lia. rewrite filter_app.
    rewrite IH by (intros i Hi; apply Hf; lia). simpl.
    rewrite (Hf (Z.of_nat m)) by lia.
    destruct (Z.ltb_spec (Z.of_nat m) a) as [Hlt | Hge].
    + rewrite !Z.min_r by lia. rewrite zrange_succ by lia. reflexivity.
    + rewrite !Z.min_l by lia. rewrite app_nil_r. reflexivity.
Qed.

Lemma offered_particles_nodes (nodes rest : list event) :
  Forall is_node_selector nodes ->
  offered_particles (nodes ++ rest) = offered_particles rest.
Proof.
  induction 1 as [| e nodes He Hall IH]; [reflexivity |].
  destruct e; simpl in *; try contradiction. exact IH.
Qed.

Section Complete.

Context {H : Type}.
Variable hd : handler H.
Variable Max_selected_nodes : Z.
Variables num_particles effective_num_particles effective_num_levels : Z.
Hypothesis Hcap : 1 <= Max_selected_nodes < 2 ^ 31.
Hypothesis Hwf : tree_wf num_particles effective_num_particles effective_num_levels.
Hypothesis Hroom : 2 ^ (effective_num_levels - 2) <= Max_selected_nodes.
Hypothesis Hall : selects_every_node hd.

Abbreviation width lvl := (BT_LEAVES_PER_NODE lvl effective_num_levels).

(** At the head of level [lvl] the working set holds all used nodes of level
    [lvl - 1]: the nodes 0 .. n-1, where n-1 is the last one whose leftmost
    leaf is a real particle. *)
Definition full_inv (lvl : Z) (s : state H) : Prop :=
  lvl <= effective_num_levels - 1 /\
  count_ok Max_selected_nodes s /\
  1 <= num_available_nodes s /\
  live s = zrange (num_available_nodes s) /\
  (num_available_nodes s - 1) * width (lvl - 1) < num_particles
    <= num_available_nodes s * width (lvl - 1).

Lemma full_working_set_ok (lvl n : Z) :
  lvl <= effective_num_levels ->
  (n - 1) * width (lvl - 1) < num_particles ->
  working_set_ok effective_num_levels num_particles (lvl - 1) (zrange n).
Proof.
  intros Hl Hn. split; [apply zrange_sorted |].
  apply Forall_forall. intros e He. apply in_zrange in He.
  split; [lia |]. unfold leftmost_leaf. cbn [level local_node_id].
  pose proof (leaves_per_node_nonneg (lvl - 1) effective_num_levels). nia.
Qed.

(** With the working set 0 .. n-1 candidate [j] is node (or particle) [j]. *)
Lemma candidates_identity (lvl : Z) (ws : list Z) (n count : Z) :
  1 <= lvl <= effective_num_levels - 1 -> 1 <= n ->
  (Z.to_nat n <= length ws)%nat ->
  firstn (Z.to_nat n) ws = zrange n ->
  (n - 1) * width (lvl - 1) < num_particles ->
  count <= 2 * n ->
  map (get_lnid_from_available_children_index ws) (zrange count) = zrange count.
Proof.
  intros Hlvl Hn Hlen Hlive Hlast Hc.
  rewrite <- (map_id (zrange count)) at 2. apply map_ext_in.
  intros j Hj. apply in_zrange in Hj.
  assert (working_set_ok effective_num_levels num_particles (lvl - 1)
            (firstn (Z.to_nat n) ws)) as Hws.
  { rewrite Hlive. apply full_working_set_ok; [lia | exact Hlast]. }
  rewrite (lnid_spec _ _ _ Hwf lvl ws n Hlvl Hn Hws Hlen j) by lia.
  assert (0 <= j / 2 < n) as Hk.
  { split; [apply Z.div_pos; lia | apply Z.div_lt_upper_bound; lia]. }
  rewrite <- (array_get_firstn ws (Z.to_nat n)) by lia.
  rewrite Hlive, array_get_zrange by lia.
  pose proof (Z.div_mod j 2 ltac:(lia)). lia.
Qed.

Lemma full_step (lvl : Z) (s : state H) :
  1 <= lvl < 64 -> full_inv lvl s ->
  num_available_nodes s <> 0 ->
  lvl <> wrap64 (effective_num_levels - 1) ->
  full_inv (lvl + 1)
    (level_body hd Max_selected_nodes num_particles effective_num_levels lvl s)
  /\ True.
Proof.
  intros Hl (Hle & Hok & Hn1 & Hlive & Hlo & Hhi) Hne Hnl.
  split; [| exact I].
  assert (wrap64 (effective_num_levels - 1) = effective_num_levels - 1) as Hw.
  { destruct Hwf as (HL & _). apply wrap64_small. lia. }
  rewrite Hw in Hnl.
  assert (1 <= lvl <= effective_num_levels - 2) as Hlvl by lia.
  assert (Z.to_nat (num_available_nodes s)
          <= length (available_nodes_local_id s))%nat as Hlen
      by (destruct Hok as [? ->]; lia).
  unfold live in Hlive.
  set (n := num_available_nodes s) in *.
  set (ws := available_nodes_local_id s) in *.
  pose proof (leaves_per_node_parent lvl effective_num_levels ltac:(lia)) as Hdbl.
  pose proof (leaves_per_node_pos lvl effective_num_levels ltac:(lia)) as Hpos.
  rewrite Hdbl in Hlo, Hhi.
  (* the number of candidates *)
  pose proof (children_count_spec Max_selected_nodes num_particles
                effective_num_levels Hcap lvl s Hok Hne Hl) as Hcount.
  fold n ws in Hcount.
  assert (array_get ws (n - 1) = n - 1) as Hlast.
  { rewrite <- (array_get_firstn ws (Z.to_nat n)) by lia.
    rewrite Hlive. apply array_get_zrange. lia. }
  rewrite Hlast in Hcount.
  unfold binary_tree_is_node_used, leftmost_leaf, binary_tree_get_children_last,
    binary_tree_key_init in Hcount.
  cbn [level local_node_id] in Hcount.
  replace (lvl - 1 + 1) with lvl in Hcount by lia.
  set (ac := count_available_children num_particles effective_num_levels lvl s)
    in *.
  assert (1 <= ac <= 2 * n /\
          (ac - 1) * width lvl < num_particles <= ac * width lvl) as (Hac & Hacw).
  { revert Hcount.
    destruct (Z.ltb_spec (((n - 1) * 2 + 1) * width lvl) num_particles)
      as [Hu | Hu]; intros Hcount; split; nia. }
  assert (ac <= 2 ^ lvl) as Hac2.
  { pose proof (level_width lvl effective_num_levels ltac:(lia)) as Hwd.
    destruct Hwf as (_ & Heff & HN). nia. }
  assert (2 ^ lvl <= 2 ^ (effective_num_levels - 2)) as Hmono
      by (apply Z.pow_le_mono_r; lia).
  (* the handler selects all of them *)
  assert (selected_candidates hd Max_selected_nodes num_particles
            effective_num_levels lvl s = zrange ac) as Hsel.
  { unfold selected_candidates, Max_children.
    replace (2 * Max_selected_nodes)
      with (Z.of_nat (Z.to_nat (2 * Max_selected_nodes))) by lia.
    rewrite (filter_zrange_below _ ac); [f_equal; lia | lia |].
    intros i Hi. unfold selection_map_of. fold ac.
    rewrite Hall.
    destruct (Z.leb_spec 0 i); [reflexivity | lia]. }
  destruct (level_body_spec hd Max_selected_nodes num_particles
              effective_num_levels Hcap lvl s Hok) as (Hok' & Hnum & Hlive').
  rewrite Hsel in Hnum, Hlive'. fold ws in Hnum, Hlive'.
  rewrite (candidates_identity lvl ws n ac) in Hnum, Hlive'
    by (try lia; try assumption; rewrite Hdbl; lia).
  rewrite zrange_length in Hnum, Hlive'.
  assert (num_available_nodes
            (level_body hd Max_selected_nodes num_particles
               effective_num_levels lvl s) = ac) as Hn' by lia.
  specialize (Hlive' ltac:(lia)).
  unfold full_inv. rewrite Hn'.
  replace (lvl + 1 - 1) with lvl by lia.
  split; [lia |]. split; [exact Hok' |]. split; [lia |].
  split; [exact Hlive' | exact Hacw].
Qed.

Lemma query_start_full_inv :
  2 <= effective_num_levels ->
  full_inv 1 (query_start hd Max_selected_nodes).
Proof.
  intros HL. split; [lia |].
  split; [apply query_start_count_ok; exact Hcap |].
  cbn [query_start num_available_nodes]. split; [lia |]. split.
  - unfold live, query_start, array_set; simpl.
    destruct (Z.to_nat Max_selected_nodes) as [| c] eqn:E; [lia |]. reflexivity.
  - replace (1 - 1) with 0 by lia.
    destruct Hwf as (_ & Heff & HN).
    assert (width 0 = effective_num_particles) as ->.
    { rewrite Heff. unfold BT_LEAVES_PER_NODE. f_equal. lia. }
    lia.
Qed.

(** With room for every level the particle pass offers the particles
    0 .. N-1, in this order. *)
Lemma query_offers_all_particles :
  2 <= effective_num_levels ->
  offered_particles
    (events (query hd Max_selected_nodes num_particles effective_num_levels))
  = zrange num_particles.
Proof.
  intros HL2.
  destruct (level_loop_invariant hd Max_selected_nodes num_particles
              effective_num_levels full_inv (fun _ => True) full_step
              63%nat 1%nat (query_start hd Max_selected_nodes))
    as (_ & l' & Hl' & (Hle & Hok & Hn1 & Hlive & Hlo & Hhi) & Hex).
  - lia.
  - lia.
  - apply query_start_full_inv. exact HL2.
  - apply Forall_forall. intros e _. exact I.
  - fold node_levels in Hok, Hn1, Hlive, Hlo, Hhi, Hex.
    fold (after_levels hd Max_selected_nodes num_particles effective_num_levels)
      in Hok, Hn1, Hlive, Hlo, Hhi, Hex.
    destruct (after_levels_events hd Max_selected_nodes num_particles
                effective_num_levels) as (nodes & k & He & Hf & _).
    rewrite query_events, particle_pass_events, He.
    set (s := after_levels hd Max_selected_nodes num_particles
                effective_num_levels) in *.
    assert (wrap64 (effective_num_levels - 1) = effective_num_levels - 1) as Hw.
    { destruct Hwf as (HL & _). apply wrap64_small. lia. }
    assert (l' = effective_num_levels - 1) as ->.
    { destruct Hwf as (HL & _).
      destruct Hex as [Hz | [Hx | Hx]]; [lia | lia |].
      simpl in Hx. lia. }
    replace (effective_num_levels - 1 - 1) with (effective_num_levels - 2)
      in Hlo, Hhi by lia.
    assert (width (effective_num_levels - 2) = 2) as Hw2.
    { unfold BT_LEAVES_PER_NODE.
      replace (effective_num_levels - 1 - (effective_num_levels - 2)) with 1
        by lia. reflexivity. }
    rewrite Hw2 in Hlo, Hhi.
    destruct (Z.ltb_spec 0 (num_available_nodes s)) as [Hpos | Hneg]; [| lia].
    cbn [offered_particles app].
    rewrite <- app_assoc, offered_particles_nodes by exact Hf.
    cbn [app offered_particles]. rewrite app_nil_r. cbv zeta.
    assert (Z.to_nat (num_available_nodes s)
            <= length (available_nodes_local_id s))%nat as Hlen
        by (destruct Hok as [? ->]; lia).
    assert (num_available_nodes s <= Max_selected_nodes) as Hcapn
        by (destruct Hok; lia).
    unfold live in Hlive.
    set (n := num_available_nodes s) in *.
    set (ws := available_nodes_local_id s) in *.
    rewrite (wrap32_small (2 * n)) by lia.
    rewrite (wrap32_small (2 * n - 1)) by lia.
    assert (1 <= effective_num_levels - 1 <= effective_num_levels - 1) as Hlvl
      by lia.
    assert ((n - 1) * width (effective_num_levels - 1 - 1) < num_particles)
      as Hlast.
    { replace (effective_num_levels - 1 - 1) with (effective_num_levels - 2)
        by lia. rewrite Hw2. lia. }
    assert (working_set_ok effective_num_levels num_particles
              (effective_num_levels - 1 - 1) (firstn (Z.to_nat n) ws)) as Hws.
    { rewrite Hlive. apply full_working_set_ok; [lia | exact Hlast]. }
    destruct (lnid_rightmost _ _ _ Hwf _ ws n Hlvl Hn1 Hws Hlen) as [Hr _].
    rewrite <- (array_get_firstn ws (Z.to_nat n)) in Hr by lia.
    rewrite Hlive, array_get_zrange in Hr by lia.
    rewrite Hr.
    assert ((if num_particles <=? (n - 1) * 2 + 1
             then 2 * n - 1 else 2 * n) = num_particles) as ->.
    { destruct (Z.leb_spec num_particles ((n - 1) * 2 + 1)); lia. }
    apply (candidates_identity (effective_num_levels - 1) ws n);
      try lia; assumption.
Qed.

End Complete.

End BreadthFirstComplete.

Import BreadthFirstComplete.

(** X15: when the handler selects every candidate it is offered, and no
    other, and the capacity has room for the deepest node level
    (2^(effective_num_levels-2) entries), the particle pass of a
    breadth-first query offers exactly the particles 0, 1, ..., N-1, in this
    order, also when N is not a power of two. *)
Theorem bfs_select_all_offers_all_particles {H : Type} (hd : handler H)
  (Max_selected_nodes : Z)
  (num_particles effective_num_particles effective_num_levels : Z) :
  1 <= Max_selected_nodes < 2 ^ 31 ->
  tree_wf num_particles effective_num_particles effective_num_levels ->
  2 <= effective_num_levels ->
  2 ^ (effective_num_levels - 2) <= Max_selected_nodes ->
  selects_every_node hd ->
  offered_particles
    (BreadthFirst.events
       (BreadthFirst.query hd Max_selected_nodes num_particles
          effective_num_levels))
  = zrange num_particles.
Proof.
  intros Hcap Hwf HL Hroom Hall.
  apply (query_offers_all_particles hd Max_selected_nodes num_particles
           effective_num_particles effective_num_levels Hcap Hwf Hroom Hall HL).
Qed.

Lemma bfs_select_all_offers_all_particles_witness :
  offered_particles (BreadthFirst.events (BreadthFirst.query select_all 4 5 4))
  = [0; 1; 2; 3; 4].
Proof.
  apply (bfs_select_all_offers_all_particles select_all 4 5 8 4).
  - lia.
  - unfold tree_wf. split; [lia |]. split; [reflexivity | lia].
  - lia.
  - simpl. lia.
  - intros h level working_set available_children id.
    cbn [select_all stateless_handler bfs_node_selector fst].
    apply andb_true_r.
Defined.

(** X16: when the handler selects no candidate at a level, the working set
    becomes empty and the traversal is over: whatever levels would follow,
    the level loop and the particle pass leave the state as it is, so the
    node selector and the particle processor are not called again. *)
Theorem bfs_empty_selection_stops {H : Type} (hd : handler H)
  (Max_selected_nodes num_particles effective_num_levels level : Z)
  (s : BreadthFirst.state H) (levels_to_come : list Z) :
  1 <= Max_selected_nodes < 2 ^ 31 ->
  count_ok Max_selected_nodes s ->
  selected_candidates hd Max_selected_nodes num_particles effective_num_levels
    level s = [] ->
  let s' :=
    BreadthFirst.level_body hd Max_selected_nodes num_particles
      effective_num_levels level s in
  BreadthFirst.num_available_nodes s' = 0 /\
  BreadthFirst.particle_pass hd num_particles
    (BreadthFirst.level_loop hd Max_selected_nodes num_particles
       effective_num_levels levels_to_come s') = s'.
Proof.
  intros Hcap Hok Hsel. cbv zeta.
  destruct (level_body_spec hd Max_selected_nodes num_particles
              effective_num_levels Hcap level s Hok) as (_ & Hnum & _).
  rewrite Hsel in Hnum. simpl in Hnum.
  assert (BreadthFirst.num_available_nodes
            (BreadthFirst.level_body hd Max_selected_nodes num_particles
               effective_num_levels level s) = 0) as Hz by lia.
  split; [exact Hz |].
  assert (BreadthFirst.level_loop hd Max_selected_nodes num_particles
            effective_num_levels levels_to_come
            (BreadthFirst.level_body hd Max_selected_nodes num_particles
               effective_num_levels level s)
          = BreadthFirst.level_body hd Max_selected_nodes num_particles
              effective_num_levels level s) as ->.
  { destruct levels_to_come as [| l rest]; [reflexivity |].
    cbn [BreadthFirst.level_loop]. rewrite Hz. reflexivity. }
  unfold BreadthFirst.particle_pass. rewrite Hz. reflexivity.
Qed.

Lemma bfs_empty_selection_stops_witness :
  let s := BreadthFirst.query_start select_none 2 in
  let s' := BreadthFirst.level_body select_none 2 8 4 1 s in
  BreadthFirst.num_available_nodes s' = 0 /\
  BreadthFirst.particle_pass select_none 8
    (BreadthFirst.level_loop select_none 2 8 4 [2; 3] s') = s'.
Proof.
  apply (bfs_empty_selection_stops select_none 2 8 4 1
           (BreadthFirst.query_start select_none 2) [2; 3]).
  - lia.
  - split; [simpl; lia | reflexivity].
  - reflexivity.
Defined.

(** X17: candidate [id] of a level is a child of entry [id >> 1] of the
    working set, the left child for even and the right child for odd [id]:
    its local node id is that of children_begin or children_last of the
    entry, and its parent in the tree addressing is the entry again (for
    entries below 2^63, whose children fit a ulong). *)
Theorem candidate_is_child_of_entry (parent_lnid_buffer : list Z)
  (lvl id : Z) :
  0 <= id ->
  0 <= array_get parent_lnid_buffer (Z.shiftr id 1) < 2 ^ 63 ->
  let entry := mk_key (lvl - 1) (array_get parent_lnid_buffer (Z.shiftr id 1)) in
  let candidate :=
    mk_key lvl
      (BreadthFirst.get_lnid_from_available_children_index parent_lnid_buffer id)
  in
  candidate
  = (if Z.odd id then binary_tree_get_children_last entry
     else binary_tree_get_children_begin entry) /\
  binary_tree_get_parent candidate = entry /\
  binary_tree_is_right_child candidate = Z.odd id.
Proof.
  intros Hid He. cbv zeta.
  unfold BreadthFirst.get_lnid_from_available_children_index,
    BT_LOCAL_NODE_ID_OF_LEFT_CHILD.
  rewrite land_one. set (e := array_get parent_lnid_buffer (Z.shiftr id 1)) in *.
  rewrite Zmod_odd.
  rewrite (wrap64_small (e * 2)) by lia.
  assert (wrap64 (e * 2 + (if Z.odd id then 1 else 0))
          = e * 2 + (if Z.odd id then 1 else 0)) as ->.
  { apply wrap64_small. destruct (Z.odd id); lia. }
  unfold binary_tree_get_parent, binary_tree_is_right_child,
    binary_tree_get_children_last, binary_tree_get_children_begin.
  cbn [level local_node_id].
  destruct (Z.odd id); repeat split.
  - f_equal; lia.
  - f_equal; try lia. symmetry. apply Z.div_unique with (r := 1); lia.
  - rewrite Z.add_comm, Z.mul_comm, Z.odd_add_mul_2. reflexivity.
  - f_equal; lia.
  - f_equal; try lia. symmetry. apply Z.div_unique with (r := 0); lia.
  - rewrite Z.add_0_r, Z.mul_comm, Z.odd_mul. reflexivity.
Qed.

Lemma candidate_is_child_of_entry_witness :
  mk_key 3 (BreadthFirst.get_lnid_from_available_children_index [2; 5] 3)
  = binary_tree_get_children_last (mk_key 2 5) /\
  binary_tree_get_parent
    (mk_key 3 (BreadthFirst.get_lnid_from_available_children_index [2; 5] 3))
  = mk_key 2 5 /\
  binary_tree_is_right_child
    (mk_key 3 (BreadthFirst.get_lnid_from_available_children_index [2; 5] 3))
  = true.
Proof.
  apply (candidate_is_child_of_entry [2; 5] 3 3).
  - lia.
  - change (array_get [2; 5] (Z.shiftr 3 1)) with 5. lia.
Defined.

(** X18: for a tree of two levels the level loop is left before its first
    iteration: the query consists of the init hook, one call of the particle
    processor on the children of the root (both particles when N >= 2, only
    particle 0 otherwise) and the exit hook; the node selector is never
    called. *)
Theorem bfs_two_level_tree {H : Type} (hd : handler H)
  (Max_selected_nodes num_particles : Z) :
  1 <= Max_selected_nodes ->
  BreadthFirst.events (BreadthFirst.query hd Max_selected_nodes num_particles 2)
  = [BreadthFirst.QueryInit;
     BreadthFirst.ParticleProcessor
       (BreadthFirst.available_nodes_local_id
          (BreadthFirst.query_start hd Max_selected_nodes))
       1 (if 2 <=? num_particles then 2 else 1);
     BreadthFirst.QueryExit].
Proof.
  intros Hcap. rewrite query_events, particle_pass_events.
  assert (BreadthFirst.after_levels hd Max_selected_nodes num_particles 2
          = BreadthFirst.query_start hd Max_selected_nodes) as ->
      by reflexivity.
  cbn [BreadthFirst.query_start BreadthFirst.num_available_nodes
         BreadthFirst.events BreadthFirst.available_nodes_local_id].
  change (0 <? 1) with true. cbv zeta.
  change (wrap32 (2 * 1)) with 2. change (wrap32 (2 - 1)) with 1.
  assert (BreadthFirst.get_lnid_from_available_children_index
            (array_set (repeat 0 (Z.to_nat Max_selected_nodes)) 0 0) 1 = 1)
    as ->.
  { unfold BreadthFirst.get_lnid_from_available_children_index, array_set,
      array_get.
    destruct (Z.to_nat Max_selected_nodes) as [| c] eqn:E; [lia |].
    reflexivity. }
  destruct (Z.leb_spec num_particles 1), (Z.leb_spec 2 num_particles);
    try lia; reflexivity.
Qed.

Lemma bfs_two_level_tree_witness :
  BreadthFirst.events (BreadthFirst.query select_all 3 2 2)
  = [BreadthFirst.QueryInit;
     BreadthFirst.ParticleProcessor [0; 0; 0] 1 2;
     BreadthFirst.QueryExit].
Proof.
  apply (bfs_two_level_tree select_all 3 2). lia.
Defined.

(** * Backtracking targets of the two strategies *)

Lemma iter_children_last_nonneg (k : nat) (x : binary_tree_key_t) :
  0 <= local_node_id x ->
  local_node_id x <= local_node_id (Nat.iter k binary_tree_get_children_last x).
Proof.
  intros Hx. induction k as [| k IH]; [simpl; lia |].
  rewrite Nat.iter_succ.
  set (y := Nat.iter k binary_tree_get_children_last x) in *. clearbody y.
  unfold binary_tree_get_children_last. cbn [local_node_id]. lia.
Qed.

(** Stepping right and then down to the first child is stepping down to the
    last child and then right. *)
Lemma children_begin_of_next (k : nat) :
  forall x : binary_tree_key_t,
    0 <= local_node_id x ->
    local_node_id (Nat.iter k binary_tree_get_children_last x) < 2 ^ 63 ->
    Nat.iter k binary_tree_get_children_begin (next_local_node_id x)
    = next_local_node_id (Nat.iter k binary_tree_get_children_last x).
Proof.
  induction k as [| k IH]; intros x Hx Hb; [reflexivity |].
  rewrite !Nat.iter_succ in *.
  pose proof (iter_children_last_nonneg k x Hx) as Hmono.
  assert (local_node_id (Nat.iter k binary_tree_get_children_last x) < 2 ^ 62)
    as Hb'.
  { revert Hb Hmono.
    generalize (Nat.iter k binary_tree_get_children_last x) as y.
    intros y Hb Hmono. unfold binary_tree_get_children_last in Hb.
    cbn [local_node_id] in Hb. lia. }
  rewrite IH by lia.
  revert Hb' Hmono. generalize (Nat.iter k binary_tree_get_children_last x) as y.
  intros y Hb' Hmono.
  unfold next_local_node_id, binary_tree_get_children_begin,
    binary_tree_get_children_last. cbn [level local_node_id].
  rewrite !wrap64_small by lia. f_equal. lia.
Qed.

(** X19: after a rejection at a right child inside the tree, either strategy
    moves the cursor to a slot at a higher level (a slot of the tree, or the
    slot one past the right end of its level) whose leftmost leaf directly
    follows the subtree of the rejected node; the two targets therefore cover
    the same particles from the same leaf onwards. *)
Theorem backtracking_skips_exactly_the_subtree (levels : Z)
  (strategy : depth_first_iteration_strategy) (node : binary_tree_key_t) :
  1 <= levels <= 64 -> node_ok levels node ->
  binary_tree_is_right_child node = true ->
  let target := next_local_node_id (NEXT_PARENT strategy node) in
  cursor_ok levels target /\ level target < level node /\
  leftmost_leaf target levels
  = leftmost_leaf node levels + BT_LEAVES_PER_NODE (level node) levels.
Proof.
  intros HL Hok Hr. apply next_parent_ok; assumption.
Qed.

Lemma backtracking_skips_exactly_the_subtree_witness :
  let target :=
    next_local_node_id (NEXT_PARENT HIERARCHICAL_ITERATION_STRICT (mk_key 3 3))
  in
  cursor_ok 4 target /\ level target < 3 /\ leftmost_leaf target 4 = 3 + 1.
Proof.
  apply (backtracking_skips_exactly_the_subtree 4
           HIERARCHICAL_ITERATION_STRICT (mk_key 3 3)).
  - lia.
  - split; simpl; lia.
  - reflexivity.
Defined.

(** X20: the relaxed backtracking target is reached from the strict one by
    going down to the first child some number of times: it is the leftmost
    descendant of the strict target on the level above the rejected node. *)
Theorem relaxed_target_below_strict_target (node : binary_tree_key_t) :
  0 <= local_node_id node < 2 ^ 64 ->
  exists k : nat,
    next_local_node_id (NEXT_PARENT HIERARCHICAL_ITERATION_RELAXED node)
    = Nat.iter k binary_tree_get_children_begin
        (next_local_node_id (NEXT_PARENT HIERARCHICAL_ITERATION_STRICT node)).
Proof.
  intros Hi. cbn [NEXT_PARENT].
  destruct (find_first_left_parent_loop_chain
              (bit_length (local_node_id (binary_tree_get_parent node)))
              (binary_tree_get_parent node)) as (_ & k & Hk).
  { assert (0 <= local_node_id (binary_tree_get_parent node)) as Hp.
    { unfold binary_tree_get_parent; simpl. apply Z.div_pos; lia. }
    split; [exact Hp | apply bit_length_covers; exact Hp]. }
  fold (find_first_left_parent node) in Hk.
  exists k. rewrite children_begin_of_next.
  - rewrite <- Hk. reflexivity.
  - assert (0 <= local_node_id (binary_tree_get_parent node)) as Hp.
    { unfold binary_tree_get_parent; simpl. apply Z.div_pos; lia. }
    rewrite Hk in Hp.
    clear Hk. revert Hp. generalize (find_first_left_parent node) as r.
    induction k as [| k IH]; intros r Hp; [exact Hp |].
    rewrite Nat.iter_succ in Hp.
    apply IH. revert Hp.
    generalize (Nat.iter k binary_tree_get_children_last r) as y.
    intros y Hp. unfold binary_tree_get_children_last in Hp.
    cbn [local_node_id] in Hp. lia.
  - rewrite <- Hk. unfold binary_tree_get_parent; simpl.
    apply Z.div_lt_upper_bound; lia.
Qed.

Lemma relaxed_target_below_strict_target_witness :
  exists k : nat,
    next_local_node_id (NEXT_PARENT HIERARCHICAL_ITERATION_RELAXED (mk_key 3 3))
    = Nat.iter k binary_tree_get_children_begin
        (next_local_node_id
           (NEXT_PARENT HIERARCHICAL_ITERATION_STRICT (mk_key 3 3))).
Proof.
  apply (relaxed_target_below_strict_target (mk_key 3 3)). simpl. lia.
Defined.

(** * Sound pruning in the depth-first engine *)

(** Rejects node (1,1) and, soundly, the particles 4 to 7 below it; it also
    rejects particle 1. *)
Definition prune_right_half_soundly : handler unit :=
  stateless_handler (fun node => negb (key_eqb node (mk_key 1 1)))
                    (fun p => (p <? 4) && negb (p =? 1)).

(** X21: when no node a stateless handler rejects has an accepted particle
    below it, a depth-first query selects, under either strategy, exactly the
    particles among 0..N-1 that the handler accepts, in ascending order:
    pruning loses no particle. *)
Theorem dfs_sound_pruning_selects_accepted
  (node_pred : binary_tree_key_t -> bool) (particle_pred : Z -> bool)
  (strategy : depth_first_iteration_strategy)
  (num_particles effective_num_particles effective_num_levels : Z) :
  tree_wf num_particles effective_num_particles effective_num_levels ->
  hereditary node_pred particle_pred effective_num_levels ->
  exists final : state unit,
    query (stateless_handler node_pred particle_pred) strategy num_particles
      effective_num_particles effective_num_levels
      (enough_fuel effective_num_particles effective_num_levels)
    = Some final /\
    selected_particles (events final)
    = filter particle_pred (zrange num_particles).
Proof.
  intros Hwf Hher.
  apply (query_selects_accepted node_pred particle_pred strategy _ _ _ Hwf Hher).
Qed.

Lemma dfs_sound_pruning_selects_accepted_witness :
  exists final : state unit,
    query prune_right_half_soundly HIERARCHICAL_ITERATION_RELAXED 8 8 4
      (enough_fuel 8 4)
    = Some final /\
    selected_particles (events final) = [0; 2; 3].
Proof.
  apply (dfs_sound_pruning_selects_accepted
           (fun node => negb (key_eqb node (mk_key 1 1)))
           (fun p => (p <? 4) && negb (p =? 1))
           HIERARCHICAL_ITERATION_RELAXED 8 8 4).
  - unfold tree_wf. split; [lia |]. split; [reflexivity | lia].
  - intros [l i] p Hrej Hin. apply negb_false_iff in Hrej.
    unfold key_eqb in Hrej. cbn [level local_node_id] in Hrej.
    apply andb_true_iff in Hrej. destruct Hrej as [El Ei].
    apply Z.eqb_eq in El. apply Z.eqb_eq in Ei. subst l i.
    unfold leftmost_leaf, BT_LEAVES_PER_NODE in Hin.
    cbn [level local_node_id] in Hin.
    change (2 ^ (4 - 1 - 1)) with 4 in Hin.
    destruct (Z.ltb_spec p 4) as [Hlt | Hge]; [lia | reflexivity].
Defined.
